(** * Sheet comparison of the Excel file comparator (main.py)

    A shallow embedding of [SheetComparator] — [compare], [_compare_data]
    and [_generate_differences_df] — together with the slice of the polars
    API these three methods call, and the properties of the hierarchical
    comparison proved on it; then of what calls it: [ReportGenerator],
    [FileComparator.process_pair] and [App.run], over a file system and a
    workbook reader given as parameters, with what they print and write
    kept as a list of effects.

    Conventions of the embedding:
    - a polars [DataFrame] is the list of its columns ([Series]), each with
      a name, a dtype and a list of nullable cells;
    - polars exceptions and Python's [ZeroDivisionError] are values of
      [Exn], threaded through the error monad [result];
    - Python's [int / int] is kept as the exact quotient in [Q]; the float
      that Python makes of it is the nearest double, [Float64.of_Q] of the
      quotient, computed with the binary64 operations of [SpecFloat].  The
      literal 0.10 is 1/10: for the heights polars allows (below 2^32) the
      double [mismatch_count / total_rows] is above the double 0.10
      exactly when the quotient is above 1/10;
    - the f-strings stored in [CompareResult.details] are kept as the data
      they are formatted from ([Details]). *)

From Stdlib Require Import QArith Lqa Ascii SpecFloat.
From stdpp Require Import base list strings gmap sorting pretty.

Close Scope Q_scope.
#[local] Open Scope string_scope.
#[local] Open Scope list_scope.
#[local] Open Scope nat_scope.

(** ** Exceptions and the error monad *)

Inductive Exn :=
  | ZeroDivisionError      (* Python: division by zero *)
  | DuplicateError         (* polars: two columns with one name *)
  | ColumnNotFoundError    (* polars: pl.col(c) on a frame without c *)
  | ComputeError.          (* polars: horizontal fold over no expression *)

Inductive result (A : Type) :=
  | Ok (a : A)
  | Raise (e : Exn).
Arguments Ok {A} a.
Arguments Raise {A} e.

#[global] Instance result_ret : MRet result := λ A a, Ok a.
#[global] Instance result_bind : MBind result := λ A B f m,
  match m with
  | Ok a => f a
  | Raise e => Raise e
  end.

(** ** Python arithmetic *)

(** [a / b] on two Python ints: the exact quotient, of which Python
    returns the nearest double ([Float64.of_Q] below). *)
Definition truediv (a b : Z) : result Q :=
  if decide (b = 0%Z) then Raise ZeroDivisionError
  else Ok (inject_Z a / inject_Z b)%Q.

(** Python floats are IEEE 754 binary64 numbers: 53 bits of precision,
    every operation rounded to the nearest double, ties to even. *)
Module Float64.

Definition prec : Z := 53.
Definition emax : Z := 1024.

(** [float(n)]; exact for an int below 2^53 in magnitude. *)
Definition of_int (n : Z) : spec_float := binary_normalize prec emax n 0 false.

(** [x / y] and [x - y] on two floats. *)
Definition div : spec_float → spec_float → spec_float := SFdiv prec emax.
Definition sub : spec_float → spec_float → spec_float := SFsub prec emax.

(** [a / b] on two ints below 2^53 in magnitude, [b] not 0: both are
    doubles and the quotient is rounded once. *)
Definition truediv (a b : Z) : spec_float := div (of_int a) (of_int b).

(** The double nearest to a quotient of two such ints. *)
Definition of_Q (q : Q) : spec_float := truediv (Qnum q) (Z.pos (Qden q)).

(** [x <= y] on two floats. *)
Definition leb : spec_float → spec_float → bool := SFleb.

End Float64.

(** [a > b] on two numbers. *)
Definition Qgtb (a b : Q) : bool := negb (Qle_bool a b).

(** ** Null-aware cell operations of polars

    A cell is [None] (null) or [Some v].  Comparisons propagate nulls,
    [&] and [|] follow Kleene logic. *)

Definition cell_is_null {A} (a : option A) : option bool :=
  Some (bool_decide (a = None)).

Definition cell_is_not_null {A} (a : option A) : option bool :=
  Some (bool_decide (is_Some a)).

Definition cell_ne {A} `{EqDecision A} (a b : option A) : option bool :=
  match a, b with
  | Some x, Some y => Some (bool_decide (x ≠ y))
  | _, _ => None
  end.

Definition cell_fill_null (a : option bool) (b : bool) : option bool :=
  match a with
  | Some x => Some x
  | None => Some b
  end.

Definition cell_and (a b : option bool) : option bool :=
  match a, b with
  | Some false, _ | _, Some false => Some false
  | Some true, Some true => Some true
  | _, _ => None
  end.

Definition cell_or (a b : option bool) : option bool :=
  match a, b with
  | Some true, _ | _, Some true => Some true
  | Some false, Some false => Some false
  | _, _ => None
  end.

Definition cell_not (a : option bool) : option bool := negb <$> a.

(** A Boolean series; [sum] counts its [true] cells and [filter] keeps the
    rows where it is [true], a null counting as [false] in both. *)
Abbreviation BoolSeries := (list (option bool)).

Definition is_true_cell (m : option bool) : bool :=
  match m with
  | Some true => true
  | _ => false
  end.

Definition series_sum (mask : BoolSeries) : nat :=
  length (filter (λ m, is_true_cell m = true) mask).

Definition filter_mask {A} (mask : BoolSeries) (l : list A) : list A :=
  snd <$> filter (λ p, is_true_cell p.1 = true) (zip mask l).

(** [s1 != s2] on two null-free series of one length. *)
Definition series_ne {A} `{EqDecision A} (s1 s2 : list A) : BoolSeries :=
  zip_with (λ a b, Some (bool_decide (a ≠ b))) s1 s2.

(** [pl.any_horizontal(exprs)], on the evaluated expressions; polars
    raises ComputeError when there is none. *)
Definition any_horizontal (ss : list BoolSeries) : result BoolSeries :=
  match ss with
  | [] => Raise ComputeError
  | s :: ss => Ok (foldl (zip_with cell_or) s ss)
  end.

Fixpoint result_mapM {A B} (f : A → result B) (l : list A) : result (list B) :=
  match l with
  | [] => Ok []
  | x :: l => y ← f x; ys ← result_mapM f l; Ok (y :: ys)
  end.

(** ** Results of a comparison *)

Definition Shape : Type := nat * nat.

(** The value formatted into [CompareResult.details]:
    - [NoDetails]: the empty string;
    - [ShapeDetails s1 s2]: f"V1: {shape1}, V2: {shape2}";
    - [DiffCols cs]: f"Diff cols: {diff_cols}", a Python set;
    - [TypeDiffs d]: f"Type diffs: {type_diff}", a Python dict, kept as
      its items in insertion order;
    - [EmptyFiles]: "Files are empty (Headers only)";
    - [RowsDiffer n]: f"{mismatch_count} rows differ.". *)
Inductive Details :=
  | NoDetails
  | ShapeDetails (s1 s2 : Shape)
  | DiffCols (cs : gset string)
  | TypeDiffs (d : list (string * (string * string)))
  | EmptyFiles
  | RowsDiffer (n : nat).

Record CompareResult := mkCompareResult {
  status : string;
  match_rate : Q;
  details : Details;
  shape1 : Shape;
  shape2 : Shape
}.

(** The float that the [match_rate] field holds: the literal 0.0 or 1.0,
    or the quotient of line 112 rounded to a double. *)
Definition match_rate_float (r : CompareResult) : spec_float :=
  Float64.of_Q (match_rate r).

(** One row of the frame of differences, with the columns "Row Index",
    "Column Name", "Column type", "Value V1" and "Value V2". *)
Record CellDifference := mkCellDifference {
  row_index : nat;
  column_name : string;
  column_type : string;
  value_v1 : option string;
  value_v2 : option string
}.

Module Config.
Definition MISMATCH_THRESHOLD : Q := 1 # 10.
(** 1,000,000, written through [Z] to keep the numeral binary. *)
Definition MAX_EXCEL_ROWS : nat := Z.to_nat 1000000.
End Config.

(** The key of [sort(["Row Index", "Column Name"])]: row indices as
    numbers, then column names as text. *)
Definition diff_le (d1 d2 : CellDifference) : Prop :=
  row_index d1 < row_index d2 ∨
  (row_index d1 = row_index d2 ∧ (column_name d1 ≤ column_name d2)%string).

#[global] Instance diff_le_dec : RelDecision diff_le.
Proof. intros d1 d2. unfold diff_le. apply _. Defined.

Definition sort_diffs : list CellDifference → list CellDifference :=
  merge_sort diff_le.

(** ** Data frames *)

(** What the comparison takes from polars without looking inside: the
    non-null values a cell can hold, the dtype tags, the hash that
    [DataFrame.hash_rows] gives one row, [cast(pl.Utf8)] on a non-null
    value and [str(t)] on a dtype.  A value is what the cast renders, so
    that the cast is a function of it.  In the mask of the field-wise
    strategy [!=] on two non-null values is taken as their inequality:
    this is [!=] for integers, strings, Booleans and dates; on Float64,
    where [!=] equates 0.0 and -0.0 and the cast does not, [!=] is coarser
    than the inequality of the values ([float_polars] below), and what
    the frame of differences has to do with [!=] is stated for a test
    [ne] given apart ([fieldwise_mismatch_under]). *)
Class Polars := {
  value : Type;
  value_eq_dec :: EqDecision value;
  DataType : Type;
  DataType_eq_dec :: EqDecision DataType;
  row_hash : list (option value) → Z;
  cast_utf8 : value → string;
  str_dtype : DataType → string
}.

Section frames.
Context `{P : Polars}.

Record Series := mkSeries {
  name : string;
  dtype : DataType;
  values : list (option value)
}.

Abbreviation DataFrame := (list Series).

Definition height (df : DataFrame) : nat :=
  match df with
  | [] => 0
  | s :: _ => length (values s)
  end.

Definition width (df : DataFrame) : nat := length df.
Definition shape (df : DataFrame) : Shape := (height df, width df).
Definition columns (df : DataFrame) : list string := name <$> df.
Definition dtypes (df : DataFrame) : list DataType := dtype <$> df.

(** What polars guarantees of every frame: column names are unique and
    all columns have the height of the frame. *)
Definition wf_df (df : DataFrame) : Prop :=
  NoDup (columns df) ∧ Forall (λ s, length (values s) = height df) df.

(** *** Row hashing *)

Definition row (df : DataFrame) (i : nat) : list (option value) :=
  (λ s, default None (values s !! i)) <$> df.

Definition hash_rows (df : DataFrame) : list Z :=
  (λ i, row_hash (row df i)) <$> seq 0 (height df).

(** *** Renaming and horizontal concatenation *)

(** [df.rename({c: f c for c in df.columns})]: every column is renamed,
    all at once. *)
Definition rename (f : string → string) (df : DataFrame) : DataFrame :=
  (λ s, mkSeries (f (name s)) (dtype s) (values s)) <$> df.

(** [pl.concat([df1, df2], how="horizontal")] on two frames of one
    height; polars raises DuplicateError when a column name occurs in
    both. *)
Definition concat_horizontal (df1 df2 : DataFrame) : result DataFrame :=
  if decide (NoDup (columns (df1 ++ df2))) then Ok (df1 ++ df2)
  else Raise DuplicateError.

(** *** Expressions *)

Inductive Expr :=
  | IsNull (c : string)              (* pl.col(c).is_null() *)
  | IsNotNull (c : string)           (* pl.col(c).is_not_null() *)
  | Ne (c1 c2 : string)              (* pl.col(c1) != pl.col(c2) *)
  | FillNull (e : Expr) (b : bool)   (* e.fill_null(b) *)
  | And (e1 e2 : Expr)               (* e1 & e2 *)
  | Or (e1 e2 : Expr).               (* e1 | e2 *)

(** [pl.col(c)], evaluated in [df]. *)
Definition col (df : DataFrame) (c : string) : result Series :=
  match list_find (λ s, name s = c) df with
  | Some (_, s) => Ok s
  | None => Raise ColumnNotFoundError
  end.

Fixpoint eval (df : DataFrame) (e : Expr) : result BoolSeries :=
  match e with
  | IsNull c => s ← col df c; Ok (cell_is_null <$> values s)
  | IsNotNull c => s ← col df c; Ok (cell_is_not_null <$> values s)
  | Ne c1 c2 =>
      s1 ← col df c1; s2 ← col df c2;
      Ok (zip_with cell_ne (values s1) (values s2))
  | FillNull e b =>
      s ← eval df e; Ok (fmap (M:=list) (λ a, cell_fill_null a b) s)
  | And e1 e2 =>
      s1 ← eval df e1; s2 ← eval df e2; Ok (zip_with cell_and s1 s2)
  | Or e1 e2 =>
      s1 ← eval df e1; s2 ← eval df e2; Ok (zip_with cell_or s1 s2)
  end.

(** [df.select(pl.any_horizontal(exprs)).to_series()]. *)
Definition select_any_horizontal (df : DataFrame) (exprs : list Expr)
  : result BoolSeries :=
  ss ← result_mapM (eval df) exprs; any_horizontal ss.

(** *** The mismatch mask of [_compare_data] (lines 89 to 108) *)

Definition v2 (c : string) : string := c +:+ "_v2".

(** The expression [is_diff] built for column [c]. *)
Definition is_diff (c : string) : Expr :=
  Or (Or (And (IsNull c) (IsNotNull (v2 c)))
         (And (IsNotNull c) (IsNull (v2 c))))
     (FillNull (Ne c (v2 c)) false).

Definition mismatch_mask (use_hash : bool) (df1 df2 : DataFrame)
  : result BoolSeries :=
  if use_hash then
    let h1 := hash_rows df1 in
    let h2 := hash_rows df2 in
    Ok (series_ne h1 h2)
  else
    let df2_renamed := rename v2 df2 in
    combined ← concat_horizontal df1 df2_renamed;
    let exprs := is_diff <$> columns df1 in
    select_any_horizontal combined exprs.

(** *** The frames of [_generate_differences_df] *)

(** A frame with the column "Row Index" that [with_row_index] puts
    first. *)
Record IndexedFrame := mkIndexedFrame {
  index_col : list nat;
  data : DataFrame
}.

(** [df.with_row_index("Row Index")]; polars raises DuplicateError when
    [df] has a column of that name. *)
Definition with_row_index (df : DataFrame) : result IndexedFrame :=
  if decide ("Row Index" ∈ columns df) then Raise DuplicateError
  else Ok (mkIndexedFrame (seq 0 (height df)) df).

(** [f.filter(mask)], for a mask of the height of the frame, the only
    masks that [_compare_data] passes on. *)
Definition filter_rows (mask : BoolSeries) (f : IndexedFrame)
  : IndexedFrame :=
  mkIndexedFrame
    (filter_mask mask (index_col f))
    ((λ s, mkSeries (name s) (dtype s) (filter_mask mask (values s)))
       <$> data f).

(** A frame whose value columns are all of dtype Utf8. *)
Record StrFrame := mkStrFrame {
  str_index : list nat;
  str_columns : list (string * list (option string))
}.

(** [pl.col(c).cast(pl.Utf8)]; the cast keeps nulls. *)
Definition col_cast_utf8 (df : DataFrame) (c : string)
  : result (string * list (option string)) :=
  s ← col df c; Ok (name s, fmap (M:=list) (fmap cast_utf8) (values s)).

(** [f.select(["Row Index"] + [pl.col(c).cast(pl.Utf8) for c in cs])]. *)
Definition select_cast_utf8 (f : IndexedFrame) (cs : list string)
  : result StrFrame :=
  cols ← result_mapM (col_cast_utf8 (data f)) cs;
  Ok (mkStrFrame (index_col f) cols).

(** A row of a melted frame: "Row Index", "Column Name" and the value. *)
Record Melted := mkMelted {
  m_row_index : nat;
  m_column_name : string;
  m_value : option string
}.

(** The rows of [f.unpivot(index="Row Index", ...)]: the value columns one
    after the other, each with the row indices beside it. *)
Definition melt (f : StrFrame) : list Melted :=
  p ← str_columns f;
  zip_with (λ i v, mkMelted i p.1 v) (str_index f) p.2.

(** [f.unpivot(index="Row Index", variable_name=..., value_name=...)];
    polars raises DuplicateError when a value column of [f] already has
    the name of the variable column or of the value column. *)
Definition unpivot (variable_name value_name : string) (f : StrFrame)
  : result (list Melted) :=
  if decide (variable_name ∈ (str_columns f).*1
             ∨ value_name ∈ (str_columns f).*1)
  then Raise DuplicateError
  else Ok (melt f).

(** A row of [melt1.join(melt2, on=["Row Index", "Column Name"])]. *)
Record Joined := mkJoined {
  j_row_index : nat;
  j_column_name : string;
  j_value_v1 : option string;
  j_value_v2 : option string
}.

(** The inner join; the order of its rows is fixed by the final sort. *)
Definition join (melt1 melt2 : list Melted) : list Joined :=
  l ← melt1;
  r ← filter (λ r, m_row_index r = m_row_index l
                   ∧ m_column_name r = m_column_name l) melt2;
  [mkJoined (m_row_index l) (m_column_name l) (m_value l) (m_value r)].

(** The predicate of the filter at lines 139 to 142:
    [(V1 != V2).fill_null(True) & ~(V1.is_null() & V2.is_null())]. *)
Definition values_differ (j : Joined) : option bool :=
  cell_and
    (cell_fill_null (cell_ne (j_value_v1 j) (j_value_v2 j)) true)
    (cell_not (cell_and (cell_is_null (j_value_v1 j))
                        (cell_is_null (j_value_v2 j)))).

(** [pl.DataFrame({"Column Name": ..., "Column type": ...})]. *)
Definition schema_df (df1 : DataFrame) : list (string * string) :=
  zip (columns df1) (str_dtype <$> dtypes df1).

(** [diff_df.join(schema_df, on="Column Name")]. *)
Definition join_schema (diff_df : list Joined) (schema : list (string * string))
  : list CellDifference :=
  j ← diff_df;
  p ← filter (λ p, p.1 = j_column_name j) schema;
  [mkCellDifference (j_row_index j) (j_column_name j) p.2
                    (j_value_v1 j) (j_value_v2 j)].

Definition _generate_differences_df (df1 df2 : DataFrame)
    (mismatch_mask : BoolSeries) : result (list CellDifference) :=
  i1 ← with_row_index df1;
  let df1_idx := filter_rows mismatch_mask i1 in
  i2 ← with_row_index df2;
  let df2_idx := filter_rows mismatch_mask i2 in
  df1_str ← select_cast_utf8 df1_idx (columns df1);
  df2_str ← select_cast_utf8 df2_idx (columns df2);
  melt1 ← unpivot "Column Name" "Value V1" df1_str;
  melt2 ← unpivot "Column Name" "Value V2" df2_str;
  let diff_df := join melt1 melt2 in
  let diff_df :=
    filter (λ j, is_true_cell (values_differ j) = true) diff_df in
  let diff_df := join_schema diff_df (schema_df df1) in
  Ok (sort_diffs diff_df).

(** *** [_compare_data] and [compare] *)

Abbreviation Outcome := (CompareResult * option (list CellDifference))%type.

Definition _compare_data (use_hash : bool) (df1 df2 : DataFrame)
    (shape1 shape2 : Shape) : result Outcome :=
  mismatch_mask ← mismatch_mask use_hash df1 df2;
  let mismatch_count := series_sum mismatch_mask in
  let total_rows := height df1 in
  match_rate ← truediv (Z.of_nat total_rows - Z.of_nat mismatch_count)
                       (Z.of_nat total_rows);
  if decide (mismatch_count = 0) then
    Ok (mkCompareResult "Perfect match" 1 NoDetails shape1 shape2, None)
  else
    ratio ← truediv (Z.of_nat mismatch_count) (Z.of_nat total_rows);
    if Qgtb ratio Config.MISMATCH_THRESHOLD then
      Ok (mkCompareResult "Data mismatch >10.0%" match_rate
            (RowsDiffer mismatch_count) shape1 shape2, None)
    else
      diff_df ← _generate_differences_df df1 df2 mismatch_mask;
      Ok (mkCompareResult "Data mismatch" match_rate
            (RowsDiffer mismatch_count) shape1 shape2, Some diff_df).

(** [set(cs1) ^ set(cs2)]. *)
Definition symmetric_difference (cs1 cs2 : list string) : gset string :=
  (list_to_set cs1 ∖ list_to_set cs2) ∪ (list_to_set cs2 ∖ list_to_set cs1).

(** The dict [type_diff] of line 78. *)
Definition type_diff (df1 df2 : DataFrame) : list (string * (string * string)) :=
  omap (λ '(c, (t1, t2)),
          if decide (t1 ≠ t2) then Some (c, (str_dtype t1, str_dtype t2))
          else None)
       (zip (columns df1) (zip (dtypes df1) (dtypes df2))).

Definition compare (use_hash : bool) (df1 df2 : DataFrame) : result Outcome :=
  let shape1 := shape df1 in
  let shape2 := shape df2 in
  if decide (shape1 ≠ shape2) then
    Ok (mkCompareResult "Shape mismatch" 0 (ShapeDetails shape1 shape2)
          shape1 shape2, None)
  else if decide (columns df1 ≠ columns df2) then
    let diff_cols := symmetric_difference (columns df1) (columns df2) in
    Ok (mkCompareResult "Column names mismatch" 0 (DiffCols diff_cols)
          shape1 shape2, None)
  else if decide (dtypes df1 ≠ dtypes df2) then
    Ok (mkCompareResult "Column type mismatch" 0
          (TypeDiffs (type_diff df1 df2)) shape1 shape2, None)
  else if decide (shape1.1 = 0) then
    Ok (mkCompareResult "Perfect match" 1 EmptyFiles shape1 shape2, None)
  else
    _compare_data use_hash df1 df2 shape1 shape2.

End frames.

Abbreviation DataFrame := (list Series).

(** ** The field-wise semantics of the specification

    Section 4.2 in its own words: a cell is mismatched iff exactly one
    side is null, or both are non-null and the values are unequal; a row is
    mismatched iff any of its columns is. *)

Section fieldwise.
Context `{P : Polars}.

Definition fieldwise_mismatch (a b : option value) : Prop :=
  (a = None ∧ b ≠ None) ∨ (a ≠ None ∧ b = None) ∨
  (∃ x y, a = Some x ∧ b = Some y ∧ x ≠ y).


#[global] Instance fieldwise_mismatch_dec (a b : option value) :
  Decision (fieldwise_mismatch a b).
Proof.
  unfold fieldwise_mismatch. destruct a as [x|], b as [y|].
  - destruct (decide (x = y)) as [->|Hne].
    + right. intros [[? _]|[[_ ?]|(x' & y' & [= <-] & [= <-] & ?)]]; done.
    + left. right. right. eauto.
  - left. right. left. done.
  - left. left. done.
  - right. intros [[_ ?]|[[? _]|(x' & y' & ? & _)]]; done.
Defined.

(** The cell of column [j] in row [i]. *)
Definition cell (df : DataFrame) (j i : nat) : option (option value) :=
  s ← df !! j; values s !! i.

Definition row_mismatched (df1 df2 : DataFrame) (i : nat) : Prop :=
  ∃ j a b, cell df1 j i = Some a ∧ cell df2 j i = Some b ∧
           fieldwise_mismatch a b.

(** The indicator of every column: which of its cells are mismatched. *)
Definition column_mismatches (df1 df2 : DataFrame) : list (list bool) :=
  (λ p, zip_with (λ a b, bool_decide (fieldwise_mismatch a b))
                 (values p.1) (values p.2)) <$> zip df1 df2.

Definition no_cell_differences (df1 df2 : DataFrame) : Prop :=
  ∀ i, ¬ row_mismatched df1 df2 i.

(** Row comparison runs: the four checks of [compare] before
    [_compare_data] all pass. *)
Definition row_comparison_executes (df1 df2 : DataFrame) : Prop :=
  shape df1 = shape df2 ∧ columns df1 = columns df2 ∧
  dtypes df1 = dtypes df2 ∧ height df1 ≠ 0.

(** The renaming of line 94 followed by the concatenation of line 95 is
    refused by polars when a name of [df1] is also a renamed name of
    [df2]. *)
Definition no_name_collision (df1 df2 : DataFrame) : Prop :=
  NoDup (columns df1 ++ (v2 <$> columns df2)).

End fieldwise.

(** The names that [_generate_differences_df] gives to columns of its own;
    polars refuses a sheet column of one of these names at line 125 or 126
    ("Row Index") or at line 133 or 134 (the others). *)
Definition reserved_names : list string :=
  ["Row Index"; "Column Name"; "Value V1"; "Value V2"].

(** ** Sample frames

    Cells hold integers, dtypes are named by their polars name, a row is
    hashed by a polynomial in its cells. *)

Definition sample_hash (r : list (option Z)) : Z :=
  foldl (λ h c, (31 * h + match c with
                          | Some v => 2 * v + 1
                          | None => 0
                          end) `mod` 2 ^ 64)%Z 7%Z r.

Definition sample_polars : Polars := {|
  value := Z;
  DataType := string;
  row_hash := sample_hash;
  cast_utf8 := pretty;
  str_dtype := id
|}.

Section samples.
#[local] Existing Instance sample_polars.

Definition int_col (c : string) (vs : list (option Z)) : Series :=
  mkSeries c "Int64" vs.

Definition some_range (start len : nat) : list (option Z) :=
  (λ n, Some (Z.of_nat n)) <$> seq start len.

(** Three rows, one null in each column. *)
Definition small_v1 : DataFrame :=
  [int_col "a" [Some 1; None; Some 3]%Z; int_col "b" [Some 5; Some 6; None]%Z].

(** [small_v1] with another value in the last row of "a". *)
Definition small_v2 : DataFrame :=
  [int_col "a" [Some 1; None; Some 4]%Z; int_col "b" [Some 5; Some 6; None]%Z].

(** The columns of [small_v1] in the other order. *)
Definition small_swapped : DataFrame :=
  [int_col "b" [Some 5; Some 6; None]%Z; int_col "a" [Some 1; None; Some 3]%Z].

(** Two rows only. *)
Definition short_v1 : DataFrame :=
  [int_col "a" [Some 1; None]%Z; int_col "b" [Some 5; Some 6]%Z].

(** Headers only. *)
Definition headers_only : DataFrame := [int_col "a" []; int_col "b" []].

(** Headers only, one name being the other with the suffix "_v2". *)
Definition headers_suffixed : DataFrame :=
  [int_col "a" []; int_col "a_v2" []].

(** Twenty rows; [wide_v2] differs from [wide_v1] in both cells of row 0. *)
Definition wide_v1 : DataFrame :=
  [int_col "b" (some_range 0 20); int_col "a" (some_range 0 20)].

Definition wide_v2 : DataFrame :=
  [int_col "b" (None :: some_range 1 19);
   int_col "a" (Some 7%Z :: some_range 1 19)].

(** A sheet whose header has both "a" and "a_v2". *)
Definition suffixed : DataFrame :=
  [int_col "a" [Some 1%Z]; int_col "a_v2" [Some 1%Z]].

(** The mask of [small_v1] against [small_v2]: one row of three. *)
Definition small_mask : BoolSeries := [Some false; Some false; Some true].

(** The mask of [wide_v1] against [wide_v2]: one row of twenty. *)
Definition wide_mask : BoolSeries := Some true :: replicate 19 (Some false).

(** The frame of differences of [wide_v1] against [wide_v2]. *)
Definition wide_diff_a : CellDifference :=
  mkCellDifference 0 "a" "Int64" (Some "0") (Some "7").

Definition wide_diff_b : CellDifference :=
  mkCellDifference 0 "b" "Int64" (Some "0") None.

Definition wide_diffs : list CellDifference := [wide_diff_a; wide_diff_b].

Definition wide_result : CompareResult :=
  mkCompareResult "Data mismatch" (19 # 20) (RowsDiffer 1) (20, 2) (20, 2).

(** What [compare] returns for [small_v1] against [small_v2]. *)
Definition small_result : CompareResult :=
  mkCompareResult "Data mismatch >10.0%" (2 # 3) (RowsDiffer 1) (3, 2) (3, 2).

(** Ten rows; in row 0 column "A" is null in V1 only, column "B" is the
    same on both sides. *)
Definition nulled_v1 : DataFrame :=
  [int_col "A" (None :: some_range 1 9); int_col "B" (some_range 0 10)].

Definition nulled_v2 : DataFrame :=
  [int_col "A" (some_range 0 10); int_col "B" (some_range 0 10)].

(** Three rows with a column named "Row Index"; the V2 side differs in
    the last row of "x". *)
Definition indexed_v1 : DataFrame :=
  [int_col "Row Index" (some_range 0 3); int_col "x" (some_range 0 3)].

Definition indexed_v2 : DataFrame :=
  [int_col "Row Index" (some_range 0 3);
   int_col "x" [Some 0; Some 1; Some 9]%Z].

(** The headers of the column example of the specification. *)
Definition id_val : DataFrame :=
  [int_col "id" [Some 1%Z]; int_col "val" [Some 2%Z]].

Definition id_value : DataFrame :=
  [int_col "id" [Some 1%Z]; int_col "value" [Some 2%Z]].

End samples.

(** ** Paths, table rows and the workbook of differences

    The rest of main.py: [ReportGenerator], [FileComparator] and
    [App.run].  Paths are POSIX paths.  What the program prints and writes
    is kept as the list of its effects, in order: a printed line is its
    text, a written file the data it is written from.  Strings are strings
    of bytes: their length and their order are those of Python's [str] on
    ASCII text.  The exceptions of the operating
    system (a folder that cannot be listed, a file that cannot be written)
    are not part of the model; those of [pl.read_excel] are, since
    [process_pair] catches them. *)

(** [a.endswith("/")]. *)
Fixpoint ends_with_sep (a : string) : bool :=
  match a with
  | "" => false
  | String c "" => Ascii.eqb c "/"%char
  | String _ a' => ends_with_sep a'
  end.

(** [b.startswith("/")]. *)
Definition starts_with_sep (b : string) : bool :=
  match b with
  | "" => false
  | String c _ => Ascii.eqb c "/"%char
  end.

(** [os.path.join(a, b)]. *)
Definition path_join (a b : string) : string :=
  if starts_with_sep b then b
  else if decide (a = "") then b
  else if ends_with_sep a then a +:+ b
  else a +:+ "/" +:+ b.

(** [os.path.basename(p)]: what follows the last "/". *)
Fixpoint basename_from (candidate p : string) : string :=
  match p with
  | "" => candidate
  | String c p' =>
      if Ascii.eqb c "/"%char then basename_from p' p'
      else basename_from candidate p'
  end.

Definition basename (p : string) : string := basename_from p p.

(** [" " * n] and the format [f"{s:<width}"]. *)
Fixpoint spaces (n : nat) : string :=
  match n with
  | 0 => ""
  | S n => String " "%char (spaces n)
  end.

Definition ljust (width : nat) (s : string) : string :=
  s +:+ spaces (width - String.length s).

(** The line that [_print_row] prints (line 201). *)
Definition row_text (name shape1 shape2 status details : string) : string :=
  ljust 30 name +:+ " | " +:+ ljust 15 shape1 +:+ " | " +:+
  ljust 15 shape2 +:+ " | " +:+ ljust 25 status +:+ " | " +:+ details.

(** A row of the frame written to differences.xlsx: a row of differences
    with its "Sheet Name". *)
Record SheetDifference := mkSheetDifference {
  sheet_name : string;
  difference : CellDifference
}.

Inductive Effect :=
  (* print(line) *)
  | Print (line : string)
  (* write_report_txt: the path, the file name and the results *)
  | WriteReport (path file_name : string)
                (results : list (string * CompareResult))
  (* the workbook written by xlsxwriter: the path and the named sheets *)
  | WriteWorkbook (path : string)
                  (sheets : list (string * list SheetDifference)).

(** The exceptions of Python that the statements below are about: of a
    list index out of range, of an absent key of a dict, and of an absent
    attribute. *)
Inductive Exception :=
  | IndexError
  | KeyError (k : string)
  | AttributeError.

(** A computation with effects: what it printed and wrote, and its value
    or the exception that ended it. *)
Record io (A : Type) := mkIO {
  effects : list Effect;
  outcome : Exception + A
}.
Arguments mkIO {A} effects outcome.
Arguments effects {A} _.
Arguments outcome {A} _.

#[global] Instance io_ret : MRet io := λ A a, mkIO [] (inr a).
#[global] Instance io_bind : MBind io := λ A B f m,
  match outcome m with
  | inl e => mkIO (effects m) (inl e)
  | inr a => mkIO (effects m ++ effects (f a)) (outcome (f a))
  end.

Definition emit (e : Effect) : io unit := mkIO [e] (inr ()).
Definition raise {A} (e : Exception) : io A := mkIO [] (inl e).

(** [for x in l: acc = body(acc, x)]. *)
Fixpoint io_fold {A B} (body : B → A → io B) (acc : B) (l : list A) : io B :=
  match l with
  | [] => mret acc
  | x :: l => acc' ← body acc x; io_fold body acc' l
  end.

(** [l[i]]. *)
Definition list_getitem {A} (l : list A) (i : nat) : io A :=
  match l !! i with
  | Some x => mret x
  | None => raise IndexError
  end.

(** [range(0, stop, step)] for a positive step. *)
Definition range_step (stop step : nat) : list nat :=
  (λ k, k * step) <$> seq 0 ((stop + step - 1) / step).

Module ReportGenerator.

Definition write_report_txt (output_dir file_name : string)
    (results : list (string * CompareResult)) : io unit :=
  emit (WriteReport (path_join output_dir "report.txt") file_name results).

(** The sheets of the loop at lines 52 to 55. *)
Definition workbook_sheets (diff_df : list SheetDifference)
  : list (string * list SheetDifference) :=
  let total_rows := length diff_df in
  (λ i, ("Diff_" +:+ pretty (i / Config.MAX_EXCEL_ROWS + 1),
         take Config.MAX_EXCEL_ROWS (drop i diff_df)))
    <$> range_step total_rows Config.MAX_EXCEL_ROWS.

Definition write_differences_xlsx (output_dir : string)
    (diff_df : list SheetDifference) : io unit :=
  if decide (diff_df = []) then mret ()
  else
    emit (WriteWorkbook (path_join output_dir "differences.xlsx")
                        (workbook_sheets diff_df)).

End ReportGenerator.

(** ** The file system and the workbooks

    What the program asks of its environment: [os.listdir],
    [os.path.isdir], [glob.glob] and [pl.read_excel(path,
    engine="calamine", sheet_id=None)].  With [sheet_id=None] and no
    [sheet_name], polars reads the first sheet of the workbook and returns
    it as one DataFrame (the dict of all sheets is what [sheet_id=0]
    returns), or raises.  The environment does not change during a run. *)

Inductive ReadResult `{P : Polars} :=
  | Frame (df : DataFrame)           (* the first sheet *)
  | ReadFailed (message : string).   (* str(e) of the exception *)

Class OS `{P : Polars} := {
  listdir : string → list string;
  isdir : string → bool;
  glob : string → list string;
  read_excel : string → ReadResult
}.

Section files.
Context `{P : Polars} `{!OS}.

Definition _print_row (name shape1 shape2 status details : string)
  : io unit :=
  emit (Print (row_text name shape1 shape2 status details)).

(** [process_pair].  [sheets1] and [sheets2] are DataFrames, so
    [sheets1.keys()] at line 175 raises AttributeError: a DataFrame has no
    attribute [keys].  The line is outside the [try] of lines 167 to 172,
    so the exception leaves [process_pair]; lines 176 to 198, with the
    calls of [compare] (to which [use_hash] belongs) and of the
    [ReportGenerator], are not reached. *)
Definition process_pair (use_hash : bool)
    (file1_path file2_path output_dir : string) : io unit :=
  let file_name1 := basename file1_path in
  let file_name2 := basename file2_path in
  if decide (file_name1 ≠ file_name2) then
    _print_row file_name1 "N/A" "N/A" "File name mismatch"
      ("V1: " +:+ file_name1 +:+ " != V2: " +:+ file_name2)
  else
    match read_excel file1_path with
    | ReadFailed e => _print_row file_name1 "ERROR" "ERROR" "Read Error" e
    | Frame sheets1 =>
        match read_excel file2_path with
        | ReadFailed e => _print_row file_name1 "ERROR" "ERROR" "Read Error" e
        | Frame sheets2 => raise AttributeError
        end
    end.

(** ["=" * 120] and the line feed. *)
Definition rule : string :=
  String.concat "" (replicate 120 "=").

Definition nl : string := String (ascii_of_nat 10) "".

(** [subdirs.sort()]. *)
Definition sort_paths : list string → list string := merge_sort String.le.

(** The body of the loop of [App.run] (lines 217 to 238). *)
Definition run_item (use_hash : bool) (folder_path item : string) : io unit :=
  let file_dir := path_join folder_path item in
  if negb (isdir file_dir) then mret ()
  else
    let subdirs :=
      path_join file_dir
        <$> filter (λ d, isdir (path_join file_dir d) = true)
                   (listdir file_dir) in
    if decide (length subdirs ≠ 2) then
      emit (Print (row_text item "N/A" "N/A" "Folder Error"
                     ("Expected 2 subfolders, found "
                      +:+ pretty (length subdirs))))
    else
      let subdirs := sort_paths subdirs in
      subdir0 ← list_getitem subdirs 0;
      let file1_list := glob (path_join subdir0 "*.xlsx") in
      subdir1 ← list_getitem subdirs 1;
      let file2_list := glob (path_join subdir1 "*.xlsx") in
      if decide (file1_list = [] ∨ file2_list = []) then
        emit (Print (row_text item "N/A" "N/A" "Missing File"
                       "Missing .xlsx in one or both subfolders."))
      else
        file1 ← list_getitem file1_list 0;
        file2 ← list_getitem file2_list 0;
        process_pair use_hash file1 file2 file_dir.

Definition run (use_hash : bool) (folder_path : string) : io unit :=
  _ ← emit (Print (nl +:+ rule));
  _ ← emit (Print (row_text "Target" "Shape V1" "Shape V2" "Status"
                            "Details"));
  _ ← emit (Print rule);
  _ ← io_fold (λ _ item, run_item use_hash folder_path item) ()
              (listdir folder_path);
  emit (Print (rule +:+ nl +:+ "Comparison Complete." +:+ nl)).

End files.

(** ** Two sample folders

    data holds, in the order of its listing: the file notes.txt; case2
    with one subfolder only; case3 with two subfolders, one of them
    without a workbook; case5 with two workbooks of different names; case1
    with the subfolders new and old, each with a readable book.xlsx; and
    case4, like case1.  archive holds a file and case6, whose two
    workbooks cannot be read. *)

Section sample_folder.
#[local] Existing Instance sample_polars.

Definition sample_listdir (path : string) : list string :=
  if decide (path = "data") then
    ["notes.txt"; "case2"; "case3"; "case5"; "case1"; "case4"]
  else if decide (path = "data/case1") then ["old"; "report.txt"; "new"]
  else if decide (path = "data/case2") then ["only"]
  else if decide (path = "data/case3") then ["b"; "a"]
  else if decide (path = "data/case4") then ["v1"; "v2"]
  else if decide (path = "data/case5") then ["left"; "right"]
  else if decide (path = "archive") then ["readme.txt"; "case6"]
  else if decide (path = "archive/case6") then ["v1"; "v2"]
  else [].

Definition sample_isdir (path : string) : bool :=
  bool_decide (path ∈ ["data"; "data/case1"; "data/case2"; "data/case3";
                        "data/case4"; "data/case5";
                        "data/case1/old"; "data/case1/new";
                        "data/case2/only"; "data/case3/a"; "data/case3/b";
                        "data/case4/v1"; "data/case4/v2";
                        "data/case5/left"; "data/case5/right";
                        "archive"; "archive/case6";
                        "archive/case6/v1"; "archive/case6/v2"]).

Definition sample_glob (pattern : string) : list string :=
  if decide (pattern = "data/case1/new/*.xlsx") then
    ["data/case1/new/book.xlsx"]
  else if decide (pattern = "data/case1/old/*.xlsx") then
    ["data/case1/old/book.xlsx"]
  else if decide (pattern = "data/case3/a/*.xlsx") then
    ["data/case3/a/book.xlsx"]
  else if decide (pattern = "data/case4/v1/*.xlsx") then
    ["data/case4/v1/book.xlsx"]
  else if decide (pattern = "data/case4/v2/*.xlsx") then
    ["data/case4/v2/book.xlsx"]
  else if decide (pattern = "data/case5/left/*.xlsx") then
    ["data/case5/left/q1.xlsx"]
  else if decide (pattern = "data/case5/right/*.xlsx") then
    ["data/case5/right/q2.xlsx"]
  else if decide (pattern = "archive/case6/v1/*.xlsx") then
    ["archive/case6/v1/book.xlsx"]
  else if decide (pattern = "archive/case6/v2/*.xlsx") then
    ["archive/case6/v2/book.xlsx"]
  else [].

Definition sample_read_excel (path : string) : ReadResult :=
  if decide (path = "data/case1/new/book.xlsx") then Frame small_v1
  else if decide (path = "data/case1/old/book.xlsx") then Frame small_v2
  else if decide (path = "data/case4/v1/book.xlsx") then Frame wide_v1
  else if decide (path = "data/case4/v2/book.xlsx") then Frame wide_v2
  else ReadFailed "File is not a zip file".

Definition sample_os : OS := {|
  listdir := sample_listdir;
  isdir := sample_isdir;
  glob := sample_glob;
  read_excel := sample_read_excel
|}.

End sample_folder.

(** ** Vocabulary of the further properties *)

(** The row of the frame of differences with "Value V1" and "Value V2"
    exchanged. *)
Definition swap_versions (d : CellDifference) : CellDifference :=
  mkCellDifference (row_index d) (column_name d) (column_type d)
                   (value_v2 d) (value_v1 d).

(** An effect that prints. *)
Definition is_print (e : Effect) : Prop :=
  match e with
  | Print _ => True
  | _ => False
  end.

(** A computation that ends neither with an IndexError nor with a
    KeyError. *)
Definition lookups_succeed {A} (m : io A) : Prop :=
  outcome m ≠ inl IndexError ∧ ∀ k, outcome m ≠ inl (KeyError k).

(** ** More samples *)

Section more_samples.
#[local] Existing Instance sample_polars.

(** [small_v1] with column "a" read as Float64. *)
Definition small_retyped : DataFrame :=
  [mkSeries "a" "Float64" [Some 1; None; Some 3]%Z;
   int_col "b" [Some 5; Some 6; None]%Z].

(** Twenty rows with a column named "Row Index"; the V2 side differs in
    row 0 of "x". *)
Definition indexed_wide_v1 : DataFrame :=
  [int_col "Row Index" (some_range 0 20); int_col "x" (some_range 0 20)].

Definition indexed_wide_v2 : DataFrame :=
  [int_col "Row Index" (some_range 0 20);
   int_col "x" (Some 7%Z :: some_range 1 19)].

(** The same with a column named "Column Name". *)
Definition named_wide_v1 : DataFrame :=
  [int_col "Column Name" (some_range 0 20); int_col "x" (some_range 0 20)].

Definition named_wide_v2 : DataFrame :=
  [int_col "Column Name" (some_range 0 20);
   int_col "x" (Some 7%Z :: some_range 1 19)].

End more_samples.

(** ** Sample frames with Float64 cells

    Doubles that are whole numbers, with the sign of zero: [!=] of polars
    equates 0.0 and -0.0, [cast(pl.Utf8)] renders them "0.0" and "-0.0".
    The hash of a row does not see the sign of a zero. *)

Inductive f64 := F64 (negative : bool) (magnitude : nat).

#[global] Instance f64_eq_dec : EqDecision f64.
Proof. solve_decision. Defined.


(** [cast(pl.Utf8)] on a double. *)
Definition f64_str (x : f64) : string :=
  match x with
  | F64 s m => (if s then "-" else "") +:+ pretty m +:+ ".0"
  end.

Definition f64_code (x : f64) : Z :=
  match x with
  | F64 s m =>
      if decide (m = 0) then 0%Z
      else (2 * Z.of_nat m + (if s then 1 else 0))%Z
  end.

Definition f64_hash (r : list (option f64)) : Z :=
  sample_hash (fmap (M:=option) f64_code <$> r).

Definition float_polars : Polars := {|
  value := f64;
  DataType := string;
  row_hash := f64_hash;
  cast_utf8 := f64_str;
  str_dtype := id
|}.

Section float_samples.
#[local] Existing Instance float_polars.








End float_samples.

(** * Properties *)

(** ** The error monad and Python arithmetic *)

Lemma bind_Ok {A B} (m : result A) (f : A → result B) (b : B) :
  m ≫= f = Ok b ↔ ∃ a, m = Ok a ∧ f a = Ok b.
Proof.
  destruct m as [a|e]; simpl; split.
  - eauto.
  - by intros (a' & [= <-] & ?).
  - done.
  - by intros (a' & ? & ?).
Qed.

Lemma bind_Raise {A B} (m : result A) (f : A → result B) (e : Exn) :
  m ≫= f = Raise e ↔ m = Raise e ∨ ∃ a, m = Ok a ∧ f a = Raise e.
Proof.
  destruct m as [a|e']; simpl; split.
  - eauto.
  - by intros [|(a' & [= <-] & ?)].
  - intros [= <-]. left. done.
  - intros [[= ->]|(a' & ? & ?)]; [reflexivity|discriminate].
Qed.

Lemma truediv_Ok (a b : Z) :
  b ≠ 0%Z → truediv a b = Ok (inject_Z a / inject_Z b)%Q.
Proof. intros Hb. unfold truediv. by rewrite decide_False. Qed.

Lemma Qgtb_lt (a b : Q) : Qgtb a b = true ↔ (b < a)%Q.
Proof.
  unfold Qgtb. rewrite negb_true_iff, <- not_true_iff_false, Qle_bool_iff.
  split; [apply Qnot_le_lt | apply Qlt_not_le].
Qed.

(** The quotient [(rows - count) / rows] is [1 - count / rows]. *)
Lemma rate_complement (count rows : nat) :
  rows ≠ 0 →
  (inject_Z (Z.of_nat rows - Z.of_nat count) / inject_Z (Z.of_nat rows)
   == 1 - inject_Z (Z.of_nat count) / inject_Z (Z.of_nat rows))%Q.
Proof.
  intros Hrows. unfold Z.sub. rewrite inject_Z_plus, inject_Z_opp.
  field. intros H0. apply Hrows.
  change 0%Q with (inject_Z 0) in H0.
  apply (proj1 (inject_Z_injective _ _)) in H0. lia.
Qed.

Lemma ratio_bounds (count rows : nat) :
  rows ≠ 0 → count ≤ rows →
  (0 <= inject_Z (Z.of_nat count) / inject_Z (Z.of_nat rows) <= 1)%Q.
Proof.
  intros Hrows Hle.
  assert (0 < inject_Z (Z.of_nat rows))%Q as Hpos.
  { change 0%Q with (inject_Z 0). rewrite <- Zlt_Qlt. lia. }
  split.
  - apply Qle_shift_div_l; [done|]. rewrite Qmult_0_l.
    change 0%Q with (inject_Z 0). rewrite <- Zle_Qle. lia.
  - apply Qle_shift_div_r; [done|]. rewrite Qmult_1_l.
    rewrite <- Zle_Qle. lia.
Qed.

Lemma ratio_pos (count rows : nat) :
  rows ≠ 0 → count ≠ 0 →
  (0 < inject_Z (Z.of_nat count) / inject_Z (Z.of_nat rows))%Q.
Proof.
  intros Hrows Hcount.
  apply Qlt_shift_div_l.
  - change 0%Q with (inject_Z 0). rewrite <- Zlt_Qlt. lia.
  - rewrite Qmult_0_l. change 0%Q with (inject_Z 0). rewrite <- Zlt_Qlt. lia.
Qed.

Section theory.
Context `{P : Polars}.
Implicit Types (df : DataFrame) (mask : BoolSeries).
Implicit Types (s : Series) (a b : option value).

(** ** The structural checks of [compare] *)

(** C7: frames of different shapes are a terminal "Shape mismatch" with
    match rate 0.0, no frame of differences and both shapes in the
    details, whatever the frames hold and whichever strategy is set. *)
Theorem compare_shape_mismatch (use_hash : bool) df1 df2 :
  shape df1 ≠ shape df2 →
  compare use_hash df1 df2 =
    Ok (mkCompareResult "Shape mismatch" 0
          (ShapeDetails (shape df1) (shape df2)) (shape df1) (shape df2),
        None).
Proof. intros Hshape. unfold compare. by rewrite decide_True. Qed.

Lemma symmetric_difference_same_set (cs1 cs2 : list string) :
  list_to_set cs1 =@{gset string} list_to_set cs2 →
  symmetric_difference cs1 cs2 = ∅.
Proof.
  unfold symmetric_difference. intros ->.
  apply set_eq. intros c.
  rewrite elem_of_union, elem_of_difference, elem_of_empty. tauto.
Qed.

(** C6: with equal shapes, column names that are the same set in another
    order are a terminal "Column names mismatch" with match rate 0.0 and no
    frame of differences: the test is the ordered equality of the two name
    lists; the details hold the symmetric difference of the two sets, which
    is then empty. *)
Theorem compare_reordered_columns (use_hash : bool) df1 df2 :
  shape df1 = shape df2 →
  list_to_set (columns df1) =@{gset string} list_to_set (columns df2) →
  columns df1 ≠ columns df2 →
  compare use_hash df1 df2 =
    Ok (mkCompareResult "Column names mismatch" 0
          (DiffCols (symmetric_difference (columns df1) (columns df2)))
          (shape df1) (shape df2),
        None)
  ∧ symmetric_difference (columns df1) (columns df2) = ∅.
Proof.
  intros Hshape Hset Hcols. split.
  - unfold compare. rewrite decide_False by (by intros []).
    by rewrite decide_True.
  - by apply symmetric_difference_same_set.
Qed.

(** C8: headers-only frames of one shape, with the same column names and
    dtypes, are a terminal "Perfect match" with match rate 1.0 and no frame
    of differences; [_compare_data] is not entered. *)
Theorem compare_headers_only (use_hash : bool) df1 df2 :
  shape df1 = shape df2 →
  columns df1 = columns df2 →
  dtypes df1 = dtypes df2 →
  height df1 = 0 →
  compare use_hash df1 df2 =
    Ok (mkCompareResult "Perfect match" 1 EmptyFiles (shape df1) (shape df2),
        None).
Proof.
  intros Hshape Hcols Htypes Hrows. unfold compare.
  rewrite !decide_False by (by intros []).
  by rewrite decide_True.
Qed.

(** When the four checks pass, [compare] is [_compare_data]. *)
Lemma compare_row_stage (use_hash : bool) df1 df2 :
  row_comparison_executes df1 df2 →
  compare use_hash df1 df2 =
    _compare_data use_hash df1 df2 (shape df1) (shape df2).
Proof.
  intros (Hshape & Hcols & Htypes & Hrows). unfold compare.
  do 3 rewrite decide_False by (by intros []).
  by rewrite decide_False.
Qed.

(** ** The threshold *)

(** C4: when row comparison runs and [mismatch_count / rows] is above
    0.10, [compare] returns the high-mismatch result with the computed
    match rate, which is below 1.0, and no frame of differences: the
    outcome is fixed before [_generate_differences_df] is reached. *)
Theorem compare_high_mismatch (use_hash : bool) df1 df2 mask :
  row_comparison_executes df1 df2 →
  mismatch_mask use_hash df1 df2 = Ok mask →
  (Config.MISMATCH_THRESHOLD <
     inject_Z (Z.of_nat (series_sum mask)) /
     inject_Z (Z.of_nat (height df1)))%Q →
  ∃ rate,
    compare use_hash df1 df2 =
      Ok (mkCompareResult "Data mismatch >10.0%" rate
            (RowsDiffer (series_sum mask)) (shape df1) (shape df2),
          None)
    ∧ rate = (inject_Z (Z.of_nat (height df1) - Z.of_nat (series_sum mask)) /
              inject_Z (Z.of_nat (height df1)))%Q
    ∧ (rate < 1)%Q.
Proof.
  intros Hrun Hmask Hratio.
  pose proof Hrun as (_ & _ & _ & Hrows).
  assert (series_sum mask ≠ 0) as Hcount.
  { intros H0. rewrite H0 in Hratio. revert Hratio.
    unfold Qdiv. rewrite Qmult_0_l. by vm_compute. }
  eexists. split; [|split; [reflexivity|]].
  - rewrite compare_row_stage by done. unfold _compare_data.
    rewrite Hmask. simpl.
    rewrite !truediv_Ok by lia. simpl.
    rewrite decide_False by done.
    apply Qgtb_lt in Hratio. by rewrite Hratio.
  - rewrite rate_complement by done.
    pose proof (ratio_pos (series_sum mask) (height df1) Hrows Hcount).
    lra.
Qed.

(** ** Boolean series *)

Lemma series_sum_le mask : series_sum mask ≤ length mask.
Proof. apply length_filter. Qed.

Lemma series_sum_0 mask :
  series_sum mask = 0 ↔ ∀ i, mask !! i ≠ Some (Some true).
Proof.
  unfold series_sum. rewrite length_zero_iff_nil. split.
  - intros Hnil i Hi.
    assert (Some true ∈ filter (λ m, is_true_cell m = true) mask) as Hin.
    { apply list_elem_of_filter. split; [done|].
      by apply list_elem_of_lookup_2 in Hi. }
    rewrite Hnil in Hin. by apply elem_of_nil in Hin.
  - induction mask as [|m mask IH]; intros Hall; [done|].
    rewrite filter_cons. destruct (decide (is_true_cell m = true)) as [Hm|_].
    + destruct m as [[|]|]; try done. by destruct (Hall 0).
    + apply IH. intros i. apply (Hall (S i)).
Qed.

Lemma cell_or_Some (x y : bool) : cell_or (Some x) (Some y) = Some (x || y).
Proof. by destruct x, y. Qed.

Lemma zip_with_cell_or (xs ys : list bool) :
  zip_with cell_or (Some <$> xs) (Some <$> ys) = Some <$> zip_with orb xs ys.
Proof.
  revert ys. induction xs as [|x xs IH]; intros [|y ys]; [done..|].
  csimpl. rewrite IH. by destruct x, y.
Qed.

Lemma foldl_zip_with_cell_or (rest : list (list bool)) (xs : list bool) :
  foldl (zip_with cell_or) (Some <$> xs) (fmap (M:=list) Some <$> rest)
  = Some <$> foldl (zip_with orb) xs rest.
Proof.
  revert xs. induction rest as [|ys rest IH]; intros xs; simpl; [done|].
  by rewrite zip_with_cell_or, IH.
Qed.

(** The fold of [any_horizontal] over null-free series of one length:
    row [i] holds the disjunction of the rows [i]. *)
Lemma foldl_zip_with_orb_lookup (h : nat) (rest : list (list bool))
    (xs : list bool) (i : nat) :
  Forall (λ bs, length bs = h) (xs :: rest) → i < h →
  ∃ x, foldl (zip_with orb) xs rest !! i = Some x
       ∧ (x = true ↔ ∃ bs, bs ∈ xs :: rest ∧ bs !! i = Some true).
Proof.
  intros Hlen Hi. revert xs Hlen.
  induction rest as [|ys rest IH]; intros xs Hlen; simpl.
  - apply Forall_cons in Hlen as [Hxs _].
    destruct (lookup_lt_is_Some_2 xs i) as [x Hx]; [lia|].
    exists x. split; [done|]. split.
    + intros ->. exists xs. split; [set_solver|done].
    + intros (bs & Hin & Hbs). apply list_elem_of_singleton in Hin as ->.
      congruence.
  - apply Forall_cons in Hlen as [Hxs Hlen].
    pose proof Hlen as [Hys Hrest]%Forall_cons.
    destruct (IH (zip_with orb xs ys)) as (x & Hx & Hiff).
    { apply Forall_cons. split; [|done].
      rewrite length_zip_with. lia. }
    exists x. split; [done|]. rewrite Hiff. clear Hiff Hx IH.
    destruct (lookup_lt_is_Some_2 xs i) as [bx Hbx]; [lia|].
    destruct (lookup_lt_is_Some_2 ys i) as [by_ Hby]; [lia|].
    assert (zip_with orb xs ys !! i = Some (bx || by_)) as Hz.
    { apply lookup_zip_with_Some. eauto. }
    split.
    + intros (bs & Hin & Hbs). apply elem_of_cons in Hin as [->|Hin].
      * rewrite Hz in Hbs. injection Hbs as Hor.
        apply orb_true_iff in Hor as [->| ->].
        -- exists xs. split; [set_solver|done].
        -- exists ys. split; [set_solver|done].
      * exists bs. split; [set_solver|done].
    + intros (bs & Hin & Hbs). apply elem_of_cons in Hin as [->|Hin].
      * exists (zip_with orb xs ys). split; [set_solver|].
        rewrite Hz. f_equal. rewrite Hbx in Hbs. by injection Hbs as ->.
      * apply elem_of_cons in Hin as [->|Hin].
        -- exists (zip_with orb xs ys). split; [set_solver|].
           rewrite Hz. f_equal. rewrite Hby in Hbs. injection Hbs as ->.
           apply orb_true_r.
        -- exists bs. split; [set_solver|done].
Qed.

Lemma foldl_zip_with_orb_length (h : nat) (rest : list (list bool))
    (xs : list bool) :
  Forall (λ bs, length bs = h) (xs :: rest) →
  length (foldl (zip_with orb) xs rest) = h.
Proof.
  revert xs. induction rest as [|ys rest IH]; intros xs Hlen; simpl.
  - by apply Forall_cons in Hlen as [Hxs _].
  - apply Forall_cons in Hlen as [Hxs [Hys Hrest]%Forall_cons].
    apply IH, Forall_cons. split; [|done]. rewrite length_zip_with. lia.
Qed.

Lemma result_mapM_Ok {A B} (f : A → result B) (l : list A) (ys : list B) :
  length l = length ys →
  (∀ i x y, l !! i = Some x → ys !! i = Some y → f x = Ok y) →
  result_mapM f l = Ok ys.
Proof.
  revert ys. induction l as [|x l IH]; intros [|y ys] Hlen Hf;
    simplify_eq/=; [done|].
  rewrite (Hf 0 x y) by done. simpl.
  rewrite (IH ys); [done|done|].
  intros i x' y' Hx' Hy'. by apply (Hf (S i)).
Qed.

Lemma result_mapM_inv {A B} (f : A → result B) (l : list A) (ys : list B) :
  result_mapM f l = Ok ys → Forall2 (λ x y, f x = Ok y) l ys.
Proof.
  revert ys. induction l as [|x l IH]; intros ys; simpl.
  - intros [= <-]. constructor.
  - intros (y & Hy & (ys' & Hys' & [= <-])%bind_Ok)%bind_Ok.
    constructor; auto.
Qed.

(** ** Columns by name *)

Lemma col_Ok df (c : string) s : col df c = Ok s → s ∈ df ∧ name s = c.
Proof.
  unfold col. destruct (list_find _ df) as [[i s']|] eqn:Hf; [|done].
  intros [= <-]. apply list_find_Some in Hf as (Hl & Hn & _).
  split; [by eapply list_elem_of_lookup_2|done].
Qed.

Lemma col_lookup df (j : nat) s :
  NoDup (columns df) → df !! j = Some s → col df (name s) = Ok s.
Proof.
  intros Hnd Hj. unfold col.
  assert (list_find (λ s', name s' = name s) df = Some (j, s)) as ->; [|done].
  apply list_find_Some. split; [done|]. split; [done|].
  intros j' s' Hj' Hlt Hname.
  assert (j' = j); [|lia].
  eapply NoDup_lookup; [exact Hnd|..]; unfold columns; rewrite list_lookup_fmap.
  - by rewrite Hj'.
  - rewrite Hj. simpl. by rewrite Hname.
Qed.

Lemma columns_app df1 df2 : columns (df1 ++ df2) = columns df1 ++ columns df2.
Proof. apply fmap_app. Qed.

Lemma columns_rename (f : string → string) df :
  columns (rename f df) = f <$> columns df.
Proof. unfold columns, rename. by rewrite <- !list_fmap_compose. Qed.

Lemma concat_horizontal_Ok df1 df2 (combined : DataFrame) :
  concat_horizontal df1 df2 = Ok combined ↔
  NoDup (columns df1 ++ columns df2) ∧ combined = df1 ++ df2.
Proof.
  unfold concat_horizontal. rewrite columns_app.
  case_decide; split; try done.
  - by intros [= <-].
  - by intros [_ ->].
  - by intros [? _].
Qed.

Lemma same_columns_lookup df1 df2 (j : nat) (s1 s2 : Series) :
  columns df1 = columns df2 →
  df1 !! j = Some s1 → df2 !! j = Some s2 → name s1 = name s2.
Proof.
  intros Hcols H1 H2.
  assert (columns df1 !! j = Some (name s1)) as Hn1.
  { unfold columns. by rewrite list_lookup_fmap, H1. }
  rewrite Hcols in Hn1. unfold columns in Hn1.
  rewrite list_lookup_fmap, H2 in Hn1. by injection Hn1.
Qed.

(** ** The field-wise mask *)

(** The expression [is_diff] on one cell of V1 and one cell of V2. *)
Lemma is_diff_cell a b :
  cell_or (cell_or (cell_and (cell_is_null a) (cell_is_not_null b))
                   (cell_and (cell_is_not_null a) (cell_is_null b)))
          (cell_fill_null (cell_ne a b) false)
  = Some (bool_decide (fieldwise_mismatch a b)).
Proof.
  destruct a as [x|], b as [y|]; simpl; [|done..].
  destruct (decide (x = y)) as [->|Hne].
  - rewrite !bool_decide_eq_false_2; [done|..].
    + intros [[? _]|[[_ ?]|(x' & y' & [= <-] & [= <-] & ?)]]; done.
    + by intros Hn.
  - rewrite !bool_decide_eq_true_2; [done|..].
    + right. right. eauto.
    + done.
Qed.

Lemma eval_is_diff df (c : string) (s s' : Series) :
  col df c = Ok s → col df (v2 c) = Ok s' →
  eval df (is_diff c) =
    Ok (Some <$> zip_with (λ a b, bool_decide (fieldwise_mismatch a b))
                          (values s) (values s')).
Proof.
  intros Hc Hc'. simpl. rewrite Hc, Hc'. simpl. f_equal.
  generalize (values s) (values s'). clear.
  induction l as [|a l IH]; intros [|b k]; [done..|].
  csimpl. f_equal; [apply is_diff_cell | apply IH].
Qed.

Lemma wf_length df s : wf_df df → s ∈ df → length (values s) = height df.
Proof. intros [_ Hlen] Hs. by eapply Forall_forall in Hlen. Qed.

Lemma same_shape df1 df2 :
  shape df1 = shape df2 → height df1 = height df2 ∧ length df1 = length df2.
Proof. by intros [= ? ?]. Qed.

Lemma column_mismatches_length df1 df2 :
  wf_df df1 → wf_df df2 → shape df1 = shape df2 →
  Forall (λ bs, length bs = height df1) (column_mismatches df1 df2).
Proof.
  intros Hwf1 Hwf2 [Hh _]%same_shape.
  apply Forall_fmap, Forall_forall. intros [s1 s2] Hin. simpl.
  rewrite length_zip_with.
  rewrite (wf_length df1 s1), (wf_length df2 s2); [lia|done|..|done|].
  - by eapply elem_of_zip_r.
  - by eapply elem_of_zip_l.
Qed.

Lemma column_mismatches_row df1 df2 (i : nat) :
  (∃ bs, bs ∈ column_mismatches df1 df2 ∧ bs !! i = Some true)
  ↔ row_mismatched df1 df2 i.
Proof.
  unfold column_mismatches, row_mismatched, cell. split.
  - intros (bs & ([s1 s2] & -> & Hin)%list_elem_of_fmap & Hbs).
    apply list_elem_of_lookup_1 in Hin as [j Hj].
    apply lookup_zip_with_Some in Hj as (s1' & s2' & [= <- <-] & Hj1 & Hj2).
    apply lookup_zip_with_Some in Hbs as (a & b & Hab & Ha & Hb).
    exists j, a, b. rewrite Hj1, Hj2. simpl. split_and!; [done..|].
    symmetry in Hab. by apply bool_decide_eq_true in Hab.
  - intros (j & a & b & Ha & Hb & Hab).
    apply bind_Some in Ha as (s1 & Hj1 & Ha).
    apply bind_Some in Hb as (s2 & Hj2 & Hb).
    eexists. split.
    + apply list_elem_of_fmap. exists (s1, s2). split; [reflexivity|].
      apply list_elem_of_lookup_2 with j. apply lookup_zip_with_Some. eauto.
    + simpl. apply lookup_zip_with_Some. exists a, b. split_and!; [|done..].
      by rewrite bool_decide_eq_true_2.
Qed.

(** In the combined frame, [is_diff] finds column [j] of V1 under its
    name and column [j] of V2 under the suffixed name, and evaluates to the
    indicator of that column. *)
Lemma eval_is_diff_combined df1 df2 (j : nat) (s1 s2 : Series) :
  shape df1 = shape df2 → columns df1 = columns df2 →
  no_name_collision df1 df2 →
  df1 !! j = Some s1 → df2 !! j = Some s2 →
  eval (df1 ++ rename v2 df2) (is_diff (name s1)) =
    Ok (Some <$> zip_with (λ a b, bool_decide (fieldwise_mismatch a b))
                          (values s1) (values s2)).
Proof.
  intros [_ Hw]%same_shape Hcols Hnd H1 H2. unfold no_name_collision in Hnd.
  assert (NoDup (columns (df1 ++ rename v2 df2))) as Hnd'.
  { by rewrite columns_app, columns_rename. }
  apply (eval_is_diff _ _ s1 (mkSeries (v2 (name s2)) (dtype s2) (values s2))).
  - apply (col_lookup _ j); [done|]. by apply lookup_app_l_Some.
  - rewrite (same_columns_lookup df1 df2 j s1 s2) by done.
    apply (col_lookup _ (length df1 + j)
             (mkSeries (v2 (name s2)) (dtype s2) (values s2))); [done|].
    rewrite lookup_app_r by lia.
    replace (length df1 + j - length df1) with j by lia.
    unfold rename. by rewrite list_lookup_fmap, H2.
Qed.

Lemma fieldwise_exprs df1 df2 :
  shape df1 = shape df2 → columns df1 = columns df2 →
  no_name_collision df1 df2 →
  result_mapM (eval (df1 ++ rename v2 df2)) (is_diff <$> columns df1)
  = Ok (fmap (M:=list) Some <$> column_mismatches df1 df2).
Proof.
  intros Hshape Hcols Hnd. pose proof Hshape as [_ Hw]%same_shape.
  apply result_mapM_Ok.
  { unfold column_mismatches, columns. rewrite !length_fmap, length_zip. lia. }
  intros i e ys He Hys.
  unfold columns in He. rewrite !list_lookup_fmap in He.
  destruct (df1 !! i) as [s1|] eqn:H1; [|done]. injection He as <-.
  unfold column_mismatches in Hys. rewrite !list_lookup_fmap in Hys.
  destruct (zip df1 df2 !! i) as [[s1' s2]|] eqn:Hz; [|done].
  injection Hys as <-.
  apply lookup_zip_with_Some in Hz as (? & ? & [= <- <-] & H1' & H2).
  rewrite H1 in H1'. injection H1' as <-. simpl.
  by apply (eval_is_diff_combined df1 df2 i).
Qed.

(** The field-wise strategy returns a mask exactly when polars accepts
    the concatenation and there is a column to compare. *)
Lemma mismatch_mask_fieldwise_inv df1 df2 mask :
  mismatch_mask false df1 df2 = Ok mask →
  no_name_collision df1 df2 ∧ df1 ≠ [].
Proof.
  unfold mismatch_mask, select_any_horizontal.
  intros (combined & [Hnd _]%concat_horizontal_Ok
          & (ss & Hss%result_mapM_inv & Hany)%bind_Ok)%bind_Ok.
  split.
  - unfold no_name_collision. by rewrite columns_rename in Hnd.
  - intros ->. inversion Hss; subst. done.
Qed.

Lemma mismatch_mask_fieldwise df1 df2 :
  shape df1 = shape df2 → columns df1 = columns df2 →
  no_name_collision df1 df2 →
  mismatch_mask false df1 df2 =
    any_horizontal (fmap (M:=list) Some <$> column_mismatches df1 df2).
Proof.
  intros Hshape Hcols Hnd. unfold mismatch_mask, select_any_horizontal.
  assert (concat_horizontal df1 (rename v2 df2) = Ok (df1 ++ rename v2 df2))
    as ->.
  { apply concat_horizontal_Ok. by rewrite columns_rename. }
  simpl. by rewrite fieldwise_exprs.
Qed.

(** The field-wise mask, row by row. *)
Lemma fieldwise_mask_spec df1 df2 :
  wf_df df1 → wf_df df2 →
  shape df1 = shape df2 → columns df1 = columns df2 →
  no_name_collision df1 df2 → df1 ≠ [] →
  ∃ mask,
    mismatch_mask false df1 df2 = Ok mask
    ∧ length mask = height df1
    ∧ ∀ i, i < height df1 →
        ∃ x, mask !! i = Some (Some x)
             ∧ (x = true ↔ row_mismatched df1 df2 i).
Proof.
  intros Hwf1 Hwf2 Hshape Hcols Hnd Hne.
  rewrite mismatch_mask_fieldwise by done.
  pose proof (column_mismatches_length df1 df2 Hwf1 Hwf2 Hshape) as Hlen.
  pose proof (column_mismatches_row df1 df2) as Hrow.
  destruct (column_mismatches df1 df2) as [|xs rest] eqn:Hcm.
  { exfalso. apply Hne. apply same_shape in Hshape as [_ Hw].
    apply (f_equal length) in Hcm. unfold column_mismatches in Hcm.
    rewrite length_fmap, length_zip in Hcm. simpl in Hcm.
    apply length_zero_iff_nil. lia. }
  simpl. rewrite foldl_zip_with_cell_or. eexists. split; [done|]. split.
  - rewrite length_fmap. by apply foldl_zip_with_orb_length.
  - intros i Hi.
    destruct (foldl_zip_with_orb_lookup _ rest xs i Hlen Hi) as (x & Hx & Hiff).
    exists x. rewrite list_lookup_fmap, Hx. split; [done|].
    by rewrite Hiff, Hrow.
Qed.

(** ** The hash mask *)

Lemma hash_rows_length df : length (hash_rows df) = height df.
Proof. unfold hash_rows. by rewrite length_fmap, length_seq. Qed.

Lemma hash_rows_lookup df (i : nat) :
  i < height df → hash_rows df !! i = Some (row_hash (row df i)).
Proof.
  intros Hi. unfold hash_rows. rewrite list_lookup_fmap.
  by rewrite lookup_seq_lt.
Qed.

Lemma hash_mask_lookup df1 df2 (i : nat) :
  shape df1 = shape df2 → i < height df1 →
  series_ne (hash_rows df1) (hash_rows df2) !! i
  = Some (Some (bool_decide (row_hash (row df1 i) ≠ row_hash (row df2 i)))).
Proof.
  intros [Hh _]%same_shape Hi. unfold series_ne.
  apply lookup_zip_with_Some. do 2 eexists. split; [done|].
  split; apply hash_rows_lookup; lia.
Qed.

Lemma fieldwise_mismatch_ne a b : fieldwise_mismatch a b ↔ a ≠ b.
Proof.
  unfold fieldwise_mismatch. destruct a as [x|], b as [y|]; split.
  - intros [[? _]|[[_ ?]|(x' & y' & [= <-] & [= <-] & ?)]]; congruence.
  - intros Hne. right. right. exists x, y. split_and!; congruence.
  - intros _. done.
  - intros _. right. left. done.
  - intros _. done.
  - intros _. left. done.
  - intros [[_ ?]|[[? _]|(x' & y' & ? & _)]]; done.
  - done.
Qed.

Lemma list_differ {A} `{!EqDecision A} (l k : list A) :
  length l = length k → l ≠ k →
  ∃ j x y, l !! j = Some x ∧ k !! j = Some y ∧ x ≠ y.
Proof.
  revert k. induction l as [|x l IH]; intros [|y k] Hlen Hne;
    simplify_eq/=.
  destruct (decide (x = y)) as [->|Hxy].
  - destruct (IH k) as (j & x' & y' & ? & ? & ?); [done|congruence|].
    by exists (S j), x', y'.
  - by exists 0, x, y.
Qed.

(** In row [i] of a well-formed frame, column [j] shows its cell. *)
Lemma row_lookup df (i j : nat) s :
  wf_df df → i < height df → df !! j = Some s →
  ∃ a, values s !! i = Some a ∧ row df i !! j = Some a.
Proof.
  intros Hwf Hi Hj.
  destruct (lookup_lt_is_Some_2 (values s) i) as [a Ha].
  { rewrite (wf_length df s); [done..|]. by eapply list_elem_of_lookup_2. }
  exists a. split; [done|]. unfold row.
  by rewrite list_lookup_fmap, Hj; simpl; rewrite Ha.
Qed.

(** Two rows with different contents have a mismatched cell. *)
Lemma row_ne_mismatched df1 df2 (i : nat) :
  wf_df df1 → wf_df df2 → shape df1 = shape df2 → i < height df1 →
  row df1 i ≠ row df2 i → row_mismatched df1 df2 i.
Proof.
  intros Hwf1 Hwf2 Hshape Hi Hne.
  pose proof Hshape as [Hh Hw]%same_shape.
  apply list_differ in Hne as (j & x & y & Hx & Hy & Hxy).
  2:{ unfold row. by rewrite !length_fmap. }
  destruct (df1 !! j) as [s1|] eqn:H1.
  2:{ unfold row in Hx. by rewrite list_lookup_fmap, H1 in Hx. }
  destruct (df2 !! j) as [s2|] eqn:H2.
  2:{ unfold row in Hy. by rewrite list_lookup_fmap, H2 in Hy. }
  destruct (row_lookup df1 i j s1) as (a & Ha & Hra); [done..|].
  destruct (row_lookup df2 i j s2) as (b & Hb & Hrb); [done|lia|done|].
  exists j, a, b. unfold cell. rewrite H1, H2. simpl. split_and!; [done..|].
  apply fieldwise_mismatch_ne. congruence.
Qed.

(** Two rows without a mismatched cell have the same contents. *)
Lemma row_eq_of_no_mismatch df1 df2 (i : nat) :
  wf_df df1 → wf_df df2 → shape df1 = shape df2 → i < height df1 →
  ¬ row_mismatched df1 df2 i → row df1 i = row df2 i.
Proof.
  intros Hwf1 Hwf2 Hshape Hi Hno.
  destruct (decide (row df1 i = row df2 i)) as [|Hne]; [done|].
  destruct Hno. by apply row_ne_mismatched.
Qed.

(** ** The mask of either strategy *)

Lemma mismatch_mask_length (use_hash : bool) df1 df2 mask :
  wf_df df1 → wf_df df2 →
  shape df1 = shape df2 → columns df1 = columns df2 →
  mismatch_mask use_hash df1 df2 = Ok mask →
  length mask = height df1.
Proof.
  intros Hwf1 Hwf2 Hshape Hcols Hmask. destruct use_hash.
  - injection Hmask as <-. unfold series_ne.
    rewrite length_zip_with, !hash_rows_length.
    apply same_shape in Hshape as [-> _]. lia.
  - pose proof (mismatch_mask_fieldwise_inv _ _ _ Hmask) as [Hnd Hne].
    destruct (fieldwise_mask_spec df1 df2) as (mask' & Hmask' & Hlen & _);
      [done..|].
    congruence.
Qed.

(** A row that the mask flags has a mismatched cell. *)
Lemma mismatch_mask_sound (use_hash : bool) df1 df2 mask (i : nat) :
  wf_df df1 → wf_df df2 →
  shape df1 = shape df2 → columns df1 = columns df2 →
  mismatch_mask use_hash df1 df2 = Ok mask →
  mask !! i = Some (Some true) →
  row_mismatched df1 df2 i.
Proof.
  intros Hwf1 Hwf2 Hshape Hcols Hmask Hi.
  assert (i < height df1) as Hlt.
  { rewrite <- (mismatch_mask_length use_hash df1 df2 mask) by done.
    by eapply lookup_lt_Some. }
  destruct use_hash.
  - injection Hmask as <-. rewrite hash_mask_lookup in Hi by done.
    injection Hi as Hi. apply bool_decide_eq_true in Hi.
    apply row_ne_mismatched; [done..|]. congruence.
  - pose proof (mismatch_mask_fieldwise_inv _ _ _ Hmask) as [Hnd Hne].
    destruct (fieldwise_mask_spec df1 df2) as (mask' & Hmask' & _ & Hrows);
      [done..|].
    assert (mask' = mask) as -> by congruence.
    destruct (Hrows i Hlt) as (x & Hx & Hiff).
    apply Hiff. congruence.
Qed.

(** Without a mismatched cell no row is flagged. *)
Lemma mismatch_mask_no_differences (use_hash : bool) df1 df2 mask :
  wf_df df1 → wf_df df2 →
  shape df1 = shape df2 → columns df1 = columns df2 →
  no_cell_differences df1 df2 →
  mismatch_mask use_hash df1 df2 = Ok mask →
  series_sum mask = 0.
Proof.
  intros Hwf1 Hwf2 Hshape Hcols Hno Hmask.
  apply series_sum_0. intros i Hi.
  apply (Hno i). by eapply mismatch_mask_sound.
Qed.

(** ** The outcomes of [_compare_data] *)

Lemma truediv_inv (x y : Z) (q : Q) :
  truediv x y = Ok q → y ≠ 0%Z ∧ q = (inject_Z x / inject_Z y)%Q.
Proof. unfold truediv. case_decide; [done|]. by intros [= <-]. Qed.

(** The three ways out of [_compare_data]: PERFECT_MATCH, HIGH_MISMATCH
    and DIFF_GENERATED of section 4.4. *)
Lemma _compare_data_inv (use_hash : bool) df1 df2 (sh1 sh2 : Shape)
    (r : CompareResult) (d : option (list CellDifference)) :
  _compare_data use_hash df1 df2 sh1 sh2 = Ok (r, d) →
  ∃ mask,
    mismatch_mask use_hash df1 df2 = Ok mask ∧ height df1 ≠ 0 ∧
    let count := series_sum mask in
    let ratio :=
      (inject_Z (Z.of_nat count) / inject_Z (Z.of_nat (height df1)))%Q in
    let rate :=
      (inject_Z (Z.of_nat (height df1) - Z.of_nat count) /
       inject_Z (Z.of_nat (height df1)))%Q in
    (count = 0 ∧ d = None
     ∧ r = mkCompareResult "Perfect match" 1 NoDetails sh1 sh2)
    ∨ (count ≠ 0 ∧ (Config.MISMATCH_THRESHOLD < ratio)%Q ∧ d = None
       ∧ r = mkCompareResult "Data mismatch >10.0%" rate
               (RowsDiffer count) sh1 sh2)
    ∨ (count ≠ 0 ∧ (ratio <= Config.MISMATCH_THRESHOLD)%Q
       ∧ ∃ diffs,
           _generate_differences_df df1 df2 mask = Ok diffs
           ∧ d = Some diffs
           ∧ r = mkCompareResult "Data mismatch" rate
                   (RowsDiffer count) sh1 sh2).
Proof.
  unfold _compare_data.
  intros (mask & Hmask & (rate & [Hh ->]%truediv_inv & Hrest)%bind_Ok)%bind_Ok.
  exists mask. split; [done|]. split; [lia|]. simpl.
  case_decide as Hcount.
  { left. by injection Hrest as <- <-. }
  right. apply bind_Ok in Hrest as (ratio & [_ ->]%truediv_inv & Hrest).
  destruct (Qgtb _ _) eqn:Hgt.
  - left. apply Qgtb_lt in Hgt. by injection Hrest as <- <-.
  - right. apply bind_Ok in Hrest as (diffs & Hdiffs & [= <- <-]).
    split; [done|]. split; [|by exists diffs].
    apply Qnot_lt_le. intros Hlt%Qgtb_lt. congruence.
Qed.

(** The outcomes of [compare]: one of the four terminal checks, or
    [_compare_data]. *)
Lemma compare_inv (use_hash : bool) df1 df2 :
  (shape df1 ≠ shape df2 ∧
     compare use_hash df1 df2 =
       Ok (mkCompareResult "Shape mismatch" 0
             (ShapeDetails (shape df1) (shape df2)) (shape df1) (shape df2),
           None))
  ∨ (columns df1 ≠ columns df2 ∧
     compare use_hash df1 df2 =
       Ok (mkCompareResult "Column names mismatch" 0
             (DiffCols (symmetric_difference (columns df1) (columns df2)))
             (shape df1) (shape df2),
           None))
  ∨ (dtypes df1 ≠ dtypes df2 ∧
     compare use_hash df1 df2 =
       Ok (mkCompareResult "Column type mismatch" 0
             (TypeDiffs (type_diff df1 df2)) (shape df1) (shape df2),
           None))
  ∨ (height df1 = 0 ∧
     compare use_hash df1 df2 =
       Ok (mkCompareResult "Perfect match" 1 EmptyFiles
             (shape df1) (shape df2),
           None))
  ∨ (row_comparison_executes df1 df2 ∧
     compare use_hash df1 df2 =
       _compare_data use_hash df1 df2 (shape df1) (shape df2)).
Proof.
  unfold compare, row_comparison_executes.
  destruct (decide (shape df1 ≠ shape df2)) as [|Hshape%dec_stable];
    [by left|right].
  destruct (decide (columns df1 ≠ columns df2)) as [|Hcols%dec_stable];
    [by left|right].
  destruct (decide (dtypes df1 ≠ dtypes df2)) as [|Htypes%dec_stable];
    [by left|right].
  destruct (decide ((shape df1).1 = 0)) as [|Hrows]; [by left|by right].
Qed.

(** The column check is the ordered comparison of the two name lists:
    among frames of one shape, the result is "Column names mismatch"
    exactly when the lists differ. *)
Lemma compare_column_names_mismatch_iff (use_hash : bool) df1 df2
    (r : CompareResult) (d : option (list CellDifference)) :
  compare use_hash df1 df2 = Ok (r, d) →
  status r = "Column names mismatch"
  ↔ shape df1 = shape df2 ∧ columns df1 ≠ columns df2.
Proof.
  intros Hcmp.
  destruct (compare_inv use_hash df1 df2)
    as [[Hs H]|[[Hc H]|[[Ht H]|[[Hh H]|[Hrun H]]]]];
    rewrite H in Hcmp.
  - injection Hcmp as <- <-. simpl. split; [done|]. by intros [? _].
  - injection Hcmp as <- <-. simpl. split; [|done]. intros _.
    split; [|done].
    destruct (decide (shape df1 = shape df2)) as [|Hne]; [done|].
    exfalso. revert H. unfold compare. by rewrite decide_True.
  - injection Hcmp as <- <-. simpl. split; [done|]. intros [Hshape Hcols].
    exfalso. revert H. unfold compare.
    rewrite decide_False by (by intros []). by rewrite decide_True.
  - injection Hcmp as <- <-. simpl. split; [done|]. intros [Hshape Hcols].
    exfalso. revert H. unfold compare.
    rewrite decide_False by (by intros []). by rewrite decide_True.
  - destruct Hrun as (_ & Hcols & _).
    apply _compare_data_inv in Hcmp as (mask & _ & _ & Hcases).
    simpl in Hcases.
    destruct Hcases
      as [(_ & _ & ->)|[(_ & _ & _ & ->)|(_ & _ & diffs & _ & _ & ->)]];
      simpl; (split; [done|by intros [_ ?]]).
Qed.

(** ** The match rate *)

(** ** Doubles

    What the rounding of [SpecFloat] does on the quotient of two ints from
    1 to 2^53 - 1: the two are doubles with a mantissa of 53 bits, the
    quotient of the mantissas has 53 or 54 bits and is rounded to 53. *)

Section float64.
#[local] Open Scope Z_scope.

Lemma digits2_pos_bounds (p : positive) :
  2 ^ (Z.pos (digits2_pos p) - 1) ≤ Z.pos p < 2 ^ Z.pos (digits2_pos p).
Proof.
  induction p as [p IH|p IH|]; simpl digits2_pos.
  - rewrite Pos2Z.inj_succ.
    replace (Z.succ (Z.pos (digits2_pos p)) - 1)
      with (Z.succ (Z.pos (digits2_pos p) - 1)) by lia.
    rewrite !Z.pow_succ_r by lia. lia.
  - rewrite Pos2Z.inj_succ.
    replace (Z.succ (Z.pos (digits2_pos p)) - 1)
      with (Z.succ (Z.pos (digits2_pos p) - 1)) by lia.
    rewrite !Z.pow_succ_r by lia. lia.
  - simpl. lia.
Qed.

Lemma digits2_pos_unique (p : positive) (d : Z) :
  2 ^ (d - 1) ≤ Z.pos p < 2 ^ d → Z.pos (digits2_pos p) = d.
Proof.
  intros [Hlo Hhi]. pose proof (digits2_pos_bounds p) as [Hlo' Hhi'].
  destruct (Z.lt_trichotomy (Z.pos (digits2_pos p)) d) as [Hlt|[Heq|Hgt]];
    [exfalso|done|exfalso].
  - assert (2 ^ Z.pos (digits2_pos p) ≤ 2 ^ (d - 1))
      by (apply Z.pow_le_mono_r; lia).
    lia.
  - assert (0 ≤ d).
    { destruct (Z.le_gt_cases 0 d) as [|Hneg]; [done|].
      rewrite (Z.pow_neg_r 2 d) in Hhi by done. lia. }
    assert (2 ^ d ≤ 2 ^ (Z.pos (digits2_pos p) - 1))
      by (apply Z.pow_le_mono_r; lia).
    lia.
Qed.

Lemma fexp_normal (e : Z) : -1021 ≤ e → fexp 53 1024 e = e - 53.
Proof. intros He. unfold fexp, emin. lia. Qed.

Lemma Zdigits2_unique (m d : Z) :
  0 < m → 2 ^ (d - 1) ≤ m < 2 ^ d → Zdigits2 m = d.
Proof.
  intros Hm Hd. destruct m as [|p|p]; [lia| |lia].
  by apply digits2_pos_unique.
Qed.

Lemma shr_fexp_53 (m e : Z) (l : location) :
  2 ^ 52 ≤ m < 2 ^ 53 → -1074 ≤ e →
  shr_fexp 53 1024 m e l = (shr_record_of_loc m l, e).
Proof.
  intros Hm He. unfold shr_fexp.
  rewrite (Zdigits2_unique m 53) by lia.
  rewrite fexp_normal by lia.
  by replace (53 + e - 53 - e) with 0 by lia.
Qed.

Lemma shr_fexp_54 (m e : Z) (l : location) :
  2 ^ 53 ≤ m < 2 ^ 54 → -1075 ≤ e →
  shr_fexp 53 1024 m e l = (shr_1 (shr_record_of_loc m l), e + 1).
Proof.
  intros Hm He. unfold shr_fexp.
  rewrite (Zdigits2_unique m 54) by lia.
  rewrite fexp_normal by lia.
  by replace (54 + e - 53 - e) with 1 by lia.
Qed.

Lemma loc_of_shr_record_of_loc (m : Z) (l : location) :
  loc_of_shr_record (shr_record_of_loc m l) = l.
Proof. by destruct l as [|[]]. Qed.

Lemma shr_m_of_loc (m : Z) (l : location) :
  shr_m (shr_record_of_loc m l) = m.
Proof. by destruct l as [|[]]. Qed.

Lemma round_nearest_even_range (m : Z) (l : location) :
  m ≤ round_nearest_even m l ≤ m + 1.
Proof. destruct l as [|[]]; simpl; [lia| |lia..]. destruct (Z.even m); lia. Qed.

Lemma shr_m_shr_1 (m : Z) (l : location) :
  0 < m → 2 * shr_m (shr_1 (shr_record_of_loc m l)) ≤ m
          < 2 * shr_m (shr_1 (shr_record_of_loc m l)) + 2.
Proof.
  intros Hm. destruct m as [|p|p]; [lia| |lia].
  destruct l as [|[]], p as [p|p|]; simpl; lia.
Qed.

(** The last two steps of [binary_round_aux]: a mantissa of 53 bits is
    kept, [2 ^ 53] is renormalised. *)
Lemma binary_round_aux_finish (s : bool) (r e : Z) :
  2 ^ 52 ≤ r ≤ 2 ^ 53 → -1074 ≤ e ≤ 970 →
  ∃ (m : positive) (e2 : Z),
    (let '(mrs, e2) := shr_fexp 53 1024 r e loc_Exact in
     match shr_m mrs with
     | 0 => S754_zero s
     | Z.pos m => if e2 <=? 1024 - 53 then S754_finite s m e2
                  else S754_infinity s
     | Z.neg _ => S754_nan
     end) = S754_finite s m e2
    ∧ ((r < 2 ^ 53 ∧ Z.pos m = r ∧ e2 = e)
       ∨ (r = 2 ^ 53 ∧ Z.pos m = 2 ^ 52 ∧ e2 = e + 1)).
Proof.
  intros Hr He. destruct (decide (r = 2 ^ 53)) as [->|Hne].
  - rewrite shr_fexp_54 by lia. simpl shr_m.
    exists 4503599627370496%positive, (e + 1).
    rewrite (proj2 (Z.leb_le _ _)) by lia. split; [done|]. right. done.
  - rewrite shr_fexp_53 by lia. simpl shr_m.
    destruct r as [|p|p]; [lia| |lia].
    exists p, e. rewrite (proj2 (Z.leb_le _ _)) by lia. split; [done|].
    left. lia.
Qed.

Lemma binary_round_aux_range (s : bool) (q e : Z) (l : location) :
  2 ^ 52 ≤ q < 2 ^ 54 → -1074 ≤ e ≤ 969 →
  ∃ (m : positive) (e2 : Z),
    binary_round_aux 53 1024 s q e l = S754_finite s m e2
    ∧ 2 ^ 52 ≤ Z.pos m < 2 ^ 53
    ∧ e2 ≤ e + 2
    ∧ (e2 = e + 2 → Z.pos m = 2 ^ 52)
    ∧ (q < 2 ^ 53 → e2 ≤ e + 1 ∧ (e2 = e + 1 → Z.pos m = 2 ^ 52))
    ∧ (q = 2 ^ 53 → l = loc_Exact → e2 = e + 1 ∧ Z.pos m = 2 ^ 52).
Proof.
  intros Hq He. unfold binary_round_aux.
  destruct (decide (q < 2 ^ 53)) as [Hlt|Hge].
  - rewrite shr_fexp_53 by lia.
    rewrite shr_m_of_loc, loc_of_shr_record_of_loc.
    pose proof (round_nearest_even_range q l) as Hr.
    destruct (binary_round_aux_finish s (round_nearest_even q l) e)
      as (m & e2 & -> & Hcases); [lia..|].
    exists m, e2. split; [done|]. lia.
  - rewrite shr_fexp_54 by lia.
    pose proof (shr_m_shr_1 q l ltac:(lia)) as Hhalf.
    pose proof (round_nearest_even_range
                  (shr_m (shr_1 (shr_record_of_loc q l)))
                  (loc_of_shr_record (shr_1 (shr_record_of_loc q l)))) as Hr.
    destruct (binary_round_aux_finish s
                (round_nearest_even
                   (shr_m (shr_1 (shr_record_of_loc q l)))
                   (loc_of_shr_record (shr_1 (shr_record_of_loc q l))))
                (e + 1))
      as (m & e2 & -> & Hcases); [lia..|].
    exists m, e2. split; [done|]. split_and!; [lia..| |].
    + lia.
    + intros -> ->. simpl in Hcases. lia.
Qed.

Lemma iter_xO (p k : positive) :
  Z.pos (Pos.iter xO p k) = Z.pos p * 2 ^ Z.pos k.
Proof.
  induction k as [|k IH] using Pos.peano_ind.
  - simpl. lia.
  - rewrite Pos.iter_succ, Pos2Z.inj_succ, Z.pow_succ_r by lia.
    rewrite Pos2Z.inj_xO, IH. lia.
Qed.

(** [float(n)] for an int from 1 to 2^53 - 1: the mantissa of 53 bits and
    the exponent that give [n]. *)
Lemma of_int_normal (n : Z) :
  0 < n < 2 ^ 53 →
  ∃ (m : positive) (k : Z),
    Float64.of_int n = S754_finite false m (- k)
    ∧ 2 ^ 52 ≤ Z.pos m < 2 ^ 53 ∧ 0 ≤ k ≤ 52 ∧ Z.pos m = n * 2 ^ k.
Proof.
  intros Hn. destruct n as [|p|p]; [lia| |lia].
  unfold Float64.of_int, Float64.prec, Float64.emax, binary_normalize,
    binary_round.
  pose proof (digits2_pos_bounds p) as Hd.
  assert (Z.pos (digits2_pos p) ≤ 53) as Hd53.
  { destruct (Z.le_gt_cases (Z.pos (digits2_pos p)) 53) as [|Hgt]; [done|].
    assert (2 ^ 53 ≤ 2 ^ (Z.pos (digits2_pos p) - 1))
      by (apply Z.pow_le_mono_r; lia).
    lia. }
  rewrite fexp_normal by lia. unfold shl_align.
  destruct (Z.pos (digits2_pos p) + 0 - 53 - 0) as [|k|k] eqn:Hk; [|lia|].
  - assert (Z.pos (digits2_pos p) = 53) as H53 by lia.
    rewrite H53 in Hd. simpl in Hd.
    unfold binary_round_aux. rewrite shr_fexp_53 by lia.
    simpl. rewrite shr_fexp_53 by lia. simpl.
    exists p, 0. split; [done|]. lia.
  - assert (Z.pos k = 53 - Z.pos (digits2_pos p)) as Hk' by lia.
    assert (2 ^ 52 ≤ Z.pos (Pos.iter xO p k) < 2 ^ 53) as Hm.
    { rewrite iter_xO, Hk'.
      replace (2 ^ 52) with (2 ^ (Z.pos (digits2_pos p) - 1)
                             * 2 ^ (53 - Z.pos (digits2_pos p))).
      2:{ rewrite <- Z.pow_add_r by lia. f_equal. lia. }
      replace (2 ^ 53) with (2 ^ Z.pos (digits2_pos p)
                             * 2 ^ (53 - Z.pos (digits2_pos p))).
      2:{ rewrite <- Z.pow_add_r by lia. f_equal. lia. }
      assert (0 < 2 ^ (53 - Z.pos (digits2_pos p)))
        by (apply Z.pow_pos_nonneg; lia).
      nia. }
    unfold binary_round_aux. rewrite shr_fexp_53 by lia.
    simpl. rewrite shr_fexp_53 by lia. simpl.
    rewrite (proj2 (Z.leb_le _ _)) by lia.
    exists (Pos.iter xO p k), (Z.pos k). split; [|split; [done|]].
    + do 2 f_equal. lia.
    + split; [lia|]. apply iter_xO.
Qed.

Lemma new_location_zero (nb_steps : Z) : new_location nb_steps 0 = loc_Exact.
Proof.
  unfold new_location, new_location_even, new_location_odd.
  by destruct (Z.even nb_steps).
Qed.

Lemma quotient_bounds (m1 m2 q r : Z) :
  2 ^ 52 ≤ m1 < 2 ^ 53 → 2 ^ 52 ≤ m2 < 2 ^ 53 →
  m1 * 2 ^ 53 = m2 * q + r → 0 ≤ r < m2 →
  2 ^ 52 ≤ q < 2 ^ 54
  ∧ (m1 < m2 → q < 2 ^ 53)
  ∧ (m1 = m2 → q = 2 ^ 53 ∧ r = 0).
Proof.
  intros Hm1 Hm2 Heq Hr.
  assert (2 ^ 52 * 2 ^ 53 ≤ m1 * 2 ^ 53)
    by (apply Z.mul_le_mono_nonneg_r; lia).
  assert (m1 * 2 ^ 53 < 2 ^ 53 * 2 ^ 53)
    by (apply Z.mul_lt_mono_pos_r; lia).
  split_and!.
  - destruct (Z.le_gt_cases (2 ^ 52) q) as [|Hlt]; [done|]. exfalso.
    assert (m2 * (q + 1) ≤ m2 * 2 ^ 52)
      by (apply Z.mul_le_mono_nonneg_l; lia).
    assert (m2 * 2 ^ 52 < 2 ^ 53 * 2 ^ 52)
      by (apply Z.mul_lt_mono_pos_r; lia).
    lia.
  - destruct (Z.le_gt_cases (2 ^ 54) q) as [Hge|]; [|done]. exfalso.
    assert (m2 * 2 ^ 54 ≤ m2 * q) by (apply Z.mul_le_mono_nonneg_l; lia).
    assert (2 ^ 52 * 2 ^ 54 ≤ m2 * 2 ^ 54)
      by (apply Z.mul_le_mono_nonneg_r; lia).
    lia.
  - intros Hlt. destruct (Z.le_gt_cases (2 ^ 53) q) as [Hge|]; [|done].
    exfalso.
    assert (m2 * 2 ^ 53 ≤ m2 * q) by (apply Z.mul_le_mono_nonneg_l; lia).
    assert ((m1 + 1) * 2 ^ 53 ≤ m2 * 2 ^ 53)
      by (apply Z.mul_le_mono_nonneg_r; lia).
    lia.
  - intros ->. assert (q = 2 ^ 53) as ->; [|lia].
    destruct (Z.lt_trichotomy q (2 ^ 53)) as [Hlt|[|Hgt]]; [exfalso|done|exfalso].
    + assert (m2 * (q + 1) ≤ m2 * 2 ^ 53)
        by (apply Z.mul_le_mono_nonneg_l; lia).
      lia.
    + assert (m2 * (2 ^ 53 + 1) ≤ m2 * q)
        by (apply Z.mul_le_mono_nonneg_l; lia).
      lia.
Qed.

(** The quotient of two doubles with mantissas of 53 bits, the first not
    above the second: it is positive and at most 1.0. *)
Lemma div_normal_le_one (m1 m2 : positive) (k1 k2 : Z) :
  2 ^ 52 ≤ Z.pos m1 < 2 ^ 53 → 2 ^ 52 ≤ Z.pos m2 < 2 ^ 53 →
  0 ≤ k1 ≤ 52 → 0 ≤ k2 ≤ 52 →
  k2 < k1 ∨ (k1 = k2 ∧ Z.pos m1 ≤ Z.pos m2) →
  ∃ (m : positive) (e : Z),
    Float64.div (S754_finite false m1 (- k1)) (S754_finite false m2 (- k2))
    = S754_finite false m e
    ∧ (e < -52 ∨ (e = -52 ∧ Z.pos m = 2 ^ 52)).
Proof.
  intros Hm1 Hm2 Hk1 Hk2 Hle.
  unfold Float64.div, Float64.prec, Float64.emax, SFdiv, SFdiv_core_binary.
  rewrite !(Zdigits2_unique _ 53) by lia.
  rewrite fexp_normal by lia.
  replace ((53 + - k1 - (53 + - k2) - 53) `min` (- k1 - - k2))
    with (k2 - k1 - 53) by lia.
  replace (- k1 - - k2 - (k2 - k1 - 53)) with 53 by lia.
  cbv iota. rewrite Z.shiftl_mul_pow2 by lia.
  pose proof (Z.div_eucl_eq (Z.pos m1 * 2 ^ 53) (Z.pos m2) ltac:(lia)) as Heq.
  pose proof (Z.mod_pos_bound (Z.pos m1 * 2 ^ 53) (Z.pos m2) ltac:(lia))
    as Hmod.
  unfold Z.modulo in Hmod.
  destruct (Z.div_eucl (Z.pos m1 * 2 ^ 53) (Z.pos m2)) as [q r].
  destruct (quotient_bounds _ _ _ _ Hm1 Hm2 Heq Hmod)
    as (Hq & Hq53 & Hqeq).
  simpl xorb.
  destruct (binary_round_aux_range false q (k2 - k1 - 53)
              (new_location (Z.pos m2) r))
    as (m & e & -> & Hm & He & He2 & Hlt & Heq53); [lia|lia|].
  exists m, e. split; [done|].
  destruct Hle as [Hk|[-> Hle]].
  - destruct (decide (e = k2 - k1 - 53 + 2)) as [He'|He']; [|lia].
    specialize (He2 He'). lia.
  - destruct (decide (Z.pos m1 = Z.pos m2)) as [Hm12|Hm12].
    + destruct (Hqeq Hm12) as [-> ->].
      rewrite new_location_zero in Heq53.
      destruct Heq53 as [-> ->]; [done..|]. right. lia.
    + destruct Hlt as [He1 He1']; [lia|].
      destruct (decide (e = k2 - k2 - 53 + 1)) as [He'|He']; [|lia].
      specialize (He1' He'). lia.
Qed.

Lemma of_int_1 :
  Float64.of_int 1 = S754_finite false 4503599627370496 (-52).
Proof. by vm_compute. Qed.

Lemma truediv_range (a b : Z) :
  0 ≤ a ≤ b → 0 < b < 2 ^ 53 →
  Float64.leb (Float64.of_int 0) (Float64.truediv a b) = true
  ∧ Float64.leb (Float64.truediv a b) (Float64.of_int 1) = true.
Proof.
  intros Ha Hb. unfold Float64.truediv.
  destruct (of_int_normal b Hb) as (m2 & k2 & -> & Hm2 & Hk2 & Hb2).
  destruct (decide (a = 0)) as [->|Ha0]; [done|].
  destruct (of_int_normal a ltac:(lia)) as (m1 & k1 & -> & Hm1 & Hk1 & Ha1).
  destruct (div_normal_le_one m1 m2 k1 k2)
    as (m & e & -> & He); [done..| |].
  - destruct (Z.lt_trichotomy k1 k2) as [Hlt|[Heq|Hgt]];
      [exfalso|right|by left].
    + assert (2 ^ k2 = 2 ^ (k2 - k1) * 2 ^ k1) as Hpow.
      { rewrite <- Z.pow_add_r by lia. f_equal. lia. }
      assert (2 * 2 ^ 0 ≤ 2 ^ (k2 - k1)).
      { change (2 * 2 ^ 0) with (2 ^ 1). apply Z.pow_le_mono_r; lia. }
      assert (0 < 2 ^ k1) by (apply Z.pow_pos_nonneg; lia).
      nia.
    + subst k2. split; [done|].
      assert (0 < 2 ^ k1) by (apply Z.pow_pos_nonneg; lia). nia.
  - split; [done|]. rewrite of_int_1.
    unfold Float64.leb, SFleb, SFcompare.
    destruct He as [He|[-> He]].
    + by rewrite (proj2 (Z.compare_lt_iff _ _) He).
    + assert (m = 4503599627370496%positive) as -> by lia.
      by vm_compute.
Qed.

End float64.

(** The double of a quotient of two ints is Python's [a / b]. *)
Lemma of_Q_truediv (a b : Z) :
  (0 < b)%Z → Float64.of_Q (inject_Z a / inject_Z b) = Float64.truediv a b.
Proof.
  intros Hb. destruct b as [|p|p]; [lia| |lia].
  unfold Float64.of_Q. simpl. by rewrite Z.mul_1_r.
Qed.

(** C5, as the code has it, for sheets of fewer than 2^53 rows (a sheet of
    Excel has at most 1,048,576): the match rate of every result that
    [compare] returns is a float from 0.0 to 1.0, the double of a quotient
    that lies in [0, 1]; when row comparison runs that quotient is
    [1 - mismatch_count / rows], for the count of [true] cells of the mask
    that the strategy computed, and the float in the field is the literal
    1.0 when no row is flagged and Python's
    [(rows - mismatch_count) / rows] otherwise. *)
Theorem compare_match_rate (use_hash : bool) df1 df2
    (r : CompareResult) (d : option (list CellDifference)) :
  wf_df df1 → wf_df df2 →
  (Z.of_nat (height df1) < 2 ^ 53)%Z →
  compare use_hash df1 df2 = Ok (r, d) →
  Float64.leb (Float64.of_int 0) (match_rate_float r) = true
  ∧ Float64.leb (match_rate_float r) (Float64.of_int 1) = true
  ∧ (0 <= match_rate r <= 1)%Q
  ∧ (row_comparison_executes df1 df2 →
     ∃ mask,
       mismatch_mask use_hash df1 df2 = Ok mask
       ∧ length mask = height df1
       ∧ (match_rate r ==
            1 - inject_Z (Z.of_nat (series_sum mask)) /
                inject_Z (Z.of_nat (height df1)))%Q
       ∧ match_rate_float r =
           if decide (series_sum mask = 0) then Float64.of_int 1
           else Float64.truediv
                  (Z.of_nat (height df1) - Z.of_nat (series_sum mask))
                  (Z.of_nat (height df1))).
Proof.
  intros Hwf1 Hwf2 Hsize Hcmp.
  destruct (compare_inv use_hash df1 df2)
    as [[Hs H]|[[Hc H]|[[Ht H]|[[Hh H]|[Hrun H]]]]];
    rewrite H in Hcmp.
  1-4: injection Hcmp as <- <-; split_and!; [by vm_compute..|done|];
       intros (? & ? & ? & ?); done.
  pose proof Hrun as (Hshape & Hcols & _ & Hrows).
  apply _compare_data_inv in Hcmp as (mask & Hmask & _ & Hcases).
  pose proof (mismatch_mask_length _ _ _ _ Hwf1 Hwf2 Hshape Hcols Hmask)
    as Hlen.
  pose proof (series_sum_le mask) as Hle. rewrite Hlen in Hle.
  pose proof (ratio_bounds _ _ Hrows Hle) as Hratio.
  pose proof (rate_complement (series_sum mask) _ Hrows) as Hrate.
  assert (match_rate r ==
            1 - inject_Z (Z.of_nat (series_sum mask)) /
                inject_Z (Z.of_nat (height df1)))%Q as Heq.
  { simpl in Hcases.
    destruct Hcases as [(H0 & _ & ->)|[(_ & _ & _ & ->)|(_ & _ & Hd)]]; simpl.
    - rewrite H0. unfold Qdiv. rewrite Qmult_0_l. done.
    - done.
    - by destruct Hd as (diffs & _ & _ & ->). }
  assert (match_rate_float r =
            if decide (series_sum mask = 0) then Float64.of_int 1
            else Float64.truediv
                   (Z.of_nat (height df1) - Z.of_nat (series_sum mask))
                   (Z.of_nat (height df1))) as Hfloat.
  { simpl in Hcases. unfold match_rate_float.
    destruct Hcases as [(H0 & _ & ->)|[(H0 & _ & _ & ->)|(H0 & _ & Hd)]].
    - by rewrite decide_True.
    - rewrite decide_False by done. simpl match_rate.
      apply of_Q_truediv. lia.
    - destruct Hd as (diffs & _ & _ & ->).
      rewrite decide_False by done. simpl match_rate.
      apply of_Q_truediv. lia. }
  assert (Float64.leb (Float64.of_int 0) (match_rate_float r) = true
          ∧ Float64.leb (match_rate_float r) (Float64.of_int 1) = true)
    as [Hlo Hhi].
  { rewrite Hfloat. case_decide; [by vm_compute|].
    apply truediv_range; lia. }
  split_and!; [done|done|rewrite Heq; lra|lra|].
  intros _. by exists mask.
Qed.

(** ** The field-wise strategy *)


(** ** Frames without a difference *)

(** Frames of one shape and schema without a mismatched cell are a
    perfect match under either strategy, provided the strategy returns its
    mask. *)
Lemma compare_no_differences (use_hash : bool) df1 df2 mask :
  wf_df df1 → wf_df df2 →
  shape df1 = shape df2 → columns df1 = columns df2 →
  dtypes df1 = dtypes df2 →
  no_cell_differences df1 df2 →
  height df1 ≠ 0 →
  mismatch_mask use_hash df1 df2 = Ok mask →
  compare use_hash df1 df2 =
    Ok (mkCompareResult "Perfect match" 1 NoDetails (shape df1) (shape df2),
        None).
Proof.
  intros Hwf1 Hwf2 Hshape Hcols Htypes Hno Hrows Hmask.
  rewrite compare_row_stage by done. unfold _compare_data.
  rewrite Hmask. simpl. rewrite !truediv_Ok by lia. simpl.
  rewrite decide_True; [done|].
  by apply (mismatch_mask_no_differences use_hash df1 df2 mask).
Qed.

(** Under the hash strategy, and under the field-wise strategy when no
    column name of V1 is a suffixed column name of V2, frames of one shape
    and schema without a mismatched cell are a perfect match with match
    rate 1.0 and no frame of differences. *)
Lemma compare_perfect_match (use_hash : bool) df1 df2 :
  wf_df df1 → wf_df df2 →
  shape df1 = shape df2 → columns df1 = columns df2 →
  dtypes df1 = dtypes df2 →
  no_cell_differences df1 df2 →
  use_hash = true ∨ no_name_collision df1 df2 →
  ∃ det,
    compare use_hash df1 df2 =
      Ok (mkCompareResult "Perfect match" 1 det (shape df1) (shape df2), None).
Proof.
  intros Hwf1 Hwf2 Hshape Hcols Htypes Hno Hstrategy.
  destruct (decide (height df1 = 0)) as [Hrows|Hrows].
  { exists EmptyFiles. unfold compare.
    rewrite !decide_False by (by intros []). by rewrite decide_True. }
  exists NoDetails.
  destruct use_hash.
  - by eapply compare_no_differences.
  - destruct Hstrategy as [|Hnd]; [done|].
    destruct (fieldwise_mask_spec df1 df2) as (mask & Hmask & _); [done..| |].
    { by intros ->. }
    by eapply compare_no_differences.
Qed.

Lemma no_cell_differences_refl df : no_cell_differences df df.
Proof.
  intros i (j & a & b & Ha & Hb & Hab).
  apply fieldwise_mismatch_ne in Hab. congruence.
Qed.

(** When a column name of V1 is also a suffixed column name of V2, the
    field-wise strategy stops at the concatenation of line 95, and with it
    [compare] whenever it reaches the row comparison. *)
Lemma mismatch_mask_collision df1 df2 :
  ¬ no_name_collision df1 df2 →
  mismatch_mask false df1 df2 = Raise DuplicateError.
Proof.
  intros Hcoll. unfold mismatch_mask, concat_horizontal.
  rewrite decide_False; [done|]. by rewrite columns_app, columns_rename.
Qed.

Lemma compare_collision df1 df2 :
  row_comparison_executes df1 df2 →
  ¬ no_name_collision df1 df2 →
  compare false df1 df2 = Raise DuplicateError.
Proof.
  intros Hrun Hcoll. rewrite compare_row_stage by done.
  unfold _compare_data. by rewrite mismatch_mask_collision.
Qed.

(** ** The division of [_compare_data] *)

Lemma bind_no_zero_division {A B} (m : result A) (f : A → result B) :
  m ≠ Raise ZeroDivisionError →
  (∀ x, m = Ok x → f x ≠ Raise ZeroDivisionError) →
  m ≫= f ≠ Raise ZeroDivisionError.
Proof.
  intros Hm Hf [Hr|(x & Hx & Hr)]%bind_Raise; [done|]. by apply (Hf x).
Qed.

Lemma col_no_zero_division df (c : string) :
  col df c ≠ Raise ZeroDivisionError.
Proof. unfold col. by destruct (list_find _ df) as [[? ?]|]. Qed.

Lemma eval_no_zero_division df (e : Expr) :
  eval df e ≠ Raise ZeroDivisionError.
Proof.
  induction e; simpl;
    repeat (apply bind_no_zero_division;
            [done || apply col_no_zero_division|intros ? _]); done.
Qed.

Lemma result_mapM_no_zero_division {A B} (f : A → result B) (l : list A) :
  (∀ x, f x ≠ Raise ZeroDivisionError) →
  result_mapM f l ≠ Raise ZeroDivisionError.
Proof.
  intros Hf. induction l as [|x l IH]; simpl; [done|].
  apply bind_no_zero_division; [done|intros ? _].
  by apply bind_no_zero_division.
Qed.

Lemma mismatch_mask_no_zero_division (use_hash : bool) df1 df2 :
  mismatch_mask use_hash df1 df2 ≠ Raise ZeroDivisionError.
Proof.
  unfold mismatch_mask. destruct use_hash; [done|].
  apply bind_no_zero_division.
  { unfold concat_horizontal. by case_decide. }
  intros combined _. unfold select_any_horizontal.
  apply bind_no_zero_division.
  { apply result_mapM_no_zero_division, eval_no_zero_division. }
  intros [|? ?] _; done.
Qed.

Lemma _generate_differences_df_no_zero_division df1 df2 mask :
  _generate_differences_df df1 df2 mask ≠ Raise ZeroDivisionError.
Proof.
  assert (∀ df, with_row_index df ≠ Raise ZeroDivisionError) as Hidx.
  { intros df. unfold with_row_index. by case_decide. }
  assert (∀ f cs, select_cast_utf8 f cs ≠ Raise ZeroDivisionError) as Hsel.
  { intros f cs. unfold select_cast_utf8.
    apply bind_no_zero_division; [|done].
    apply result_mapM_no_zero_division. intros c. unfold col_cast_utf8.
    apply bind_no_zero_division; [apply col_no_zero_division|done]. }
  assert (∀ vn valn f, unpivot vn valn f ≠ Raise ZeroDivisionError) as Hun.
  { intros vn valn f. unfold unpivot. by case_decide. }
  unfold _generate_differences_df.
  repeat (apply bind_no_zero_division; [done|intros ? _]). done.
Qed.

(** With at least one row, the two divisions of [_compare_data] have a
    non-zero divisor. *)
Lemma _compare_data_no_zero_division (use_hash : bool) df1 df2
    (sh1 sh2 : Shape) :
  height df1 ≠ 0 →
  _compare_data use_hash df1 df2 sh1 sh2 ≠ Raise ZeroDivisionError.
Proof.
  intros Hrows. unfold _compare_data.
  apply bind_no_zero_division; [apply mismatch_mask_no_zero_division|].
  intros mask _. rewrite !truediv_Ok by lia. simpl.
  case_decide; [done|]. destruct (Qgtb _ _); [done|].
  apply bind_no_zero_division;
    [apply _generate_differences_df_no_zero_division|done].
Qed.

(** C10: [compare] never divides by zero.  It either returns from one of
    its four checks, or runs [_compare_data] on frames with at least one
    row, where the divisor [total_rows] of both divisions is at least 1. *)
Theorem compare_no_zero_division (use_hash : bool) df1 df2 :
  compare use_hash df1 df2 ≠ Raise ZeroDivisionError
  ∧ ((¬ row_comparison_executes df1 df2
      ∧ ∃ r, compare use_hash df1 df2 = Ok (r, None))
     ∨ (1 ≤ height df1
        ∧ compare use_hash df1 df2 =
            _compare_data use_hash df1 df2 (shape df1) (shape df2))).
Proof.
  destruct (compare_inv use_hash df1 df2)
    as [[Hs H]|[[Hc H]|[[Ht H]|[[Hh H]|[Hrun H]]]]]; rewrite H.
  1-4: split; [done|left; split; [by intros (? & ? & ? & ?)|by eexists]].
  destruct Hrun as (_ & _ & _ & Hrows). split.
  - by apply _compare_data_no_zero_division.
  - right. split; [lia|done].
Qed.

(** ** Filtering by the mask *)

Lemma filter_mask_nil_r {A} mask : filter_mask (A:=A) mask [] = [].
Proof. by destruct mask. Qed.

Lemma filter_mask_cons {A} (m : option bool) mask (x : A) (l : list A) :
  filter_mask (m :: mask) (x :: l) =
    if is_true_cell m then x :: filter_mask mask l else filter_mask mask l.
Proof.
  unfold filter_mask. simpl. rewrite filter_cons. simpl.
  by destruct (is_true_cell m) eqn:Hm; case_decide.
Qed.

Lemma filter_mask_fmap {A B} (f : A → B) mask (l : list A) :
  filter_mask mask (f <$> l) = f <$> filter_mask mask l.
Proof.
  revert l. induction mask as [|m mask IH]; intros [|x l]; [done..|].
  rewrite fmap_cons, !filter_mask_cons, IH. by destruct (is_true_cell m).
Qed.

(** Two columns filtered by one mask stay aligned, and what is kept comes
    from a flagged row. *)
Lemma filter_mask_lookup {A B} mask (l : list A) (k : list B) (n : nat)
    (x : A) (y : B) :
  filter_mask mask l !! n = Some x → filter_mask mask k !! n = Some y →
  ∃ p, mask !! p = Some (Some true) ∧ l !! p = Some x ∧ k !! p = Some y.
Proof.
  revert l k n. induction mask as [|m mask IH]; intros l k n; [done|].
  destruct l as [|x0 l]; [by rewrite filter_mask_nil_r|].
  destruct k as [|y0 k]; [by rewrite filter_mask_nil_r|].
  rewrite !filter_mask_cons. destruct (is_true_cell m) eqn:Hm.
  - destruct n as [|n]; simpl.
    + intros [= <-] [= <-]. exists 0. by destruct m as [[|]|].
    + intros Hx Hy. destruct (IH l k n Hx Hy) as (p & ? & ? & ?).
      by exists (S p).
  - intros Hx Hy. destruct (IH l k n Hx Hy) as (p & ? & ? & ?).
    by exists (S p).
Qed.

(** ** The rows of [_generate_differences_df] *)

Lemma select_cast_utf8_inv (f : IndexedFrame) (cs : list string)
    (sf : StrFrame) :
  select_cast_utf8 f cs = Ok sf →
  str_index sf = index_col f
  ∧ ∀ p, p ∈ str_columns sf →
      ∃ s, s ∈ data f ∧ p = (name s, fmap cast_utf8 <$> values s).
Proof.
  unfold select_cast_utf8.
  intros (cols & Hcols%result_mapM_inv & [= <-])%bind_Ok. simpl.
  split; [done|]. intros p [i Hi]%list_elem_of_lookup_1.
  destruct (Forall2_lookup_r _ _ _ _ _ Hcols Hi) as (c & _ & Hc).
  unfold col_cast_utf8 in Hc.
  apply bind_Ok in Hc as (s & [Hs _]%col_Ok & [= <-]). by exists s.
Qed.

Lemma unpivot_Ok (variable_name value_name : string) (f : StrFrame)
    (l : list Melted) :
  unpivot variable_name value_name f = Ok l ↔
  (variable_name ∉ (str_columns f).*1)
  ∧ (value_name ∉ (str_columns f).*1)
  ∧ l = melt f.
Proof.
  unfold unpivot. case_decide as Hnames; split.
  - done.
  - intros (? & ? & _). tauto.
  - intros [= <-]. tauto.
  - by intros (_ & _ & ->).
Qed.

(** A melted row shows a cell of a flagged row, cast to a string. *)
Lemma unpivot_row df mask (cs : list string) (i0 : IndexedFrame)
    (sf : StrFrame) (m : Melted) :
  with_row_index df = Ok i0 →
  select_cast_utf8 (filter_rows mask i0) cs = Ok sf →
  m ∈ melt sf →
  ∃ s a, s ∈ df ∧ name s = m_column_name m
         ∧ mask !! m_row_index m = Some (Some true)
         ∧ values s !! m_row_index m = Some a
         ∧ m_value m = cast_utf8 <$> a.
Proof.
  unfold with_row_index. case_decide; [done|]. intros [= <-].
  intros [Hidx Hcols]%select_cast_utf8_inv. simpl in *.
  unfold melt. intros (p & Hm & Hp)%list_elem_of_bind.
  destruct (Hcols p Hp) as (s' & (s & -> & Hs)%list_elem_of_fmap & ->).
  simpl in Hm. rewrite Hidx in Hm.
  apply elem_of_lookup_zip_with_1 in Hm as (n & i & v & -> & Hi & Hv).
  rewrite <- filter_mask_fmap in Hv.
  destruct (filter_mask_lookup _ _ _ _ _ _ Hi Hv) as (p & Hp1 & Hp2 & Hp3).
  apply lookup_seq in Hp2 as [-> _]. simpl.
  rewrite list_lookup_fmap in Hp3.
  destruct (values s !! p) as [a|] eqn:Ha; [|done].
  injection Hp3 as <-. by exists s, a.
Qed.

Lemma elem_of_join (melt1 melt2 : list Melted) (j : Joined) :
  j ∈ join melt1 melt2 ↔
  ∃ l r, l ∈ melt1 ∧ r ∈ melt2
         ∧ m_row_index r = m_row_index l
         ∧ m_column_name r = m_column_name l
         ∧ j = mkJoined (m_row_index l) (m_column_name l)
                        (m_value l) (m_value r).
Proof.
  unfold join. rewrite list_elem_of_bind. split.
  - intros (l & (r & ->%list_elem_of_singleton & [[? ?] ?]%list_elem_of_filter)
              %list_elem_of_bind & Hl).
    by exists l, r.
  - intros (l & r & Hl & Hr & Hi & Hc & ->). exists l. split; [|done].
    apply list_elem_of_bind. exists r. split; [set_solver|].
    by apply list_elem_of_filter.
Qed.

Lemma elem_of_join_schema (diff_df : list Joined)
    (schema : list (string * string)) (d : CellDifference) :
  d ∈ join_schema diff_df schema ↔
  ∃ j p, j ∈ diff_df ∧ p ∈ schema ∧ p.1 = j_column_name j
         ∧ d = mkCellDifference (j_row_index j) (j_column_name j) p.2
                                (j_value_v1 j) (j_value_v2 j).
Proof.
  unfold join_schema. rewrite list_elem_of_bind. split.
  - intros (j & (p & ->%list_elem_of_singleton & [? ?]%list_elem_of_filter)
              %list_elem_of_bind & Hj).
    by exists j, p.
  - intros (j & p & Hj & Hp & Hc & ->). exists j. split; [|done].
    apply list_elem_of_bind. exists p. split; [set_solver|].
    by apply list_elem_of_filter.
Qed.

Lemma elem_of_schema_df df (p : string * string) :
  p ∈ schema_df df → ∃ s, s ∈ df ∧ p = (name s, str_dtype (dtype s)).
Proof.
  unfold schema_df, columns, dtypes.
  intros (i & c & t & -> & Hc & Ht)%elem_of_lookup_zip_with_1.
  rewrite list_lookup_fmap in Hc. rewrite !list_lookup_fmap in Ht.
  destruct (df !! i) as [s|] eqn:Hs; [|done].
  injection Hc as <-. injection Ht as <-.
  exists s. split; [by eapply list_elem_of_lookup_2|done].
Qed.

(** The filter of lines 139 to 142 keeps a pair of rendered cells only if
    the cells themselves are mismatched. *)
Lemma values_differ_mismatch (j : Joined) a b :
  j_value_v1 j = cast_utf8 <$> a → j_value_v2 j = cast_utf8 <$> b →
  is_true_cell (values_differ j) = true → fieldwise_mismatch a b.
Proof.
  unfold values_differ. intros -> -> Hd. apply fieldwise_mismatch_ne.
  revert Hd. destruct a as [x|], b as [y|]; simpl; try done.
  case_bool_decide as Hne; [|done]. intros _ [= ->]. done.
Qed.

Lemma _generate_differences_df_inv df1 df2 mask
    (diffs : list CellDifference) (d : CellDifference) :
  _generate_differences_df df1 df2 mask = Ok diffs → d ∈ diffs →
  ∃ s1 s2 s a b,
    s1 ∈ df1 ∧ s2 ∈ df2 ∧ s ∈ df1
    ∧ name s1 = column_name d ∧ name s2 = column_name d
    ∧ name s = column_name d
    ∧ mask !! row_index d = Some (Some true)
    ∧ values s1 !! row_index d = Some a
    ∧ values s2 !! row_index d = Some b
    ∧ value_v1 d = cast_utf8 <$> a ∧ value_v2 d = cast_utf8 <$> b
    ∧ column_type d = str_dtype (dtype s)
    ∧ fieldwise_mismatch a b.
Proof.
  unfold _generate_differences_df.
  intros (i1 & Hi1 & (i2 & Hi2 & (sf1 & Hsf1 & (sf2 & Hsf2 & Hmelt)
            %bind_Ok)%bind_Ok)%bind_Ok)%bind_Ok Hd.
  apply bind_Ok in Hmelt as (melt1 & Hmelt1 & Hmelt).
  apply bind_Ok in Hmelt as (melt2 & Hmelt2 & [= <-]).
  apply unpivot_Ok in Hmelt1 as (_ & _ & ->).
  apply unpivot_Ok in Hmelt2 as (_ & _ & ->).
  unfold sort_diffs in Hd. rewrite merge_sort_Permutation in Hd.
  apply elem_of_join_schema in Hd as (j & p & Hj & Hp & Hpc & ->).
  apply list_elem_of_filter in Hj as [Hdiffer Hj].
  apply elem_of_join in Hj as (l & r & Hl & Hr & Hri & Hrc & ->).
  simpl in *.
  destruct (unpivot_row _ _ _ _ _ _ Hi1 Hsf1 Hl)
    as (s1 & a & Hs1 & Hn1 & Hm1 & Ha & Hv1).
  destruct (unpivot_row _ _ _ _ _ _ Hi2 Hsf2 Hr)
    as (s2 & b & Hs2 & Hn2 & Hm2 & Hb & Hv2).
  apply elem_of_schema_df in Hp as (s & Hs & ->). simpl in *.
  rewrite Hri in Hb. rewrite Hrc in Hn2.
  exists s1, s2, s, a, b. split_and!; try done.
  by apply (values_differ_mismatch _ a b) in Hdiffer.
Qed.

Lemma same_name_same_index df (j j' : nat) (s s' : Series) :
  NoDup (columns df) → df !! j = Some s → df !! j' = Some s' →
  name s = name s' → j = j'.
Proof.
  intros Hnd Hj Hj' Hname.
  eapply NoDup_lookup; [exact Hnd|..]; unfold columns; rewrite list_lookup_fmap.
  - by rewrite Hj.
  - rewrite Hj'. simpl. by rewrite Hname.
Qed.

(** A row of the frame of differences is the rendering of one cell
    position, in a flagged row, that does not hold the same value on the
    two sides. *)
Lemma generated_difference_cell df1 df2 mask
    (diffs : list CellDifference) (d : CellDifference) :
  wf_df df1 → wf_df df2 → columns df1 = columns df2 →
  length mask = height df1 →
  _generate_differences_df df1 df2 mask = Ok diffs → d ∈ diffs →
  mask !! row_index d = Some (Some true)
  ∧ ∃ j s1 s2 a b,
      df1 !! j = Some s1 ∧ df2 !! j = Some s2
      ∧ name s1 = column_name d
      ∧ values s1 !! row_index d = Some a
      ∧ values s2 !! row_index d = Some b
      ∧ fieldwise_mismatch a b
      ∧ value_v1 d = cast_utf8 <$> a ∧ value_v2 d = cast_utf8 <$> b
      ∧ column_type d = str_dtype (dtype s1).
Proof.
  intros [Hnd1 _] [Hnd2 _] Hcols _ Hgen Hd.
  destruct (_generate_differences_df_inv _ _ _ _ _ Hgen Hd)
    as (s1 & s2 & s & a & b & Hs1 & Hs2 & Hs & Hn1 & Hn2 & Hn & Hm & Ha & Hb
        & Hv1 & Hv2 & Ht & Hab).
  split; [done|].
  apply list_elem_of_lookup_1 in Hs1 as [j Hj].
  apply list_elem_of_lookup_1 in Hs2 as [j2 Hj2].
  apply list_elem_of_lookup_1 in Hs as [j' Hj'].
  assert (j' = j) as ->.
  { eapply (same_name_same_index df1); [done..|]. congruence. }
  assert (s = s1) as -> by congruence.
  destruct (df2 !! j) as [s2'|] eqn:Hj2'.
  2:{ apply lookup_ge_None in Hj2'. apply lookup_lt_Some in Hj.
      apply (f_equal length) in Hcols. unfold columns in Hcols.
      rewrite !length_fmap in Hcols. lia. }
  assert (j2 = j) as ->.
  { eapply (same_name_same_index df2); [done..|].
    rewrite <- (same_columns_lookup df1 df2 j s1 s2') by done. congruence. }
  assert (s2' = s2) as -> by congruence.
  by exists j, s1, s2, a, b.
Qed.

(** The selection of line 129 or 130 returns, with the columns under
    their own names. *)
Lemma select_cast_utf8_Ok df (mask : BoolSeries) :
  ∃ sf,
    select_cast_utf8
      (filter_rows mask (mkIndexedFrame (seq 0 (height df)) df))
      (columns df) = Ok sf
    ∧ (str_columns sf).*1 = columns df.
Proof.
  unfold select_cast_utf8.
  set (df' := data (filter_rows mask _)).
  assert (∃ cols, result_mapM (col_cast_utf8 df') (columns df) = Ok cols
                  ∧ cols.*1 = columns df)
    as (cols & -> & Hnames); [|by eexists].
  assert (∀ c, c ∈ columns df →
               ∃ p, col_cast_utf8 df' c = Ok p ∧ p.1 = c) as Hcol.
  { intros c (s & -> & Hs)%list_elem_of_fmap. unfold col_cast_utf8.
    destruct (col df' (name s)) as [s'|e] eqn:Hf.
    - apply col_Ok in Hf as [_ Hn]. by eexists.
    - exfalso. unfold col in Hf.
      destruct (list_find (λ s', name s' = name s) df') as [[i s']|] eqn:Hl;
        [done|].
      apply list_find_None in Hl.
      assert (mkSeries (name s) (dtype s) (filter_mask mask (values s)) ∈ df')
        as Hin.
      { unfold df'. simpl. apply list_elem_of_fmap. by exists s. }
      rewrite Forall_forall in Hl. by destruct (Hl _ Hin). }
  induction (columns df) as [|c cs IH]; [by eexists|]. simpl.
  destruct (Hcol c) as (p & -> & Hp); [by left|].
  destruct IH as (cols & -> & Hcols).
  { intros c' Hc'. apply Hcol. by right. }
  simpl. eexists. split; [done|]. by rewrite fmap_cons, Hp, Hcols.
Qed.

(** [_generate_differences_df] returns its frame for sheets without a
    column of a reserved name. *)
Lemma _generate_differences_df_Ok df1 df2 mask :
  (∀ c, c ∈ reserved_names → c ∉ columns df1) →
  (∀ c, c ∈ reserved_names → c ∉ columns df2) →
  ∃ diffs, _generate_differences_df df1 df2 mask = Ok diffs.
Proof.
  intros H1 H2.
  assert ("Row Index" ∉ columns df1) by (apply H1; repeat constructor).
  assert ("Row Index" ∉ columns df2) by (apply H2; repeat constructor).
  assert ("Column Name" ∉ columns df1) by (apply H1; repeat constructor).
  assert ("Column Name" ∉ columns df2) by (apply H2; repeat constructor).
  assert ("Value V1" ∉ columns df1) by (apply H1; repeat constructor).
  assert ("Value V2" ∉ columns df2) by (apply H2; repeat constructor).
  unfold _generate_differences_df, with_row_index.
  rewrite !decide_False by done. simpl.
  destruct (select_cast_utf8_Ok df1 mask) as (sf1 & -> & Hn1). simpl.
  destruct (select_cast_utf8_Ok df2 mask) as (sf2 & -> & Hn2). simpl.
  unfold unpivot. rewrite Hn1, Hn2.
  rewrite !decide_False by tauto. simpl. by eexists.
Qed.

(** It raises polars' DuplicateError for a sheet with a column of a
    reserved name: at line 125 for "Row Index", else at line 133 for
    "Column Name" or "Value V1", else at line 134. *)
Lemma _generate_differences_df_reserved df1 df2 mask :
  columns df1 = columns df2 →
  (∃ c, c ∈ reserved_names ∧ c ∈ columns df1) →
  _generate_differences_df df1 df2 mask = Raise DuplicateError.
Proof.
  intros Hcols (c & Hc & Hin).
  unfold _generate_differences_df, with_row_index.
  destruct (decide ("Row Index" ∈ columns df1)) as [|Hr1]; [done|]. simpl.
  rewrite decide_False by (by rewrite <- Hcols). simpl.
  destruct (select_cast_utf8_Ok df1 mask) as (sf1 & -> & Hn1). simpl.
  destruct (select_cast_utf8_Ok df2 mask) as (sf2 & -> & Hn2). simpl.
  unfold unpivot. rewrite Hn1, Hn2, <- Hcols.
  destruct (decide ("Column Name" ∈ columns df1 ∨ "Value V1" ∈ columns df1))
    as [|Hn]; [done|]. simpl.
  rewrite decide_True; [done|].
  unfold reserved_names in Hc. rewrite !elem_of_cons, elem_of_nil in Hc.
  destruct Hc as [->|[->|[->|[->|[]]]]]; tauto.
Qed.

(** A returned frame of differences tells that no column has a reserved
    name. *)
Lemma _generate_differences_df_names df1 df2 mask
    (diffs : list CellDifference) :
  columns df1 = columns df2 →
  _generate_differences_df df1 df2 mask = Ok diffs →
  ∀ c, c ∈ reserved_names → c ∉ columns df1.
Proof.
  intros Hcols Hgen c Hc Hin.
  rewrite (_generate_differences_df_reserved df1 df2 mask) in Hgen; [done..|].
  by exists c.
Qed.

End theory.

(** ** The order of the frame of differences *)

#[global] Instance diff_le_trans : Transitive diff_le.
Proof.
  intros d1 d2 d3 [H12|[H12 Hc12]] [H23|[H23 Hc23]]; unfold diff_le.
  - left. lia.
  - left. lia.
  - left. lia.
  - right. split; [lia|]. by etrans.
Qed.

#[global] Instance diff_le_total : Total diff_le.
Proof.
  intros d1 d2. unfold diff_le.
  destruct (lt_eq_lt_dec (row_index d1) (row_index d2)) as [[Hlt|Heq]|Hgt].
  - by left; left.
  - destruct (total String.le (column_name d1) (column_name d2)).
    + by left; right.
    + by right; right.
  - by right; left.
Qed.

(** Two rows that precede each other have the same sort key. *)
Lemma diff_le_antisym_key (d1 d2 : CellDifference) :
  diff_le d1 d2 → diff_le d2 d1 →
  row_index d1 = row_index d2 ∧ column_name d1 = column_name d2.
Proof.
  intros [H12|[H12 Hc12]] [H21|[H21 Hc21]]; try lia.
  split; [done|]. by apply (anti_symm String.le).
Qed.

Lemma sort_diffs_sorted (l : list CellDifference) :
  StronglySorted diff_le (sort_diffs l).
Proof. apply StronglySorted_merge_sort; apply _. Qed.

(** A sorted list is the only sorted arrangement of its elements, when
    elements that precede each other are equal. *)
Lemma sorted_arrangement_unique {A} (R : relation A) (l k : list A) :
  (∀ x y, x ∈ l → y ∈ l → R x y → R y x → x = y) →
  StronglySorted R l → StronglySorted R k → l ≡ₚ k → l = k.
Proof.
  revert k. induction l as [|x l IH]; intros k Hanti Hl Hk Hperm.
  { by apply Permutation_nil in Hperm. }
  destruct k as [|y k].
  { symmetry in Hperm. by apply Permutation_nil in Hperm. }
  apply StronglySorted_inv in Hl as [Hl Hxl].
  apply StronglySorted_inv in Hk as [Hk Hyk].
  rewrite Forall_forall in Hxl, Hyk.
  assert (x = y) as ->.
  { assert (x ∈ y :: k) as Hx by (rewrite <- Hperm; constructor).
    assert (y ∈ x :: l) as Hy by (rewrite Hperm; constructor).
    apply elem_of_cons in Hx as [->|Hx]; [done|].
    apply elem_of_cons in Hy as [->|Hy]; [done|].
    apply Hanti; [set_solver|set_solver|by apply Hxl|by apply Hyk]. }
  f_equal. apply IH; [|done|done|by apply Permutation_cons_inv in Hperm].
  intros x' y' Hx' Hy'. apply Hanti; set_solver.
Qed.

Section differences_frame.
Context `{P : Polars}.

(** The frame of differences is a sorted list. *)
Lemma generated_differences_sorted df1 df2 (mask : BoolSeries)
    (diffs : list CellDifference) :
  _generate_differences_df df1 df2 mask = Ok diffs →
  StronglySorted diff_le diffs.
Proof.
  unfold _generate_differences_df. intros Hgen.
  apply bind_Ok in Hgen as (i1 & _ & Hgen).
  apply bind_Ok in Hgen as (i2 & _ & Hgen).
  apply bind_Ok in Hgen as (sf1 & _ & Hgen).
  apply bind_Ok in Hgen as (sf2 & _ & Hgen).
  apply bind_Ok in Hgen as (melt1 & _ & Hgen).
  apply bind_Ok in Hgen as (melt2 & _ & [= <-]).
  apply sort_diffs_sorted.
Qed.

(** In the frame of differences the sort key determines the row. *)
Lemma generated_difference_key df1 df2 (mask : BoolSeries)
    (diffs : list CellDifference) (d1 d2 : CellDifference) :
  wf_df df1 → wf_df df2 → columns df1 = columns df2 →
  length mask = height df1 →
  _generate_differences_df df1 df2 mask = Ok diffs →
  d1 ∈ diffs → d2 ∈ diffs →
  row_index d1 = row_index d2 → column_name d1 = column_name d2 →
  d1 = d2.
Proof.
  intros Hwf1 Hwf2 Hcols Hlen Hgen Hd1 Hd2 Hrow Hcol.
  destruct (generated_difference_cell _ _ _ _ _ Hwf1 Hwf2 Hcols Hlen Hgen Hd1)
    as (_ & j & s1 & s2 & a & b & Hj1 & Hj2 & Hn & Ha & Hb & _ & Hv1 & Hv2 & Ht).
  destruct (generated_difference_cell _ _ _ _ _ Hwf1 Hwf2 Hcols Hlen Hgen Hd2)
    as (_ & j' & s1' & s2' & a' & b' & Hj1' & Hj2' & Hn' & Ha' & Hb' & _
        & Hv1' & Hv2' & Ht').
  assert (j' = j) as ->.
  { destruct Hwf1 as [Hnd _].
    eapply (same_name_same_index df1); [done..|]. congruence. }
  assert (s1' = s1) as -> by congruence.
  assert (s2' = s2) as -> by congruence.
  rewrite <- Hrow in Ha', Hb'.
  assert (a' = a) as -> by congruence.
  assert (b' = b) as -> by congruence.
  destruct d1, d2; simpl in *. congruence.
Qed.

(** C9: the frame of differences is sorted ascending by the pair of row
    index and column name, names compared as text; the same inputs give the
    same sequence; and for well-formed frames this sequence is the only
    sorted arrangement of its rows, so it does not depend on the order in
    which the joins produced them. *)
Theorem differences_sorted df1 df2 (mask : BoolSeries)
    (diffs : list CellDifference) :
  _generate_differences_df df1 df2 mask = Ok diffs →
  StronglySorted diff_le diffs
  ∧ (∀ diffs', _generate_differences_df df1 df2 mask = Ok diffs' →
       diffs' = diffs)
  ∧ (wf_df df1 → wf_df df2 → columns df1 = columns df2 →
     length mask = height df1 →
     ∀ l, l ≡ₚ diffs → StronglySorted diff_le l → l = diffs).
Proof.
  intros Hgen. split_and!.
  - by eapply generated_differences_sorted.
  - intros diffs' Hgen'. congruence.
  - intros Hwf1 Hwf2 Hcols Hlen l Hperm Hl. symmetry.
    apply (sorted_arrangement_unique diff_le); [| |done|done].
    + intros x y Hx Hy Hxy Hyx.
      destruct (diff_le_antisym_key x y Hxy Hyx) as [Hrow Hcol].
      by apply (generated_difference_key df1 df2 mask diffs).
    + by eapply generated_differences_sorted.
Qed.

(** ** The frame of differences that [compare] returns *)

(** [compare] attaches a frame of differences only on the way through
    DIFF_GENERATED: row comparison ran, some row is flagged, the ratio is
    within the threshold, and the frame is that of
    [_generate_differences_df] for the mask of the strategy. *)
Lemma compare_Some_inv (use_hash : bool) df1 df2 (r : CompareResult)
    (diffs : list CellDifference) :
  compare use_hash df1 df2 = Ok (r, Some diffs) →
  row_comparison_executes df1 df2
  ∧ ∃ mask,
      mismatch_mask use_hash df1 df2 = Ok mask
      ∧ series_sum mask ≠ 0
      ∧ (inject_Z (Z.of_nat (series_sum mask)) /
         inject_Z (Z.of_nat (height df1)) <= Config.MISMATCH_THRESHOLD)%Q
      ∧ _generate_differences_df df1 df2 mask = Ok diffs.
Proof.
  intros Hcmp.
  destruct (compare_inv use_hash df1 df2)
    as [[Hs H]|[[Hc H]|[[Ht H]|[[Hh H]|[Hrun H]]]]];
    rewrite H in Hcmp; [done..|].
  split; [done|].
  apply _compare_data_inv in Hcmp as (mask & Hmask & _ & Hcases).
  simpl in Hcases.
  destruct Hcases
    as [(_ & ? & _)|[(_ & _ & ? & _)|(? & ? & diffs' & ? & [= <-] & _)]];
    [done..|].
  by exists mask.
Qed.

Lemma compare_differences_sorted (use_hash : bool) df1 df2
    (r : CompareResult) (diffs : list CellDifference) :
  compare use_hash df1 df2 = Ok (r, Some diffs) →
  StronglySorted diff_le diffs.
Proof.
  intros (_ & mask & _ & _ & _ & Hgen)%compare_Some_inv.
  by eapply generated_differences_sorted.
Qed.

End differences_frame.

(** * The properties on the sample frames *)

Section samples_checked.
#[local] Existing Instance sample_polars.

Ltac sample_wf :=
  split; [apply (bool_decide_unpack _); by vm_compute|repeat constructor].

(** C1, at a sheet whose header has both "a" and "a_v2", compared with
    itself: the two frames have one shape, the same column names and
    dtypes and no mismatched cell, and row comparison runs; the hash
    strategy returns the perfect match, the field-wise strategy raises
    polars' DuplicateError at the concatenation of line 95. *)
Theorem compare_suffixed_columns :
  wf_df suffixed
  ∧ row_comparison_executes suffixed suffixed
  ∧ no_cell_differences suffixed suffixed
  ∧ compare true suffixed suffixed =
      Ok (mkCompareResult "Perfect match" 1 NoDetails (1, 2) (1, 2), None)
  ∧ compare false suffixed suffixed = Raise DuplicateError.
Proof.
  split_and!.
  - sample_wf.
  - by vm_compute.
  - apply no_cell_differences_refl.
  - by vm_compute.
  - by vm_compute.
Qed.

Lemma compare_shape_mismatch_witness :
  compare true small_v1 short_v1 =
    Ok (mkCompareResult "Shape mismatch" 0 (ShapeDetails (3, 2) (2, 2))
          (3, 2) (2, 2),
        None).
Proof.
  apply (compare_shape_mismatch true small_v1 short_v1). by vm_compute.
Defined.

Lemma compare_reordered_columns_witness :
  compare false small_v1 small_swapped =
    Ok (mkCompareResult "Column names mismatch" 0
          (DiffCols (symmetric_difference (columns small_v1)
                                          (columns small_swapped)))
          (shape small_v1) (shape small_swapped),
        None)
  ∧ symmetric_difference (columns small_v1) (columns small_swapped) = ∅.
Proof.
  apply (compare_reordered_columns false small_v1 small_swapped).
  - reflexivity.
  - apply (bool_decide_unpack _). by vm_compute.
  - by vm_compute.
Defined.

Lemma compare_headers_only_witness :
  compare false headers_only headers_only =
    Ok (mkCompareResult "Perfect match" 1 EmptyFiles
          (shape headers_only) (shape headers_only),
        None).
Proof.
  apply (compare_headers_only false headers_only headers_only);
    reflexivity.
Defined.

Lemma compare_high_mismatch_witness :
  ∃ rate,
    compare false small_v1 small_v2 =
      Ok (mkCompareResult "Data mismatch >10.0%" rate
            (RowsDiffer (series_sum small_mask))
            (shape small_v1) (shape small_v2),
          None)
    ∧ rate = (inject_Z (Z.of_nat (height small_v1)
                        - Z.of_nat (series_sum small_mask)) /
              inject_Z (Z.of_nat (height small_v1)))%Q
    ∧ (rate < 1)%Q.
Proof.
  apply (compare_high_mismatch false small_v1 small_v2 small_mask).
  - by vm_compute.
  - by vm_compute.
  - by vm_compute.
Defined.

Lemma compare_match_rate_witness :
  Float64.leb (Float64.of_int 0) (match_rate_float wide_result) = true
  ∧ Float64.leb (match_rate_float wide_result) (Float64.of_int 1) = true
  ∧ (0 <= match_rate wide_result <= 1)%Q
  ∧ (row_comparison_executes wide_v1 wide_v2 →
     ∃ mask,
       mismatch_mask true wide_v1 wide_v2 = Ok mask
       ∧ length mask = height wide_v1
       ∧ (match_rate wide_result ==
            1 - inject_Z (Z.of_nat (series_sum mask)) /
                inject_Z (Z.of_nat (height wide_v1)))%Q
       ∧ match_rate_float wide_result =
           if decide (series_sum mask = 0) then Float64.of_int 1
           else Float64.truediv
                  (Z.of_nat (height wide_v1) - Z.of_nat (series_sum mask))
                  (Z.of_nat (height wide_v1))).
Proof.
  apply (compare_match_rate true wide_v1 wide_v2 wide_result
           (Some wide_diffs)).
  - sample_wf.
  - sample_wf.
  - by vm_compute.
  - by vm_compute.
Defined.

(** The claim C5 as the specification words it, with the subtraction and
    the division done on floats: three rows of which one is flagged.  The
    field holds [2 / 3], the double 0.6666666666666666, and
    [1.0 - 1 / 3] is the next double, 0.6666666666666667. *)
Lemma match_rate_float_not_complement :
  compare false small_v1 small_v2 = Ok (small_result, None)
  ∧ row_comparison_executes small_v1 small_v2
  ∧ mismatch_mask false small_v1 small_v2 = Ok small_mask
  ∧ match_rate_float small_result = S754_finite false 6004799503160661 (-53)
  ∧ Float64.sub (Float64.of_int 1)
      (Float64.truediv (Z.of_nat (series_sum small_mask))
                       (Z.of_nat (height small_v1)))
    = S754_finite false 6004799503160662 (-53)
  ∧ match_rate_float small_result ≠
      Float64.sub (Float64.of_int 1)
        (Float64.truediv (Z.of_nat (series_sum small_mask))
                         (Z.of_nat (height small_v1))).
Proof. split_and!; by vm_compute. Qed.


Lemma differences_sorted_witness :
  StronglySorted diff_le wide_diffs
  ∧ (∀ diffs', _generate_differences_df wide_v1 wide_v2 wide_mask = Ok diffs' →
       diffs' = wide_diffs)
  ∧ (wf_df wide_v1 → wf_df wide_v2 → columns wide_v1 = columns wide_v2 →
     length wide_mask = height wide_v1 →
     ∀ l, l ≡ₚ wide_diffs → StronglySorted diff_le l → l = wide_diffs).
Proof.
  apply (differences_sorted wide_v1 wide_v2 wide_mask wide_diffs).
  by vm_compute.
Defined.

(** Called on headers-only frames, [_compare_data] itself divides by
    zero: the check at line 82 is what keeps [compare] from it. *)
Example _compare_data_zero_rows :
  _compare_data true headers_only headers_only (0, 2) (0, 2)
  = Raise ZeroDivisionError.
Proof. reflexivity. Qed.

(** On headers-only frames [compare] returns before the row comparison,
    which would raise on these. *)
Example headers_only_skips_row_comparison :
  mismatch_mask false headers_suffixed headers_suffixed = Raise DuplicateError
  ∧ compare false headers_suffixed headers_suffixed =
      Ok (mkCompareResult "Perfect match" 1 EmptyFiles (0, 2) (0, 2), None).
Proof. by vm_compute. Qed.

(** Above the threshold [compare] returns without entering
    [_generate_differences_df], which would raise on these frames. *)
Example high_mismatch_skips_differences :
  _generate_differences_df indexed_v1 indexed_v2 small_mask
    = Raise DuplicateError
  ∧ compare false indexed_v1 indexed_v2 =
      Ok (mkCompareResult "Data mismatch >10.0%" (2 # 3) (RowsDiffer 1)
            (3, 2) (3, 2),
          None).
Proof. by vm_compute. Qed.

(** One row of twenty differs, in both of its cells: both are itemised,
    "a" before "b". *)
Example compare_wide :
  compare false wide_v1 wide_v2 = Ok (wide_result, Some wide_diffs)
  ∧ compare true wide_v1 wide_v2 = Ok (wide_result, Some wide_diffs).
Proof. by vm_compute. Qed.

(** A ratio of exactly 0.10 is not above the threshold; of the flagged
    row only the cell that is null on one side is itemised. *)
Example compare_one_null :
  compare false nulled_v1 nulled_v2 =
    Ok (mkCompareResult "Data mismatch" (9 # 10) (RowsDiffer 1)
          (10, 2) (10, 2),
        Some [mkCellDifference 0 "A" "Int64" None (Some "0")]).
Proof. by vm_compute. Qed.

(** Names that differ as sets are reported by their symmetric
    difference. *)
Example compare_id_val :
  compare false id_val id_value =
    Ok (mkCompareResult "Column names mismatch" 0
          (DiffCols {["val"; "value"]}) (1, 2) (1, 2),
        None).
Proof. by vm_compute. Qed.

End samples_checked.

(** * Further properties of the sheet comparison *)

Section outcomes.
Context `{P : Polars}.

(** X1: frames of one shape with the same column names and different
    dtypes are a terminal "Column type mismatch" with match rate 0.0 and no
    frame of differences; the dict in the details is not empty, and holds a
    column with its two dtype names exactly when the dtypes of that column
    differ. *)
Theorem compare_type_mismatch (use_hash : bool) df1 df2 :
  shape df1 = shape df2 →
  columns df1 = columns df2 →
  dtypes df1 ≠ dtypes df2 →
  compare use_hash df1 df2 =
    Ok (mkCompareResult "Column type mismatch" 0
          (TypeDiffs (type_diff df1 df2)) (shape df1) (shape df2),
        None)
  ∧ type_diff df1 df2 ≠ []
  ∧ ∀ c t1 t2,
      (c, (t1, t2)) ∈ type_diff df1 df2 ↔
      ∃ j s1 s2, df1 !! j = Some s1 ∧ df2 !! j = Some s2
                 ∧ dtype s1 ≠ dtype s2 ∧ c = name s1
                 ∧ t1 = str_dtype (dtype s1) ∧ t2 = str_dtype (dtype s2).
Proof.
  intros Hshape Hcols Htypes.
  assert (∀ c t1 t2,
      (c, (t1, t2)) ∈ type_diff df1 df2 ↔
      ∃ j s1 s2, df1 !! j = Some s1 ∧ df2 !! j = Some s2
                 ∧ dtype s1 ≠ dtype s2 ∧ c = name s1
                 ∧ t1 = str_dtype (dtype s1) ∧ t2 = str_dtype (dtype s2))
    as Hiff.
  { intros c t1 t2. unfold type_diff. rewrite list_elem_of_omap. split.
    - intros ([c' [d1 d2]] & [j Hj]%list_elem_of_lookup_1 & Hf).
      case_decide as Hne; [|done]. injection Hf as <- <- <-.
      apply lookup_zip_with_Some in Hj as (? & [? ?] & [= <- <- <-] & Hc & Hd).
      apply lookup_zip_with_Some in Hd as (? & ? & [= <- <-] & Hd1 & Hd2).
      unfold columns in Hc. unfold dtypes in Hd1, Hd2.
      rewrite list_lookup_fmap in Hc. rewrite list_lookup_fmap in Hd1.
      rewrite list_lookup_fmap in Hd2.
      destruct (df1 !! j) as [s1|] eqn:H1; [|done].
      destruct (df2 !! j) as [s2|] eqn:H2; [|done].
      simplify_eq/=. by exists j, s1, s2.
    - intros (j & s1 & s2 & H1 & H2 & Hne & -> & -> & ->).
      exists (name s1, (dtype s1, dtype s2)). split.
      + apply list_elem_of_lookup_2 with j.
        apply lookup_zip_with_Some. do 2 eexists. split; [done|]. split.
        * unfold columns. by rewrite list_lookup_fmap, H1.
        * apply lookup_zip_with_Some. do 2 eexists. split; [done|].
          unfold dtypes. by rewrite !list_lookup_fmap, H1, H2.
      + by rewrite decide_True. }
  split_and!; [|  |done].
  - unfold compare. rewrite !decide_False by (by intros []).
    by rewrite decide_True.
  - apply same_shape in Hshape as [_ Hw].
    apply list_differ in Htypes as (j & t1 & t2 & Ht1 & Ht2 & Hne).
    2:{ unfold dtypes. by rewrite !length_fmap. }
    unfold dtypes in Ht1, Ht2.
    rewrite list_lookup_fmap in Ht1. rewrite list_lookup_fmap in Ht2.
    destruct (df1 !! j) as [s1|] eqn:H1; [|done].
    destruct (df2 !! j) as [s2|] eqn:H2; [|done].
    simplify_eq/=.
    assert ((name s1, (str_dtype (dtype s1), str_dtype (dtype s2)))
              ∈ type_diff df1 df2) as Hin.
    { apply Hiff. by exists j, s1, s2. }
    intros Hnil. rewrite Hnil in Hin. by apply elem_of_nil in Hin.
Qed.

(** X2: what a returned result tells: a frame of differences is attached
    exactly when the status is "Data mismatch"; the match rate is 1.0
    exactly when the status is "Perfect match", and 0.0 for the three
    structural mismatches; the two shapes are those of the frames. *)
Theorem compare_outcome_invariants (use_hash : bool) df1 df2
    (r : CompareResult) (d : option (list CellDifference)) :
  compare use_hash df1 df2 = Ok (r, d) →
  (is_Some d ↔ status r = "Data mismatch")
  ∧ (status r = "Perfect match" ↔ (match_rate r == 1)%Q)
  ∧ (status r ∈ ["Shape mismatch"; "Column names mismatch";
                 "Column type mismatch"] → (match_rate r == 0)%Q)
  ∧ status r ∈ ["Shape mismatch"; "Column names mismatch";
                "Column type mismatch"; "Perfect match";
                "Data mismatch >10.0%"; "Data mismatch"]
  ∧ shape1 r = shape df1 ∧ shape2 r = shape df2.
Proof.
  intros Hcmp.
  assert (∀ st : string,
            st ∈ ["Shape mismatch"; "Column names mismatch";
                  "Column type mismatch"] →
            st ≠ "Perfect match" ∧ st ≠ "Data mismatch >10.0%"
            ∧ st ≠ "Data mismatch") as Hstructural.
  { intros st Hin. rewrite !elem_of_cons, elem_of_nil in Hin.
    destruct Hin as [->|[->|[->|[]]]]; done. }
  destruct (compare_inv use_hash df1 df2)
    as [[Hs H]|[[Hc H]|[[Ht H]|[[Hh H]|[Hrun H]]]]];
    rewrite H in Hcmp.
  - injection Hcmp as <- <-. simpl. split_and!; [| | | |done..].
    + split; [by intros [? ?]|done].
    + split; [done|by vm_compute].
    + done.
    + rewrite !elem_of_cons. auto 10.
  - injection Hcmp as <- <-. simpl. split_and!; [| | | |done..].
    + split; [by intros [? ?]|done].
    + split; [done|by vm_compute].
    + done.
    + rewrite !elem_of_cons. auto 10.
  - injection Hcmp as <- <-. simpl. split_and!; [| | | |done..].
    + split; [by intros [? ?]|done].
    + split; [done|by vm_compute].
    + done.
    + rewrite !elem_of_cons. auto 10.
  - injection Hcmp as <- <-. simpl. split_and!; [| | | |done..].
    + split; [by intros [? ?]|done].
    + done.
    + by intros (? & _)%Hstructural.
    + rewrite !elem_of_cons. auto 10.
  - destruct Hrun as (_ & _ & _ & Hrows).
    apply _compare_data_inv in Hcmp as (mask & _ & _ & Hcases).
    simpl in Hcases.
    assert (∀ count, count ≠ 0 →
              ¬ (inject_Z (Z.of_nat (height df1) - Z.of_nat count) /
                 inject_Z (Z.of_nat (height df1)) == 1)%Q) as Hlt.
    { intros count Hcount Heq. rewrite rate_complement in Heq by done.
      pose proof (ratio_pos count (height df1) Hrows Hcount). lra. }
    destruct Hcases
      as [(_ & -> & ->)|[(Hc & _ & -> & ->)|(Hc & _ & diffs & _ & -> & ->)]];
      simpl; (split_and!; [| | | |done..]).
    + split; [by intros [? ?]|done].
    + done.
    + by intros (? & _)%Hstructural.
    + rewrite !elem_of_cons. auto 10.
    + split; [by intros [? ?]|done].
    + split; [done|]. intros Heq. by destruct (Hlt _ Hc).
    + by intros (_ & ? & _)%Hstructural.
    + rewrite !elem_of_cons. auto 10.
    + split; [by eexists|done].
    + split; [done|]. intros Heq. by destruct (Hlt _ Hc).
    + by intros (_ & _ & ?)%Hstructural.
    + rewrite !elem_of_cons. auto 10.
Qed.

End outcomes.

(** * Further properties of the frame of differences *)

Section differences_completeness.
Context `{P : Polars}.

(** What a flagged row holds is kept by the filter, in all columns at one
    position. *)
Lemma filter_mask_lookup_2 {A B} (mask : BoolSeries) (l : list A)
    (k : list B) (p : nat) (x : A) (y : B) :
  mask !! p = Some (Some true) → l !! p = Some x → k !! p = Some y →
  ∃ n, filter_mask mask l !! n = Some x ∧ filter_mask mask k !! n = Some y.
Proof.
  revert l k p. induction mask as [|m mask IH]; intros l k p; [done|].
  destruct l as [|x0 l]; [done|]. destruct k as [|y0 k]; [done|].
  rewrite !filter_mask_cons. destruct p as [|p]; simpl.
  - intros [= ->] [= ->] [= ->]. by exists 0.
  - intros Hm Hx Hy. destruct (IH l k p Hm Hx Hy) as (n & ? & ?).
    destruct (is_true_cell m); [by exists (S n)|by exists n].
Qed.

Lemma columns_filter_rows (mask : BoolSeries) (f : IndexedFrame) :
  columns (data (filter_rows mask f)) = columns (data f).
Proof. unfold columns. simpl. by rewrite <- list_fmap_compose. Qed.

(** On a frame with unique column names the selection of line 129 finds
    every column under its own name. *)
Lemma select_cast_utf8_columns (mask : BoolSeries) (f : IndexedFrame) :
  NoDup (columns (data f)) →
  select_cast_utf8 (filter_rows mask f) (columns (data f)) =
    Ok (mkStrFrame (filter_mask mask (index_col f))
          ((λ s, (name s, fmap (M:=list) (fmap cast_utf8)
                                (filter_mask mask (values s))))
             <$> data f)).
Proof.
  intros Hnd. unfold select_cast_utf8.
  rewrite (result_mapM_Ok _ _
    ((λ s, (name s, fmap (M:=list) (fmap cast_utf8)
                          (filter_mask mask (values s))))
       <$> data f)); [done|..].
  { unfold columns. by rewrite !length_fmap. }
  intros j c p Hc Hp. unfold columns in Hc.
  rewrite list_lookup_fmap in Hc. rewrite list_lookup_fmap in Hp.
  destruct (data f !! j) as [s|] eqn:Hs; [|done]. simplify_eq/=.
  unfold col_cast_utf8.
  rewrite (col_lookup _ j
             (mkSeries (name s) (dtype s) (filter_mask mask (values s)))).
  - done.
  - change (NoDup (columns (data (filter_rows mask f)))).
    by rewrite columns_filter_rows.
  - by rewrite list_lookup_fmap, Hs.
Qed.

(** The frame of differences of two frames with unique column names. *)
Lemma generated_differences_closed df1 df2 (mask : BoolSeries)
    (diffs : list CellDifference) :
  NoDup (columns df1) → NoDup (columns df2) →
  _generate_differences_df df1 df2 mask = Ok diffs →
  diffs =
    sort_diffs
      (join_schema
         (filter (λ j, is_true_cell (values_differ j) = true)
            (join
               (melt (mkStrFrame (filter_mask mask (seq 0 (height df1)))
                  ((λ s, (name s, fmap (M:=list) (fmap cast_utf8)
                                        (filter_mask mask (values s))))
                     <$> df1)))
               (melt (mkStrFrame (filter_mask mask (seq 0 (height df2)))
                  ((λ s, (name s, fmap (M:=list) (fmap cast_utf8)
                                        (filter_mask mask (values s))))
                     <$> df2)))))
         (schema_df df1)).
Proof.
  intros Hnd1 Hnd2 Hgen.
  unfold _generate_differences_df, with_row_index in Hgen.
  destruct (decide ("Row Index" ∈ columns df1)); [done|]. simpl in Hgen.
  destruct (decide ("Row Index" ∈ columns df2)); [done|]. simpl in Hgen.
  rewrite (select_cast_utf8_columns mask (mkIndexedFrame _ df1)) in Hgen
    by done.
  rewrite (select_cast_utf8_columns mask (mkIndexedFrame _ df2)) in Hgen
    by done.
  simpl in Hgen.
  apply bind_Ok in Hgen as (melt1 & Hmelt1 & Hgen).
  apply bind_Ok in Hgen as (melt2 & Hmelt2 & [= <-]).
  apply unpivot_Ok in Hmelt1 as (_ & _ & ->).
  apply unpivot_Ok in Hmelt2 as (_ & _ & ->).
  done.
Qed.

Lemma values_differ_ne (j : Joined) :
  is_true_cell (values_differ j) = true ↔ j_value_v1 j ≠ j_value_v2 j.
Proof.
  unfold values_differ.
  destruct (j_value_v1 j) as [x|], (j_value_v2 j) as [y|]; simpl;
    [|done..].
  case_bool_decide; simpl; split; congruence.
Qed.



(** X3: the frame of differences is complete up to rendering: for frames
    with unique column names and columns of one height, every cell of a
    flagged row whose two values render differently under [cast(pl.Utf8)]
    (or of which exactly one is null) has its row in the frame, with the
    name and dtype of its column and the two rendered values. *)
Theorem differences_complete df1 df2 (mask : BoolSeries)
    (diffs : list CellDifference) (i j : nat) (s1 s2 : Series)
    (a b : option value) :
  wf_df df1 → wf_df df2 → columns df1 = columns df2 →
  _generate_differences_df df1 df2 mask = Ok diffs →
  mask !! i = Some (Some true) →
  df1 !! j = Some s1 → df2 !! j = Some s2 →
  values s1 !! i = Some a → values s2 !! i = Some b →
  cast_utf8 <$> a ≠ cast_utf8 <$> b →
  mkCellDifference i (name s1) (str_dtype (dtype s1))
                   (cast_utf8 <$> a) (cast_utf8 <$> b) ∈ diffs.
Proof.
  intros Hwf1 Hwf2 Hcols Hgen Hflag Hj1 Hj2 Ha Hb Hne.
  assert (name s2 = name s1) as Hname.
  { symmetry. by eapply same_columns_lookup. }
  assert (∀ df s x, wf_df df → s ∈ df → values s !! i = Some x →
            mkMelted i (name s) (cast_utf8 <$> x)
            ∈ melt (mkStrFrame (filter_mask mask (seq 0 (height df)))
                 ((λ s, (name s,
                         fmap (M:=list) (fmap cast_utf8)
                              (filter_mask mask (values s))))
                    <$> df))) as Hmelt.
  { intros df s x Hwf Hs Hx. unfold melt. simpl.
    apply list_elem_of_bind. eexists. split.
    2:{ apply list_elem_of_fmap. by exists s. }
    simpl.
    destruct (filter_mask_lookup_2 mask (seq 0 (height df)) (values s)
                i i x) as (n & Hn1 & Hn2); [done| |done|].
    { apply lookup_seq. split; [done|].
      rewrite <- (wf_length df s) by done. by eapply lookup_lt_Some. }
    apply elem_of_lookup_zip_with. exists n, i, (cast_utf8 <$> x).
    split_and!; [done..|]. by rewrite list_lookup_fmap, Hn2. }
  apply generated_differences_closed in Hgen as ->;
    [|apply Hwf1|apply Hwf2].
  unfold sort_diffs. rewrite merge_sort_Permutation.
  apply elem_of_join_schema.
  exists (mkJoined i (name s1) (cast_utf8 <$> a) (cast_utf8 <$> b)),
         (name s1, str_dtype (dtype s1)).
  split_and!; [|..|done|done].
  - apply list_elem_of_filter. split; [by apply values_differ_ne|].
    apply elem_of_join.
    exists (mkMelted i (name s1) (cast_utf8 <$> a)),
           (mkMelted i (name s2) (cast_utf8 <$> b)).
    split_and!; [| |done|done|done].
    + apply Hmelt; [done| |done]. by eapply list_elem_of_lookup_2.
    + apply Hmelt; [done| |done]. by eapply list_elem_of_lookup_2.
  - unfold schema_df. apply list_elem_of_lookup_2 with j.
    apply lookup_zip_with_Some. do 2 eexists. split; [done|].
    unfold columns, dtypes. by rewrite !list_lookup_fmap, Hj1.
Qed.

End differences_completeness.

Section differences_size.
Context `{P : Polars}.

Lemma elem_of_filter_mask {A} (mask : BoolSeries) (l : list A) (x : A) :
  x ∈ filter_mask mask l → x ∈ l.
Proof.
  unfold filter_mask.
  intros ([m x'] & -> & [_ Hin]%list_elem_of_filter)%list_elem_of_fmap.
  by eapply elem_of_zip_r.
Qed.

Lemma NoDup_filter_mask {A} (mask : BoolSeries) (l : list A) :
  NoDup l → NoDup (filter_mask mask l).
Proof.
  revert l. induction mask as [|m mask IH]; intros [|x l] Hnd;
    [constructor..|].
  apply NoDup_cons in Hnd as [Hx Hnd]. rewrite filter_mask_cons.
  destruct (is_true_cell m); [|by apply IH].
  apply NoDup_cons. split; [|by apply IH].
  intros Hin%elem_of_filter_mask. done.
Qed.

Lemma length_filter_mask {A} (mask : BoolSeries) (l : list A) :
  length mask = length l → length (filter_mask mask l) = series_sum mask.
Proof.
  revert l. induction mask as [|m mask IH]; intros [|x l] Hlen;
    simplify_eq/=; [done|].
  rewrite filter_mask_cons. unfold series_sum. rewrite filter_cons.
  destruct (is_true_cell m) eqn:Hm; case_decide; try done; simpl.
  - f_equal. by apply IH.
  - by apply IH.
Qed.

Lemma same_name_same_series df (s s' : Series) :
  NoDup (columns df) → s ∈ df → s' ∈ df → name s = name s' → s = s'.
Proof.
  intros Hnd [j Hj]%list_elem_of_lookup_1 [j' Hj']%list_elem_of_lookup_1 Hn.
  assert (j = j') as -> by by eapply same_name_same_index.
  congruence.
Qed.

(** A melted frame has no row twice. *)
Lemma NoDup_unpivot df (mask : BoolSeries) :
  NoDup (columns df) →
  NoDup (melt (mkStrFrame (filter_mask mask (seq 0 (height df)))
           ((λ s, (name s, fmap (M:=list) (fmap cast_utf8)
                                (filter_mask mask (values s))))
              <$> df))).
Proof.
  intros Hnd. unfold melt. simpl. apply NoDup_bind.
  - intros p1 p2 m (s1 & -> & Hs1)%list_elem_of_fmap
                   (s2 & -> & Hs2)%list_elem_of_fmap. simpl.
    intros (? & ? & ? & -> & _)%elem_of_lookup_zip_with
           (? & ? & ? & Heq & _)%elem_of_lookup_zip_with.
    injection Heq as ? Hn ?.
    by rewrite (same_name_same_series df s1 s2).
  - intros p _. apply NoDup_zip_with_l_strong.
    + intros i1 i2 x1 x2 y1 y2 _ _ _ _ Heq. by injection Heq.
    + apply NoDup_filter_mask, NoDup_seq.
  - apply NoDup_fmap_2_strong; [|by apply NoDup_fmap_1 in Hnd].
    intros s1 s2 Hs1 Hs2 Heq. apply (same_name_same_series df); [done..|].
    by injection Heq.
Qed.

Lemma NoDup_join (melt1 melt2 : list Melted) :
  NoDup melt1 → NoDup melt2 → NoDup (join melt1 melt2).
Proof.
  intros Hnd1 Hnd2. unfold join. apply NoDup_bind; [| |done].
  - intros l1 l2 y _ _
      (r1 & ->%list_elem_of_singleton & _)%list_elem_of_bind
      (r2 & Heq%list_elem_of_singleton & _)%list_elem_of_bind.
    destruct l1, l2; simplify_eq/=. done.
  - intros l _. apply NoDup_bind.
    + intros r1 r2 y [[Hi1 Hc1] _]%list_elem_of_filter
                     [[Hi2 Hc2] _]%list_elem_of_filter
        ->%list_elem_of_singleton Heq%list_elem_of_singleton.
      destruct r1, r2; simplify_eq/=. done.
    + intros. apply NoDup_singleton.
    + by apply NoDup_filter.
Qed.

Lemma NoDup_join_schema (diff_df : list Joined)
    (schema : list (string * string)) :
  NoDup diff_df → NoDup schema → NoDup (join_schema diff_df schema).
Proof.
  intros Hnd1 Hnd2. unfold join_schema. apply NoDup_bind; [| |done].
  - intros j1 j2 y _ _
      (p1 & ->%list_elem_of_singleton & _)%list_elem_of_bind
      (p2 & Heq%list_elem_of_singleton & _)%list_elem_of_bind.
    destruct j1, j2; simplify_eq/=. done.
  - intros j _. apply NoDup_bind.
    + intros [c1 t1] [c2 t2] y [Hc1 _]%list_elem_of_filter
                               [Hc2 _]%list_elem_of_filter
        ->%list_elem_of_singleton Heq%list_elem_of_singleton.
      simplify_eq/=. done.
    + intros. apply NoDup_singleton.
    + by apply NoDup_filter.
Qed.

(** The frame of differences has no row twice. *)
Lemma NoDup_generated_differences df1 df2 (mask : BoolSeries)
    (diffs : list CellDifference) :
  wf_df df1 → wf_df df2 →
  _generate_differences_df df1 df2 mask = Ok diffs → NoDup diffs.
Proof.
  intros [Hnd1 _] [Hnd2 _] Hgen.
  apply generated_differences_closed in Hgen as ->; [|done..].
  unfold sort_diffs. rewrite merge_sort_Permutation.
  apply NoDup_join_schema.
  - apply NoDup_filter, NoDup_join; by apply NoDup_unpivot.
  - unfold schema_df. by apply NoDup_zip_l.
Qed.

Lemma generated_differences_bound df1 df2 (mask : BoolSeries)
    (diffs : list CellDifference) :
  wf_df df1 → wf_df df2 → columns df1 = columns df2 →
  length mask = height df1 →
  _generate_differences_df df1 df2 mask = Ok diffs →
  NoDup ((λ d, (row_index d, column_name d)) <$> diffs)
  ∧ length diffs ≤ series_sum mask * width df1.
Proof.
  intros Hwf1 Hwf2 Hcols Hlen Hgen.
  assert (NoDup ((λ d, (row_index d, column_name d)) <$> diffs)) as Hkeys.
  { apply NoDup_fmap_2_strong.
    - intros d1 d2 Hd1 Hd2 [= Hrow Hcol].
      by apply (generated_difference_key df1 df2 mask diffs).
    - by apply (NoDup_generated_differences df1 df2 mask). }
  split; [done|].
  rewrite <- (length_fmap (λ d, (row_index d, column_name d)) diffs).
  rewrite <- (length_filter_mask mask (seq 0 (height df1)))
    by (by rewrite length_seq).
  unfold width. rewrite <- (length_fmap name df1).
  rewrite <- length_prod, <- list_cprod_list_prod.
  apply submseteq_length, NoDup_submseteq; [done|].
  intros [i c] (d & [= -> ->] & Hd)%list_elem_of_fmap.
  destruct (generated_difference_cell _ _ _ _ _ Hwf1 Hwf2 Hcols Hlen Hgen Hd)
    as (Hflag & j & s1 & s2 & a & b & Hj1 & _ & Hn & Ha & _).
  apply list_elem_of_cprod. simpl. split.
  - assert (row_index d < height df1) as Hlt.
    { rewrite <- (wf_length df1 s1) by
        (done || by eapply list_elem_of_lookup_2).
      by eapply lookup_lt_Some. }
    destruct (filter_mask_lookup_2 mask (seq 0 (height df1))
                (seq 0 (height df1)) (row_index d) (row_index d)
                (row_index d)) as (n & Hn1 & _); [done|..].
    1-2: by apply lookup_seq.
    by eapply list_elem_of_lookup_2.
  - rewrite <- Hn. apply list_elem_of_fmap. exists s1. split; [done|].
    by eapply list_elem_of_lookup_2.
Qed.

(** X4: for well-formed frames with the same column names and a mask of
    their height, the frame of differences has at most one row for a pair
    of row index and column name, and so at most as many rows as there
    are flagged rows times columns. *)
Theorem differences_unique_and_bounded df1 df2 (mask : BoolSeries)
    (diffs : list CellDifference) :
  wf_df df1 → wf_df df2 → columns df1 = columns df2 →
  length mask = height df1 →
  _generate_differences_df df1 df2 mask = Ok diffs →
  NoDup ((λ d, (row_index d, column_name d)) <$> diffs)
  ∧ length diffs ≤ series_sum mask * width df1.
Proof. apply generated_differences_bound. Qed.

(** A ratio within the threshold: at most one row in ten is flagged. *)
Lemma ratio_within_threshold (count rows : nat) :
  rows ≠ 0 →
  (inject_Z (Z.of_nat count) / inject_Z (Z.of_nat rows)
   <= Config.MISMATCH_THRESHOLD)%Q →
  10 * count ≤ rows.
Proof.
  intros Hrows Hratio.
  assert (0 < inject_Z (Z.of_nat rows))%Q as Hpos.
  { change 0%Q with (inject_Z 0). rewrite <- Zlt_Qlt. lia. }
  assert (inject_Z (Z.of_nat count)
          <= Config.MISMATCH_THRESHOLD * inject_Z (Z.of_nat rows))%Q as Hle.
  { assert (inject_Z (Z.of_nat count) ==
            inject_Z (Z.of_nat count) / inject_Z (Z.of_nat rows)
            * inject_Z (Z.of_nat rows))%Q as Heq by (field; lra).
    rewrite Heq at 1. apply Qmult_le_compat_r; [done|lra]. }
  unfold Config.MISMATCH_THRESHOLD, Qle in Hle. simpl in Hle. lia.
Qed.

(** X5: the frame of differences that [compare] returns has at most a
    tenth as many rows as the sheet has cells: the threshold bounds the
    flagged rows, and each contributes at most one row per column. *)
Theorem compare_differences_bounded (use_hash : bool) df1 df2
    (r : CompareResult) (diffs : list CellDifference) :
  wf_df df1 → wf_df df2 →
  compare use_hash df1 df2 = Ok (r, Some diffs) →
  10 * length diffs ≤ height df1 * width df1.
Proof.
  intros Hwf1 Hwf2
    ((Hshape & Hcols & _ & Hrows) & mask & Hmask & _ & Hratio & Hgen)
      %compare_Some_inv.
  pose proof (mismatch_mask_length _ _ _ _ Hwf1 Hwf2 Hshape Hcols Hmask)
    as Hlen.
  destruct (generated_differences_bound df1 df2 mask diffs)
    as [_ Hbound]; [done..|].
  pose proof (ratio_within_threshold _ _ Hrows Hratio). nia.
Qed.

End differences_size.

(** * The two strategies and the exceptions of [compare] *)

Lemma string_length_app (s1 s2 : string) :
  String.length (s1 +:+ s2) = String.length s1 + String.length s2.
Proof. induction s1 as [|c s1 IH]; simpl; [done|]. by rewrite IH. Qed.

Section strategies.
Context `{P : Polars}.

#[global] Instance v2_inj : Inj (=) (=) v2.
Proof.
  unfold v2. intros c1. induction c1 as [|x c1 IH]; intros [|y c2] Heq.
  - done.
  - apply (f_equal String.length) in Heq. simpl in Heq.
    rewrite string_length_app in Heq. simpl in Heq. lia.
  - apply (f_equal String.length) in Heq. simpl in Heq.
    rewrite string_length_app in Heq. simpl in Heq. lia.
  - simpl in Heq. injection Heq as -> Heq. f_equal. by apply IH.
Qed.

(** The concatenation of line 95 is accepted exactly when no column name
    is another column name followed by "_v2". *)
Lemma no_name_collision_iff df1 df2 :
  NoDup (columns df1) → columns df1 = columns df2 →
  no_name_collision df1 df2 ↔
  ∀ c, c ∈ columns df1 → v2 c ∉ columns df1.
Proof.
  intros Hnd Hcols. unfold no_name_collision. rewrite <- Hcols, NoDup_app.
  split.
  - intros (_ & Hdisj & _) c Hc Hv. apply (Hdisj (v2 c)); [done|].
    apply list_elem_of_fmap. by exists c.
  - intros Hno. split_and!; [done| |by apply (NoDup_fmap_2 v2)].
    intros c Hc (c' & -> & Hc')%list_elem_of_fmap. by apply (Hno c').
Qed.

Lemma series_sum_mono (mask1 mask2 : BoolSeries) :
  length mask1 = length mask2 →
  (∀ i, mask1 !! i = Some (Some true) → mask2 !! i = Some (Some true)) →
  series_sum mask1 ≤ series_sum mask2.
Proof.
  revert mask2. induction mask1 as [|m1 mask1 IH]; intros [|m2 mask2] Hlen Himp;
    simplify_eq/=; [done|].
  unfold series_sum. rewrite !filter_cons.
  assert (length (filter (λ m, is_true_cell m = true) mask1)
          ≤ length (filter (λ m, is_true_cell m = true) mask2)) as Hrec.
  { apply IH; [done|]. intros i. apply (Himp (S i)). }
  destruct (decide (is_true_cell m1 = true)) as [H1|H1],
           (decide (is_true_cell m2 = true)) as [H2|H2]; simpl; try lia.
  destruct m1 as [[|]|]; try done. by specialize (Himp 0 eq_refl) as [= ->].
Qed.

Lemma row_eq_no_mismatch df1 df2 (i : nat) :
  wf_df df1 → wf_df df2 → shape df1 = shape df2 → i < height df1 →
  row df1 i = row df2 i → ¬ row_mismatched df1 df2 i.
Proof.
  intros Hwf1 Hwf2 [Hh _]%same_shape Hi Hrow (j & a & b & Ha & Hb & Hab).
  apply fieldwise_mismatch_ne in Hab.
  apply bind_Some in Ha as (s1 & Hj1 & Ha).
  apply bind_Some in Hb as (s2 & Hj2 & Hb).
  destruct (row_lookup df1 i j s1) as (a' & Ha' & Hra); [done..|].
  destruct (row_lookup df2 i j s2) as (b' & Hb' & Hrb); [done|lia|done|].
  rewrite Hrow in Hra. congruence.
Qed.

(** The masks of the two strategies, for frames on which both return. *)
Lemma hash_mask_below_fieldwise df1 df2 (mask_h mask_f : BoolSeries) :
  wf_df df1 → wf_df df2 →
  shape df1 = shape df2 → columns df1 = columns df2 →
  mismatch_mask true df1 df2 = Ok mask_h →
  mismatch_mask false df1 df2 = Ok mask_f →
  length mask_h = length mask_f
  ∧ (∀ i, mask_h !! i = Some (Some true) → mask_f !! i = Some (Some true))
  ∧ ((∀ i, i < height df1 →
        row_hash (row df1 i) = row_hash (row df2 i) →
        row df1 i = row df2 i) →
     mask_h = mask_f).
Proof.
  intros Hwf1 Hwf2 Hshape Hcols Hh Hf.
  pose proof (mismatch_mask_length _ _ _ _ Hwf1 Hwf2 Hshape Hcols Hh) as Hlh.
  pose proof (mismatch_mask_length _ _ _ _ Hwf1 Hwf2 Hshape Hcols Hf) as Hlf.
  pose proof (mismatch_mask_fieldwise_inv _ _ _ Hf) as [Hnd Hne].
  destruct (fieldwise_mask_spec df1 df2) as (mask' & Hmask' & _ & Hrows);
    [done..|].
  assert (mask' = mask_f) as -> by congruence. clear Hmask'.
  split_and!.
  - congruence.
  - intros i Hi.
    assert (i < height df1) as Hlt.
    { rewrite <- Hlh. by eapply lookup_lt_Some. }
    destruct (Hrows i Hlt) as (x & -> & Hiff). do 2 f_equal.
    apply Hiff. by eapply (mismatch_mask_sound true).
  - intros Hinj. apply list_eq. intros i.
    destruct (decide (i < height df1)) as [Hlt|Hge].
    + injection Hh as <-. rewrite hash_mask_lookup by done.
      destruct (Hrows i Hlt) as (x & -> & Hiff). do 2 f_equal.
      case_bool_decide as Hhash.
      * symmetry. apply Hiff. apply row_ne_mismatched; [done..|]. congruence.
      * destruct x; [|done].
        destruct (row_eq_no_mismatch df1 df2 i); [done..|by apply Hinj|].
        by apply Hiff.
    + rewrite !(proj2 (lookup_ge_None _ _)); [done|lia..].
Qed.

(** X6: the hash strategy never flags a row that the field-wise strategy
    does not flag: on well-formed frames of one shape and schema for which
    both return a mask, its mismatch count is at most the field-wise
    count. *)
Theorem hash_flags_at_most_fieldwise df1 df2 (mask_h mask_f : BoolSeries) :
  wf_df df1 → wf_df df2 →
  shape df1 = shape df2 → columns df1 = columns df2 →
  mismatch_mask true df1 df2 = Ok mask_h →
  mismatch_mask false df1 df2 = Ok mask_f →
  (∀ i, mask_h !! i = Some (Some true) → mask_f !! i = Some (Some true))
  ∧ series_sum mask_h ≤ series_sum mask_f.
Proof.
  intros Hwf1 Hwf2 Hshape Hcols Hh Hf.
  destruct (hash_mask_below_fieldwise df1 df2 mask_h mask_f)
    as (Hlen & Himp & _); [done..|].
  split; [done|]. by apply series_sum_mono.
Qed.

(** X7: when no two corresponding rows with different contents have the
    same hash, and no column name is another column name followed by
    "_v2", the two strategies give the same outcome. *)
Theorem compare_strategies_agree df1 df2 :
  wf_df df1 → wf_df df2 →
  (∀ c, c ∈ columns df1 → v2 c ∉ columns df1) →
  (∀ i, i < height df1 →
     row_hash (row df1 i) = row_hash (row df2 i) → row df1 i = row df2 i) →
  compare true df1 df2 = compare false df1 df2.
Proof.
  intros Hwf1 Hwf2 Hno Hinj. unfold compare.
  destruct (decide (shape df1 ≠ shape df2)) as [|Hshape%dec_stable]; [done|].
  destruct (decide (columns df1 ≠ columns df2)) as [|Hcols%dec_stable];
    [done|].
  destruct (decide (dtypes df1 ≠ dtypes df2)) as [|Htypes%dec_stable];
    [done|].
  destruct (decide ((shape df1).1 = 0)) as [|Hrows]; [done|]. simpl in Hrows.
  assert (df1 ≠ []) as Hne by (by intros ->).
  assert (no_name_collision df1 df2) as Hnd.
  { apply no_name_collision_iff; [apply Hwf1|done..]. }
  destruct (fieldwise_mask_spec df1 df2) as (mask_f & Hf & _); [done..|].
  destruct (hash_mask_below_fieldwise df1 df2
              (series_ne (hash_rows df1) (hash_rows df2)) mask_f)
    as (_ & _ & Heq); [done..|].
  unfold _compare_data. rewrite Hf. simpl mismatch_mask.
  by rewrite (Heq Hinj).
Qed.

End strategies.

Section exceptions.
Context `{P : Polars}.

(** X8: a sheet with a column of a reserved name: "Row Index",
    "Column Name", "Value V1" or "Value V2".  When row comparison runs,
    some row is flagged and the ratio is within the threshold, [compare]
    raises polars' DuplicateError exactly when the sheet has such a column
    (from [with_row_index] at line 125, or from [unpivot] at line 133 or
    134), and returns "Data mismatch" with a frame of differences when it
    has none. *)
Theorem compare_reserved_column_name (use_hash : bool) df1 df2
    (mask : BoolSeries) :
  row_comparison_executes df1 df2 →
  mismatch_mask use_hash df1 df2 = Ok mask →
  series_sum mask ≠ 0 →
  (inject_Z (Z.of_nat (series_sum mask)) /
   inject_Z (Z.of_nat (height df1)) <= Config.MISMATCH_THRESHOLD)%Q →
  (compare use_hash df1 df2 = Raise DuplicateError
   ↔ ∃ c, c ∈ reserved_names ∧ c ∈ columns df1)
  ∧ ((∀ c, c ∈ reserved_names → c ∉ columns df1) →
     ∃ rate diffs,
       compare use_hash df1 df2 =
         Ok (mkCompareResult "Data mismatch" rate
               (RowsDiffer (series_sum mask)) (shape df1) (shape df2),
             Some diffs)).
Proof.
  intros Hrun Hmask Hcount Hratio.
  pose proof Hrun as (_ & Hcols & _ & Hrows).
  rewrite compare_row_stage by done. unfold _compare_data.
  rewrite Hmask. simpl. rewrite !truediv_Ok by lia. simpl.
  rewrite decide_False by done.
  assert (Qgtb (inject_Z (Z.of_nat (series_sum mask)) /
                inject_Z (Z.of_nat (height df1)))
               Config.MISMATCH_THRESHOLD = false) as ->.
  { apply not_true_iff_false. intros Hgt%Qgtb_lt. by apply Qlt_not_le in Hgt. }
  assert ((∀ c, c ∈ reserved_names → c ∉ columns df1) →
          ∃ diffs, _generate_differences_df df1 df2 mask = Ok diffs)
    as Hreturns.
  { intros Hno. apply _generate_differences_df_Ok; [done|].
    by rewrite <- Hcols. }
  split; [split|].
  - intros Hraise.
    destruct (decide (Exists (λ c, c ∈ columns df1) reserved_names))
      as [(c & ? & ?)%Exists_exists|Hno]; [by exists c|].
    exfalso. destruct Hreturns as [diffs Hgen].
    { intros c Hc Hin. apply Hno, Exists_exists. by exists c. }
    by rewrite Hgen in Hraise.
  - intros Hex. by rewrite _generate_differences_df_reserved.
  - intros Hno. destruct (Hreturns Hno) as [diffs ->].
    simpl. by do 2 eexists.
Qed.

(** X9: the field-wise strategy and suffixed column names.  On
    well-formed frames with the same column names, the mask computation
    raises polars' DuplicateError exactly when some column name is another
    column name followed by "_v2"; [compare] then raises it whenever row
    comparison runs. *)
Theorem fieldwise_raises_on_suffixed_name df1 df2 :
  wf_df df1 → wf_df df2 →
  shape df1 = shape df2 → columns df1 = columns df2 → df1 ≠ [] →
  (mismatch_mask false df1 df2 = Raise DuplicateError
   ↔ ∃ c, c ∈ columns df1 ∧ v2 c ∈ columns df1)
  ∧ ((∃ c, c ∈ columns df1 ∧ v2 c ∈ columns df1) →
     row_comparison_executes df1 df2 →
     compare false df1 df2 = Raise DuplicateError).
Proof.
  intros Hwf1 Hwf2 Hshape Hcols Hne.
  assert ((∃ c, c ∈ columns df1 ∧ v2 c ∈ columns df1)
          → ¬ no_name_collision df1 df2) as Hcoll.
  { intros (c & Hc & Hv) Hnd.
    pose proof (proj1 (no_name_collision_iff df1 df2 (proj1 Hwf1) Hcols) Hnd)
      as Hno.
    by apply (Hno c). }
  split; [split|].
  - intros Hraise.
    destruct (decide (Exists (λ c, v2 c ∈ columns df1) (columns df1)))
      as [(c & ? & ?)%Exists_exists|Hno]; [by exists c|].
    exfalso.
    destruct (fieldwise_mask_spec df1 df2) as (mask & Hmask & _);
      [done..| |done|congruence].
    apply no_name_collision_iff; [apply Hwf1|done|].
    intros c Hc Hv. apply Hno, Exists_exists. by exists c.
  - intros Hex. by apply mismatch_mask_collision, Hcoll.
  - intros Hex Hrun. by apply compare_collision, Hcoll.
Qed.

(** X10: [compare] returns a result, under either strategy, for all
    well-formed frames without a column of a reserved name ("Row Index",
    "Column Name", "Value V1", "Value V2") and without a column name that
    is another column name followed by "_v2". *)
Theorem compare_returns (use_hash : bool) df1 df2 :
  wf_df df1 → wf_df df2 →
  (∀ c, c ∈ reserved_names → c ∉ columns df1) →
  (∀ c, c ∈ columns df1 → v2 c ∉ columns df1) →
  ∃ r d, compare use_hash df1 df2 = Ok (r, d).
Proof.
  intros Hwf1 Hwf2 Hres Hno.
  destruct (compare_inv use_hash df1 df2)
    as [[Hs H]|[[Hc H]|[[Ht H]|[[Hh H]|[Hrun H]]]]]; rewrite H;
    [by do 2 eexists..|].
  pose proof Hrun as (Hshape & Hcols & _ & Hrows).
  assert (∃ mask, mismatch_mask use_hash df1 df2 = Ok mask) as [mask Hmask].
  { destruct use_hash; [by eexists|].
    destruct (fieldwise_mask_spec df1 df2) as (mask & Hmask & _);
      [done..| | |by exists mask].
    - apply no_name_collision_iff; [apply Hwf1|done..].
    - by intros ->. }
  unfold _compare_data. rewrite Hmask. simpl.
  rewrite !truediv_Ok by lia. simpl.
  case_decide; [by do 2 eexists|].
  destruct (Qgtb _ _); [by do 2 eexists|].
  destruct (_generate_differences_df_Ok df1 df2 mask) as [diffs ->];
    [done|by rewrite <- Hcols|].
  simpl. by do 2 eexists.
Qed.

End exceptions.

(** * The comparison and the order of its two sheets *)

Section symmetry.
Context `{P : Polars}.

Lemma row_mismatched_sym df1 df2 (i : nat) :
  row_mismatched df1 df2 i → row_mismatched df2 df1 i.
Proof.
  intros (j & a & b & Ha & Hb & Hab). exists j, b, a. split_and!; [done..|].
  apply fieldwise_mismatch_ne. apply fieldwise_mismatch_ne in Hab. congruence.
Qed.

Lemma series_ne_sym {A} `{EqDecision A} (s1 s2 : list A) :
  series_ne s2 s1 = series_ne s1 s2.
Proof.
  unfold series_ne. revert s2. induction s1 as [|a s1 IH]; intros [|b s2];
    [done..|].
  simpl. rewrite IH. do 2 f_equal. apply bool_decide_ext. split; congruence.
Qed.

Lemma mismatch_mask_sym (use_hash : bool) df1 df2 (mask : BoolSeries) :
  wf_df df1 → wf_df df2 →
  shape df1 = shape df2 → columns df1 = columns df2 →
  mismatch_mask use_hash df1 df2 = Ok mask →
  mismatch_mask use_hash df2 df1 = Ok mask.
Proof.
  intros Hwf1 Hwf2 Hshape Hcols Hmask. destruct use_hash.
  - simpl in *. by rewrite series_ne_sym.
  - pose proof (mismatch_mask_fieldwise_inv _ _ _ Hmask) as [Hnd Hne].
    pose proof Hshape as [Hh Hw]%same_shape.
    destruct (fieldwise_mask_spec df1 df2) as (m1 & Hm1 & Hlen1 & Hrows1);
      [done..|].
    destruct (fieldwise_mask_spec df2 df1) as (m2 & Hm2 & Hlen2 & Hrows2);
      [done..| | |].
    { unfold no_name_collision in *. by rewrite <- Hcols in Hnd |- *. }
    { intros ->. by destruct df1. }
    rewrite Hm2. f_equal. rewrite Hmask in Hm1. injection Hm1 as <-.
    apply list_eq. intros i.
    destruct (decide (i < height df1)) as [Hi|Hi].
    + destruct (Hrows1 i Hi) as (x1 & -> & Hx1).
      destruct (Hrows2 i ltac:(lia)) as (x2 & -> & Hx2).
      do 2 f_equal. apply eq_bool_prop_intro.
      rewrite !Is_true_true, Hx1, Hx2.
      split; apply row_mismatched_sym.
    + rewrite !(proj2 (lookup_ge_None _ _)); [done|lia..].
Qed.

(** The rows of the frame of differences, on frames with unique column
    names: the pairs of melted cells of one row index and column name whose
    rendered values differ, each with the dtype of its column. *)
Lemma elem_of_generated_differences df1 df2 (mask : BoolSeries)
    (diffs : list CellDifference) (d : CellDifference) :
  wf_df df1 → wf_df df2 →
  _generate_differences_df df1 df2 mask = Ok diffs →
  d ∈ diffs ↔
  ∃ l r p,
    l ∈ melt (mkStrFrame (filter_mask mask (seq 0 (height df1)))
           ((λ s, (name s, fmap (M:=list) (fmap cast_utf8)
                                 (filter_mask mask (values s)))) <$> df1))
    ∧ r ∈ melt (mkStrFrame (filter_mask mask (seq 0 (height df2)))
           ((λ s, (name s, fmap (M:=list) (fmap cast_utf8)
                                 (filter_mask mask (values s)))) <$> df2))
    ∧ m_row_index r = m_row_index l
    ∧ m_column_name r = m_column_name l
    ∧ m_value l ≠ m_value r
    ∧ p ∈ schema_df df1 ∧ p.1 = m_column_name l
    ∧ d = mkCellDifference (m_row_index l) (m_column_name l) p.2
                           (m_value l) (m_value r).
Proof.
  intros [Hnd1 _] [Hnd2 _] Hgen.
  apply generated_differences_closed in Hgen as ->; [|done..].
  unfold sort_diffs. rewrite merge_sort_Permutation.
  rewrite elem_of_join_schema. split.
  - intros (j & p & [Hv Hj]%list_elem_of_filter & Hp & Hpc & ->).
    apply elem_of_join in Hj as (l & r & Hl & Hr & Hri & Hrc & ->).
    apply values_differ_ne in Hv. simpl in *. by exists l, r, p.
  - intros (l & r & p & Hl & Hr & Hri & Hrc & Hne & Hp & Hpc & ->).
    exists (mkJoined (m_row_index l) (m_column_name l)
                     (m_value l) (m_value r)), p.
    split_and!; [|done..]. apply list_elem_of_filter. split.
    + by apply values_differ_ne.
    + apply elem_of_join. by exists l, r.
Qed.

#[global] Instance swap_versions_inj : Inj (=) (=) swap_versions.
Proof. intros [] []. unfold swap_versions. simpl. congruence. Qed.

(** With the two frames exchanged, the frame of differences has its two
    value columns exchanged. *)
Lemma generated_differences_swap df1 df2 (mask : BoolSeries)
    (diffs : list CellDifference) :
  wf_df df1 → wf_df df2 →
  shape df1 = shape df2 → columns df1 = columns df2 →
  dtypes df1 = dtypes df2 → length mask = height df1 →
  _generate_differences_df df1 df2 mask = Ok diffs →
  _generate_differences_df df2 df1 mask = Ok (swap_versions <$> diffs).
Proof.
  intros Hwf1 Hwf2 Hshape Hcols Htypes Hlen Hgen.
  pose proof Hshape as [Hh Hw]%same_shape.
  pose proof (_generate_differences_df_names df1 df2 mask diffs Hcols Hgen)
    as Hres.
  destruct (_generate_differences_df_Ok df2 df1 mask) as [diffs' Hgen'];
    [by rewrite <- Hcols|done|].
  rewrite Hgen'. f_equal.
  apply (sorted_arrangement_unique diff_le).
  - intros d1 d2 Hd1 Hd2 H12 H21.
    destruct (diff_le_antisym_key d1 d2) as [Hrow Hcol]; [done..|].
    apply (generated_difference_key df2 df1 mask diffs'); try done.
    lia.
  - by eapply generated_differences_sorted.
  - apply (StronglySorted_fmap _ diff_le); [by intros [] []|].
    by eapply generated_differences_sorted.
  - apply NoDup_Permutation.
    + by apply (NoDup_generated_differences df2 df1 mask).
    + apply (NoDup_fmap_2 _).
      by apply (NoDup_generated_differences df1 df2 mask).
    + intros d.
      rewrite (elem_of_generated_differences df2 df1 mask diffs') by done.
      rewrite list_elem_of_fmap.
      setoid_rewrite (elem_of_generated_differences df1 df2 mask diffs);
        [|done..].
      assert (schema_df df2 = schema_df df1) as ->.
      { unfold schema_df. by rewrite Hcols, Htypes. }
      split.
      * intros (l & r & p & Hl & Hr & Hri & Hrc & Hne & Hp & Hpc & ->).
        eexists. split; [|exists r, l, p; split_and!; try done].
        -- unfold swap_versions. simpl. by rewrite Hri, Hrc.
        -- congruence.
      * intros (d0 & -> & l & r & p & Hl & Hr & Hri & Hrc & Hne & Hp & Hpc
                & ->).
        exists r, l, p. split_and!; try done.
        -- congruence.
        -- unfold swap_versions. simpl. by rewrite Hri, Hrc.
Qed.

(** X11: exchanging the two sheets.  For frames with unique column names
    and columns of one height, when [compare] returns for V1 against V2 it
    returns for V2 against V1 with the same status and match rate, the two
    shapes exchanged, and the same frame of differences with its two value
    columns exchanged. *)
Theorem compare_symmetric (use_hash : bool) df1 df2
    (r : CompareResult) (d : option (list CellDifference)) :
  wf_df df1 → wf_df df2 →
  compare use_hash df1 df2 = Ok (r, d) →
  ∃ r',
    compare use_hash df2 df1 = Ok (r', fmap (M:=list) swap_versions <$> d)
    ∧ status r' = status r ∧ match_rate r' = match_rate r
    ∧ shape1 r' = shape2 r ∧ shape2 r' = shape1 r.
Proof.
  intros Hwf1 Hwf2 Hcmp. unfold compare in Hcmp |- *.
  destruct (decide (shape df1 ≠ shape df2)) as [Hs|Hs%dec_stable].
  { injection Hcmp as <- <-. rewrite decide_True by done. by eexists. }
  rewrite (decide_False (P:=shape df2 ≠ shape df1)) by (by intros []).
  destruct (decide (columns df1 ≠ columns df2)) as [Hc|Hc%dec_stable].
  { injection Hcmp as <- <-. rewrite decide_True by done. by eexists. }
  rewrite (decide_False (P:=columns df2 ≠ columns df1)) by (by intros []).
  destruct (decide (dtypes df1 ≠ dtypes df2)) as [Ht|Ht%dec_stable].
  { injection Hcmp as <- <-. rewrite decide_True by done. by eexists. }
  rewrite (decide_False (P:=dtypes df2 ≠ dtypes df1)) by (by intros []).
  pose proof Hs as [Hh Hw]%same_shape.
  destruct (decide ((shape df1).1 = 0)) as [Hrows|Hrows]; simpl in Hrows.
  { injection Hcmp as <- <-. rewrite decide_True by (simpl; lia).
    by eexists. }
  rewrite decide_False by (simpl; lia).
  apply _compare_data_inv in Hcmp as (mask & Hmask & _ & Hcases).
  simpl in Hcases. unfold _compare_data.
  rewrite (mismatch_mask_sym use_hash df1 df2 mask) by done. simpl.
  rewrite <- Hh. rewrite !truediv_Ok by lia. simpl.
  destruct Hcases
    as [(Hcount & -> & ->)|[(Hcount & Hratio & -> & ->)
                           |(Hcount & Hratio & diffs & Hgen & -> & ->)]].
  - rewrite decide_True by done. by eexists.
  - rewrite decide_False by done.
    rewrite (proj2 (Qgtb_lt _ _)) by done. by eexists.
  - rewrite decide_False by done.
    assert (Qgtb (inject_Z (Z.of_nat (series_sum mask)) /
                  inject_Z (Z.of_nat (height df1)))
                 Config.MISMATCH_THRESHOLD = false) as ->.
    { apply not_true_iff_false. intros Hgt%Qgtb_lt.
      by apply Qlt_not_le in Hgt. }
    rewrite (generated_differences_swap df1 df2 mask diffs); try done.
    + simpl. by eexists.
    + by eapply mismatch_mask_length.
Qed.

(** X12: a sheet compared with itself is a "Perfect match" with match rate
    1.0 and no frame of differences: always under the hash strategy, and
    under the field-wise strategy when no column name is another column
    name followed by "_v2". *)
Theorem compare_same_sheet (use_hash : bool) df :
  wf_df df →
  use_hash = true ∨ (∀ c, c ∈ columns df → v2 c ∉ columns df) →
  ∃ det,
    compare use_hash df df =
      Ok (mkCompareResult "Perfect match" 1 det (shape df) (shape df), None).
Proof.
  intros Hwf Hstrategy.
  apply compare_perfect_match; [done..|apply no_cell_differences_refl|].
  destruct Hstrategy as [->|Hno]; [by left|right].
  apply no_name_collision_iff; [apply Hwf|done..].
Qed.

End symmetry.

(** * The workbook of differences *)

Lemma MAX_EXCEL_ROWS_pos : 0 < Config.MAX_EXCEL_ROWS.
Proof. unfold Config.MAX_EXCEL_ROWS. lia. Qed.

Lemma MAX_EXCEL_ROWS_limit : Config.MAX_EXCEL_ROWS + 1 ≤ Z.to_nat 1048576.
Proof. unfold Config.MAX_EXCEL_ROWS. lia. Qed.

(** The number of values of [range(0, n, m)]. *)
Lemma range_step_0 (m : nat) : 0 < m → range_step 0 m = [].
Proof.
  intros Hm. unfold range_step.
  by rewrite Nat.div_small by lia.
Qed.

Lemma range_step_pos (n m : nat) :
  0 < m → 0 < n →
  range_step n m = 0 :: ((λ i, m + i) <$> range_step (n - m) m).
Proof.
  intros Hm Hn. unfold range_step.
  assert ((n + m - 1) / m = S ((n - m + m - 1) / m)) as ->.
  { destruct (decide (n < m)).
    - replace (n - m + m - 1) with (m - 1) by lia.
      rewrite (Nat.div_small (m - 1)) by lia.
      replace (n + m - 1) with ((n - 1) + 1 * m) by lia.
      rewrite Nat.div_add by lia. rewrite Nat.div_small by lia. done.
    - replace (n + m - 1) with ((n - m + m - 1) + 1 * m) by lia.
      rewrite Nat.div_add by lia. lia. }
  simpl. f_equal. rewrite <- fmap_S_seq, <- !list_fmap_compose.
  apply list_fmap_ext. intros _ k _. simpl. lia.
Qed.

(** [range(0, n, m)] holds the multiples of [m] below [n]. *)
Lemma elem_of_range_step (n m i : nat) :
  0 < m → i ∈ range_step n m ↔ i < n ∧ ∃ k, i = k * m.
Proof.
  intros Hm. unfold range_step. rewrite list_elem_of_fmap.
  setoid_rewrite elem_of_seq. split.
  - intros (k & -> & _ & Hk). split; [|by exists k].
    simpl in Hk.
    pose proof (Nat.Div0.mul_div_le (n + m - 1) m).
    pose proof (Nat.Div0.div_lt_upper_bound k (n + m - 1) m).
    destruct (decide (k * m < n)); [done|]. exfalso.
    assert ((n + m - 1) / m < S k); [|lia].
    apply Nat.Div0.div_lt_upper_bound. nia.
  - intros (Hi & k & ->). exists k. split; [done|]. split; [lia|]. simpl.
    apply Nat.div_le_lower_bound; [lia|]. nia. 
Qed.

(** The slices of the loop: [l[i : i + m]] for [i] in [range(0, len(l), m)]. *)
Lemma slices_nil {A} (m : nat) :
  0 < m →
  (λ i, take m (drop i (@nil A))) <$> range_step 0 m = [].
Proof. intros Hm. by rewrite range_step_0. Qed.

Lemma slices_cons {A} (m : nat) (l : list A) :
  0 < m → l ≠ [] →
  (λ i, take m (drop i l)) <$> range_step (length l) m =
  take m l :: ((λ i, take m (drop i (drop m l)))
                 <$> range_step (length (drop m l)) m).
Proof.
  intros Hm Hl. assert (0 < length l) by (destruct l; [done|simpl; lia]).
  rewrite range_step_pos by done.
  rewrite length_drop. simpl. f_equal. rewrite <- list_fmap_compose.
  apply list_fmap_ext. intros _ i _. simpl. by rewrite drop_drop.
Qed.

Lemma slices_ind {A} (m : nat) (Q : list A → Prop) :
  0 < m →
  Q [] →
  (∀ l, l ≠ [] → Q (drop m l) → Q l) →
  ∀ l, Q l.
Proof.
  intros Hm Hnil Hcons l.
  remember (length l) as n eqn:Hn.
  revert l Hn. induction (lt_wf n) as [n _ IH]. intros l ->.
  destruct (decide (l = [])) as [->|Hl]; [done|].
  apply Hcons; [done|]. eapply IH; [|done].
  rewrite length_drop. destruct l; [done|simpl; lia].
Qed.

Lemma slices_concat {A} (m : nat) (l : list A) :
  0 < m →
  mjoin ((λ i, take m (drop i l)) <$> range_step (length l) m) = l.
Proof.
  intros Hm. revert l. apply (slices_ind m); [done| |intros l Hl IH].
  - by rewrite range_step_0.
  - rewrite slices_cons by done. simpl. rewrite IH. apply take_drop.
Qed.

Lemma slices_lengths {A} (m : nat) (l : list A) :
  0 < m →
  length <$> ((λ i, take m (drop i l)) <$> range_step (length l) m) =
    replicate (length l / m) m ++
    (if decide (length l mod m = 0) then [] else [length l mod m]).
Proof.
  intros Hm. revert l. apply (slices_ind m); [done| |intros l Hl IH].
  - rewrite range_step_0 by done. simpl.
    by rewrite Nat.Div0.div_0_l, Nat.Div0.mod_0_l.
  - rewrite slices_cons by done. rewrite fmap_cons, IH.
    rewrite length_take, length_drop.
    assert (0 < length l) by (destruct l; [done|simpl; lia]).
    destruct (decide (length l < m)) as [Hlt|Hge].
    + replace (length l - m) with 0 by lia.
      rewrite Nat.Div0.div_0_l, Nat.Div0.mod_0_l.
      rewrite (Nat.div_small (length l)) by lia.
      rewrite (Nat.mod_small (length l)) by lia.
      rewrite (decide_False (P:=length l = 0)) by lia. simpl. f_equal. lia.
    + assert (length l `div` m = S ((length l - m) `div` m)) as ->.
      { replace (length l) with ((length l - m) + 1 * m) at 1 by lia.
        rewrite Nat.div_add by lia. lia. }
      assert (length l `mod` m = (length l - m) `mod` m) as ->.
      { replace (length l) with ((length l - m) + 1 * m) at 1 by lia.
        by rewrite Nat.Div0.mod_add. }
      simpl. f_equal. lia.
Qed.

Lemma workbook_sheets_slices (diff_df : list SheetDifference) :
  (ReportGenerator.workbook_sheets diff_df).*2 =
  (λ i, take Config.MAX_EXCEL_ROWS (drop i diff_df))
    <$> range_step (length diff_df) Config.MAX_EXCEL_ROWS.
Proof.
  unfold ReportGenerator.workbook_sheets. by rewrite <- list_fmap_compose.
Qed.

(** X13: the sheets written to differences.xlsx, taken in order, hold
    exactly the rows of the frame of differences, in their order: the
    slicing of lines 52 to 55 drops, repeats and reorders nothing. *)
Theorem workbook_sheets_lossless (diff_df : list SheetDifference) :
  mjoin (ReportGenerator.workbook_sheets diff_df).*2 = diff_df.
Proof.
  rewrite workbook_sheets_slices. apply slices_concat, MAX_EXCEL_ROWS_pos.
Qed.

(** X14: every sheet of differences.xlsx holds [MAX_EXCEL_ROWS] rows, but
    the last one when the number of rows is not a multiple of it, which
    holds the remainder; no sheet is empty, and each fits, with its header
    row, in the 1,048,576 rows of an Excel sheet. *)
Theorem workbook_sheets_sizes (diff_df : list SheetDifference) :
  length <$> (ReportGenerator.workbook_sheets diff_df).*2 =
    replicate (length diff_df / Config.MAX_EXCEL_ROWS) Config.MAX_EXCEL_ROWS
    ++ (if decide (length diff_df mod Config.MAX_EXCEL_ROWS = 0) then []
        else [length diff_df mod Config.MAX_EXCEL_ROWS])
  ∧ Forall (λ sheet, 0 < length sheet.2
                     ∧ (Z.of_nat (length sheet.2) + 1 ≤ 1048576)%Z)
           (ReportGenerator.workbook_sheets diff_df).
Proof.
  pose proof MAX_EXCEL_ROWS_pos as Hpos.
  assert (length <$> (ReportGenerator.workbook_sheets diff_df).*2 =
    replicate (length diff_df / Config.MAX_EXCEL_ROWS) Config.MAX_EXCEL_ROWS
    ++ (if decide (length diff_df mod Config.MAX_EXCEL_ROWS = 0) then []
        else [length diff_df mod Config.MAX_EXCEL_ROWS])) as Hlen.
  { rewrite workbook_sheets_slices. by apply slices_lengths. }
  split; [done|].
  apply Forall_forall. intros sheet Hin.
  assert (length sheet.2 ∈
            length <$> (ReportGenerator.workbook_sheets diff_df).*2) as Hl.
  { apply list_elem_of_fmap. exists sheet.2. split; [done|].
    apply list_elem_of_fmap. by exists sheet. }
  rewrite Hlen in Hl. apply elem_of_app in Hl as [Hl|Hl].
  - apply elem_of_replicate in Hl as [-> _].
    pose proof MAX_EXCEL_ROWS_limit. lia.
  - case_decide as Hmod; [by apply elem_of_nil in Hl|].
    apply list_elem_of_singleton in Hl as ->.
    pose proof (Nat.mod_upper_bound (length diff_df) Config.MAX_EXCEL_ROWS).
    pose proof MAX_EXCEL_ROWS_limit. lia.
Qed.

(** X15: the sheets of differences.xlsx are named Diff_1, Diff_2, ... in
    order, and no two of them share a name. *)
Theorem workbook_sheets_names (diff_df : list SheetDifference) :
  (ReportGenerator.workbook_sheets diff_df).*1 =
    (λ k, "Diff_" +:+ pretty (k + 1))
      <$> seq 0 (length (ReportGenerator.workbook_sheets diff_df))
  ∧ NoDup (ReportGenerator.workbook_sheets diff_df).*1.
Proof.
  pose proof MAX_EXCEL_ROWS_pos as Hpos.
  assert ((ReportGenerator.workbook_sheets diff_df).*1 =
    (λ k, "Diff_" +:+ pretty (k + 1))
      <$> seq 0 (length (ReportGenerator.workbook_sheets diff_df))) as Hnames.
  { unfold ReportGenerator.workbook_sheets, range_step.
    rewrite !length_fmap, length_seq, <- !list_fmap_compose.
    apply list_fmap_ext. intros _ k _. unfold compose. cbv beta.
    rewrite Nat.div_mul by lia. reflexivity. }
  split; [done|]. rewrite Hnames. apply NoDup_fmap_2; [|apply NoDup_seq].
  intros k1 k2 Heq. apply (inj _), (inj pretty) in Heq. lia.
Qed.

(** * Computations with effects *)

Lemma io_eta {A} (m : io A) : mkIO (effects m) (outcome m) = m.
Proof. by destruct m. Qed.

Lemma io_bind_ret_l {A B} (a : A) (f : A → io B) : mret a ≫= f = f a.
Proof. unfold mbind, io_bind. simpl. apply io_eta. Qed.

Lemma io_bind_raise {A B} (e : Exception) (f : A → io B) :
  raise e ≫= f = raise e.
Proof. done. Qed.

Lemma io_bind_emit {B} (e : Effect) (f : unit → io B) :
  emit e ≫= f = mkIO (e :: effects (f ())) (outcome (f ())).
Proof. done. Qed.

Lemma io_bind_assoc {A B C} (m : io A) (f : A → io B) (g : B → io C) :
  (m ≫= f) ≫= g = m ≫= (λ a, f a ≫= g).
Proof.
  unfold mbind, io_bind. destruct m as [es [e|a]]; simpl; [done|].
  destruct (f a) as [es' [e|b]]; simpl; [done|].
  by rewrite (assoc_L (++)).
Qed.

Lemma io_bind_mkIO {A B} (es : list Effect) (a : A) (f : A → io B) :
  mkIO es (inr a) ≫= f = mkIO (es ++ effects (f a)) (outcome (f a)).
Proof. done. Qed.

Lemma io_bind_ext {A B} (m : io A) (f g : A → io B) :
  (∀ a, outcome m = inr a → f a = g a) → m ≫= f = m ≫= g.
Proof.
  intros Hfg. unfold mbind, io_bind. destruct m as [es [e|a]]; simpl; [done|].
  by rewrite Hfg.
Qed.

Lemma io_fold_cons {A B} (body : B → A → io B) (acc : B) (x : A)
    (l : list A) :
  io_fold body acc (x :: l) = body acc x ≫= λ acc', io_fold body acc' l.
Proof. done. Qed.

Lemma io_fold_app {A B} (body : B → A → io B) (acc : B) (l1 l2 : list A) :
  io_fold body acc (l1 ++ l2) =
  io_fold body acc l1 ≫= λ acc', io_fold body acc' l2.
Proof.
  revert acc. induction l1 as [|x l1 IH]; intros acc.
  - change (io_fold body acc l2 = mret acc ≫= λ acc', io_fold body acc' l2).
    by rewrite io_bind_ret_l.
  - rewrite <- app_comm_cons, !io_fold_cons, io_bind_assoc.
    apply io_bind_ext. intros acc' _. apply IH.
Qed.

Lemma effects_bind {A B} (m : io A) (f : A → io B) (e : Effect) :
  e ∈ effects (m ≫= f) →
  e ∈ effects m ∨ ∃ a, outcome m = inr a ∧ e ∈ effects (f a).
Proof.
  unfold mbind, io_bind. destruct m as [es [x|a]]; simpl; [by left|].
  intros [?|?]%elem_of_app; [by left|right]. by exists a.
Qed.

(** * The run over the case folders *)

Lemma lookups_succeed_bind {A B} (m : io A) (f : A → io B) :
  lookups_succeed m →
  (∀ a, outcome m = inr a → lookups_succeed (f a)) →
  lookups_succeed (m ≫= f).
Proof.
  unfold lookups_succeed, mbind, io_bind.
  destruct m as [es [e|a]]; simpl; intros [Hm1 Hm2] Hf; [|by apply Hf].
  split; [intros [= ->]; by apply Hm1|intros k [= ->]; by apply (Hm2 k)].
Qed.

Lemma lookups_succeed_ret {A} (a : A) : lookups_succeed (mret a).
Proof. by split. Qed.

Lemma lookups_succeed_emit (e : Effect) : lookups_succeed (emit e).
Proof. by split. Qed.

Lemma lookups_succeed_fold {A B} (body : B → A → io B) (acc : B)
    (l : list A) :
  (∀ acc x, x ∈ l → lookups_succeed (body acc x)) →
  lookups_succeed (io_fold body acc l).
Proof.
  revert acc. induction l as [|x l IH]; intros acc Hbody.
  - apply lookups_succeed_ret.
  - rewrite io_fold_cons. apply lookups_succeed_bind.
    + apply Hbody. by left.
    + intros acc' _. apply IH. intros ???. apply Hbody. by right.
Qed.

Lemma list_getitem_lookup {A} (l : list A) (i : nat) (x : A) :
  l !! i = Some x → list_getitem l i = mret x.
Proof. intros Hx. unfold list_getitem. by rewrite Hx. Qed.

Lemma lookups_succeed_list_getitem {A} (l : list A) (i : nat) :
  i < length l → lookups_succeed (list_getitem l i).
Proof.
  intros [x Hx]%lookup_lt_is_Some. unfold list_getitem. rewrite Hx.
  apply lookups_succeed_ret.
Qed.

Lemma effects_list_getitem {A} (l : list A) (i : nat) :
  effects (list_getitem l i) = [].
Proof. unfold list_getitem. by destruct (l !! i). Qed.

Lemma string_compare_app (p a b : string) :
  String.compare (p +:+ a) (p +:+ b) = String.compare a b.
Proof.
  induction p as [|c p IH]; [done|]. simpl.
  unfold Ascii.compare. by rewrite N.compare_refl.
Qed.

Lemma path_join_le (d a b : string) :
  starts_with_sep a = false → starts_with_sep b = false →
  String.le (path_join d a) (path_join d b) ↔ String.le a b.
Proof.
  intros Ha Hb. unfold path_join. rewrite Ha, Hb.
  case_decide; [done|]. unfold String.le, String.leb.
  destruct (ends_with_sep d); by rewrite !string_compare_app.
Qed.

Lemma sort_paths_pair (l : list string) (p1 p2 : string) :
  l ≡ₚ [p1; p2] → String.le p1 p2 → sort_paths l = [p1; p2].
Proof.
  intros Hperm Hle. apply (Sorted_unique String.le).
  - apply Sorted_merge_sort, _.
  - by repeat constructor.
  - unfold sort_paths. by rewrite merge_sort_Permutation.
Qed.

Section run.
Context `{P : Polars} `{!OS}.

(** X16: the three ways in which [process_pair] ends.  It raises
    AttributeError, having printed and written nothing, exactly when the
    two files have one base name and both are read; otherwise it returns
    after one printed row, for the name of V1 and with the status
    "File name mismatch" or "Read Error".  No sheet is compared and no
    file written. *)
Theorem process_pair_outcomes (use_hash : bool)
    (file1_path file2_path output_dir : string) :
  (outcome (process_pair use_hash file1_path file2_path output_dir)
     = inl AttributeError
   ↔ basename file1_path = basename file2_path
     ∧ (∃ df1, read_excel file1_path = Frame df1)
     ∧ (∃ df2, read_excel file2_path = Frame df2))
  ∧ (outcome (process_pair use_hash file1_path file2_path output_dir)
       = inl AttributeError →
     effects (process_pair use_hash file1_path file2_path output_dir) = [])
  ∧ (outcome (process_pair use_hash file1_path file2_path output_dir)
       ≠ inl AttributeError →
     outcome (process_pair use_hash file1_path file2_path output_dir)
       = inr ()
     ∧ ∃ status details,
         status ∈ ["File name mismatch"; "Read Error"]
         ∧ effects (process_pair use_hash file1_path file2_path output_dir)
           = [Print (row_text (basename file1_path)
                              (if decide (status = "Read Error")
                               then "ERROR" else "N/A")
                              (if decide (status = "Read Error")
                               then "ERROR" else "N/A")
                              status details)]).
Proof.
  unfold process_pair, _print_row.
  destruct (decide (basename file1_path ≠ basename file2_path))
    as [Hname|Hname%dec_stable].
  { split_and!.
    - split; [done|]. by intros (? & _).
    - done.
    - intros _. split; [done|]. do 2 eexists. split; [by left|]. done. }
  destruct (read_excel file1_path) as [df1|e1] eqn:Hread1.
  2:{ split_and!.
      - split; [done|]. by intros (_ & [? ?] & _).
      - done.
      - intros _. split; [done|]. exists "Read Error", e1.
        split; [|done]. right. by left. }
  destruct (read_excel file2_path) as [df2|e2] eqn:Hread2.
  2:{ split_and!.
      - split; [done|]. by intros (_ & _ & [? ?]).
      - done.
      - intros _. split; [done|]. exists "Read Error", e2.
        split; [|done]. right. by left. }
  split_and!; [|done..]. split; [|done]. intros _.
  split_and!; [done|by eexists..].
Qed.

Lemma lookups_succeed_process_pair (use_hash : bool)
    (file1_path file2_path output_dir : string) :
  lookups_succeed (process_pair use_hash file1_path file2_path output_dir).
Proof.
  unfold process_pair. case_decide; [apply lookups_succeed_emit|].
  destruct (read_excel file1_path); [|apply lookups_succeed_emit].
  destruct (read_excel file2_path); [|apply lookups_succeed_emit].
  by split.
Qed.

Lemma lookups_succeed_run_item (use_hash : bool) (folder_path item : string) :
  lookups_succeed (run_item use_hash folder_path item).
Proof.
  unfold run_item. destruct (isdir _); [|apply lookups_succeed_ret]. simpl.
  case_decide as Hlen; [apply lookups_succeed_emit|].
  assert (length (sort_paths
            (path_join (path_join folder_path item) <$>
               filter (λ d, isdir (path_join (path_join folder_path item) d)
                            = true)
                      (listdir (path_join folder_path item)))) = 2) as Hsort.
  { unfold sort_paths. rewrite merge_sort_Permutation. lia. }
  apply lookups_succeed_bind.
  { apply lookups_succeed_list_getitem. lia. }
  intros subdir0 _. apply lookups_succeed_bind.
  { apply lookups_succeed_list_getitem. lia. }
  intros subdir1 _. case_decide as Hfiles; [apply lookups_succeed_emit|].
  apply lookups_succeed_bind.
  { apply lookups_succeed_list_getitem.
    destruct (glob _); [tauto|simpl; lia]. }
  intros file1 _. apply lookups_succeed_bind.
  { apply lookups_succeed_list_getitem.
    destruct (glob (path_join subdir1 _)); [tauto|simpl; lia]. }
  intros file2 _. apply lookups_succeed_process_pair.
Qed.

Lemma lookups_succeed_run (use_hash : bool) (folder_path : string) :
  lookups_succeed (run use_hash folder_path).
Proof.
  unfold run.
  apply lookups_succeed_bind; [apply lookups_succeed_emit|]. intros _ _.
  apply lookups_succeed_bind; [apply lookups_succeed_emit|]. intros _ _.
  apply lookups_succeed_bind; [apply lookups_succeed_emit|]. intros _ _.
  apply lookups_succeed_bind; [|intros _ _; apply lookups_succeed_emit].
  apply lookups_succeed_fold. intros _ item _.
  apply lookups_succeed_run_item.
Qed.

(** X19: [run] never ends with an IndexError or a KeyError: the indexing
    of the sorted subfolders and of the glob results is guarded by the
    checks before it, and no dict is looked up. *)
Theorem run_lookups_never_fail (use_hash : bool) (folder_path : string) :
  outcome (run use_hash folder_path) ≠ inl IndexError
  ∧ ∀ k, outcome (run use_hash folder_path) ≠ inl (KeyError k).
Proof. apply lookups_succeed_run. Qed.

Lemma process_pair_prints (use_hash : bool)
    (file1_path file2_path output_dir : string) :
  Forall is_print
         (effects (process_pair use_hash file1_path file2_path output_dir)).
Proof.
  unfold process_pair, _print_row. case_decide; [by repeat constructor|].
  destruct (read_excel file1_path); [|by repeat constructor].
  destruct (read_excel file2_path); by repeat constructor.
Qed.

Lemma run_item_prints (use_hash : bool) (folder_path item : string) :
  Forall is_print (effects (run_item use_hash folder_path item)).
Proof.
  apply Forall_forall. intros e. unfold run_item.
  destruct (isdir _); simpl; [|by intros ?%elem_of_nil].
  case_decide; [by intros ->%list_elem_of_singleton|].
  intros [He|(subdir0 & _ & He)]%effects_bind.
  { rewrite effects_list_getitem in He. by apply elem_of_nil in He. }
  apply effects_bind in He as [He|(subdir1 & _ & He)].
  { rewrite effects_list_getitem in He. by apply elem_of_nil in He. }
  case_decide; [by apply list_elem_of_singleton in He as ->|].
  apply effects_bind in He as [He|(file1 & _ & He)].
  { rewrite effects_list_getitem in He. by apply elem_of_nil in He. }
  apply effects_bind in He as [He|(file2 & _ & He)].
  { rewrite effects_list_getitem in He. by apply elem_of_nil in He. }
  revert e He. apply Forall_forall, process_pair_prints.
Qed.

Lemma io_fold_prints {A} (body : A → io unit) (l : list A) :
  (∀ x, Forall is_print (effects (body x))) →
  Forall is_print (effects (io_fold (λ _ x, body x) () l)).
Proof.
  intros Hbody. induction l as [|x l IH]; [by constructor|].
  rewrite io_fold_cons. apply Forall_forall.
  intros e [He|([] & _ & He)]%effects_bind.
  - revert e He. apply Forall_forall, Hbody.
  - revert e He. by apply Forall_forall.
Qed.

(** X17: a run writes no file: whatever the folder holds, all that [run]
    does is print; report.txt and differences.xlsx are never written. *)
Theorem run_never_writes (use_hash : bool) (folder_path : string) :
  Forall is_print (effects (run use_hash folder_path)).
Proof.
  apply Forall_forall. intros e. unfold run.
  intros [->%list_elem_of_singleton|(_ & _ & He)]%effects_bind; [done|].
  apply effects_bind in He as [->%list_elem_of_singleton|(_ & _ & He)];
    [done|].
  apply effects_bind in He as [->%list_elem_of_singleton|(_ & _ & He)];
    [done|].
  apply effects_bind in He as [He|(_ & _ & ->%list_elem_of_singleton)];
    [|done].
  revert e He. apply Forall_forall.
  apply (io_fold_prints (run_item use_hash folder_path)).
  intros item. apply run_item_prints.
Qed.

(** X20: which workbook is V1.  For a case folder with exactly the two
    subfolders [a] and [b], [a] before [b] in the order of strings, each
    holding a workbook, the case is [process_pair] on the first workbook
    of [a] as V1 and the first of [b] as V2, writing to the case folder,
    whatever the order in which the folder lists them. *)
Theorem run_item_pairs_by_name (use_hash : bool)
    (folder_path item a b file1 file2 : string) (files1 files2 : list string) :
  isdir (path_join folder_path item) = true →
  filter (λ d, isdir (path_join (path_join folder_path item) d) = true)
         (listdir (path_join folder_path item)) ≡ₚ [a; b] →
  starts_with_sep a = false → starts_with_sep b = false →
  String.le a b →
  glob (path_join (path_join (path_join folder_path item) a) "*.xlsx")
    = file1 :: files1 →
  glob (path_join (path_join (path_join folder_path item) b) "*.xlsx")
    = file2 :: files2 →
  run_item use_hash folder_path item =
  process_pair use_hash file1 file2 (path_join folder_path item).
Proof.
  intros Hdir Hsub Ha Hb Hle Hglob1 Hglob2. unfold run_item.
  rewrite Hdir. simpl negb. cbv iota.
  rewrite decide_False by (rewrite length_fmap, Hsub; simpl; lia).
  rewrite (sort_paths_pair _ (path_join (path_join folder_path item) a)
             (path_join (path_join folder_path item) b)).
  - rewrite (list_getitem_lookup [_; _] 0 _ eq_refl), io_bind_ret_l.
    rewrite (list_getitem_lookup [_; _] 1 _ eq_refl), io_bind_ret_l.
    rewrite Hglob1, Hglob2.
    rewrite decide_False by (by intros [|]).
    rewrite (list_getitem_lookup (file1 :: _) 0 _ eq_refl), io_bind_ret_l.
    by rewrite (list_getitem_lookup (file2 :: _) 0 _ eq_refl), io_bind_ret_l.
  - by rewrite Hsub.
  - by apply path_join_le.
Qed.

Lemma io_fold_unit_returns {A} (body : A → io unit) (l : list A) :
  Forall (λ x, outcome (body x) = inr ()) l →
  io_fold (λ _ x, body x) () l =
  mkIO (mjoin (effects <$> (body <$> l))) (inr ()).
Proof.
  induction 1 as [|x l Hx _ IH]; [done|].
  rewrite io_fold_cons, <- (io_eta (body x)), Hx, io_bind_mkIO.
  simpl effects. by rewrite IH.
Qed.

Lemma io_fold_unit_raises {A} (body : A → io unit) (before after : list A)
    (x : A) (e : Exception) :
  Forall (λ x, outcome (body x) = inr ()) before →
  outcome (body x) = inl e →
  io_fold (λ _ x, body x) () (before ++ x :: after) =
  mkIO (mjoin (effects <$> (body <$> before)) ++ effects (body x)) (inl e).
Proof.
  intros Hbefore Hx. rewrite io_fold_app, io_fold_unit_returns by done.
  rewrite io_bind_mkIO, io_fold_cons.
  unfold mbind at 1 2, io_bind. by rewrite Hx.
Qed.

(** X21: a run in which every case returns prints the header of the
    table, then what the cases print, case by case in the order of the
    listing, then the closing line. *)
Theorem run_completes (use_hash : bool) (folder_path : string) :
  Forall (λ item, outcome (run_item use_hash folder_path item) = inr ())
         (listdir folder_path) →
  run use_hash folder_path =
  mkIO ([Print (nl +:+ rule);
         Print (row_text "Target" "Shape V1" "Shape V2" "Status" "Details");
         Print rule]
        ++ mjoin (effects <$> (run_item use_hash folder_path
                                 <$> listdir folder_path))
        ++ [Print (rule +:+ nl +:+ "Comparison Complete." +:+ nl)])
       (inr ()).
Proof.
  intros Hall. unfold run.
  rewrite (io_fold_unit_returns (run_item use_hash folder_path)) by done.
  done.
Qed.

(** X22: an exception in a case ends the run: the cases after it are not
    processed and the closing line is not printed. *)
Theorem run_stops_at_exception (use_hash : bool) (folder_path : string)
    (before after : list string) (item : string) (e : Exception) :
  listdir folder_path = before ++ item :: after →
  Forall (λ item, outcome (run_item use_hash folder_path item) = inr ())
         before →
  outcome (run_item use_hash folder_path item) = inl e →
  run use_hash folder_path =
  mkIO ([Print (nl +:+ rule);
         Print (row_text "Target" "Shape V1" "Shape V2" "Status" "Details");
         Print rule]
        ++ mjoin (effects <$> (run_item use_hash folder_path <$> before))
        ++ effects (run_item use_hash folder_path item))
       (inl e).
Proof.
  intros Hlist Hbefore Hitem. unfold run. rewrite Hlist.
  rewrite (io_fold_unit_raises (run_item use_hash folder_path) _ _ _ e)
    by done.
  done.
Qed.

Lemma run_item_outcome (use_hash : bool) (folder_path item : string) :
  outcome (run_item use_hash folder_path item) = inr ()
  ∨ outcome (run_item use_hash folder_path item) = inl AttributeError.
Proof.
  destruct (lookups_succeed_run_item use_hash folder_path item) as [H1 H2].
  destruct (outcome _) as [[|k|]|[]].
  - done.
  - by destruct (H2 k).
  - by right.
  - by left.
Qed.

Lemma Forall_or_first {A} (ok bad : A → Prop) (l : list A) :
  (∀ x, ok x ∨ bad x) →
  Forall ok l
  ∨ ∃ before x after, l = before ++ x :: after ∧ Forall ok before ∧ bad x.
Proof.
  intros Hcases. induction l as [|x l IH]; [by left|].
  destruct (Hcases x) as [Hok|Hbad].
  - destruct IH as [IH|(before & y & after & -> & Hbefore & Hy)].
    + left. by constructor.
    + right. exists (x :: before), y, after. split_and!; [done| |done].
      by constructor.
  - right. exists [], x, l. split_and!; [done| |done]. constructor.
Qed.

(** X18: the two ways in which a run ends.  It raises AttributeError
    exactly when one of the cases of the folder does, that is when
    [process_pair] is reached with two workbooks of one name that both
    read; otherwise it returns, and the closing line is the last line it
    printed. *)
Theorem run_outcomes (use_hash : bool) (folder_path : string) :
  (outcome (run use_hash folder_path) = inl AttributeError
   ↔ Exists (λ item, outcome (run_item use_hash folder_path item)
                     = inl AttributeError)
            (listdir folder_path))
  ∧ (outcome (run use_hash folder_path) ≠ inl AttributeError →
     outcome (run use_hash folder_path) = inr ()
     ∧ last (effects (run use_hash folder_path))
       = Some (Print (rule +:+ nl +:+ "Comparison Complete." +:+ nl))).
Proof.
  destruct (Forall_or_first
              (λ item, outcome (run_item use_hash folder_path item) = inr ())
              (λ item, outcome (run_item use_hash folder_path item)
                       = inl AttributeError)
              (listdir folder_path) (run_item_outcome use_hash folder_path))
    as [Hall|(before & x & after & Hlist & Hbefore & Hx)].
  - assert (run use_hash folder_path =
            mkIO ([Print (nl +:+ rule);
                   Print (row_text "Target" "Shape V1" "Shape V2" "Status"
                                   "Details");
                   Print rule]
                  ++ mjoin (effects <$> (run_item use_hash folder_path
                                           <$> listdir folder_path))
                  ++ [Print (rule +:+ nl +:+ "Comparison Complete." +:+ nl)])
                 (inr ())) as ->.
    { unfold run.
      rewrite (io_fold_unit_returns (run_item use_hash folder_path)) by done.
      done. }
    cbn [outcome effects]. split.
    + split; [done|]. intros (y & Hy & Hraise)%Exists_exists.
      rewrite Forall_forall in Hall. by rewrite (Hall y Hy) in Hraise.
    + intros _. split; [done|]. rewrite app_assoc. apply last_snoc.
  - assert (run use_hash folder_path =
            mkIO ([Print (nl +:+ rule);
                   Print (row_text "Target" "Shape V1" "Shape V2" "Status"
                                   "Details");
                   Print rule]
                  ++ mjoin (effects <$> (run_item use_hash folder_path
                                           <$> before))
                  ++ effects (run_item use_hash folder_path x))
                 (inl AttributeError)) as ->.
    { unfold run. rewrite Hlist.
      rewrite (io_fold_unit_raises (run_item use_hash folder_path) _ _ _
                 AttributeError) by done.
      done. }
    cbn [outcome effects]. split; [|done].
    split; [intros _|done]. rewrite Hlist. apply Exists_exists.
    exists x. split; [|done]. apply elem_of_app. right. left.
Qed.

End run.

(** * The printed line *)

Lemma string_app_assoc (s1 s2 s3 : string) :
  (s1 +:+ s2) +:+ s3 = s1 +:+ (s2 +:+ s3).
Proof.
  induction s1 as [|c s1 IH]; [done|].
  change (String c ((s1 +:+ s2) +:+ s3) = String c (s1 +:+ s2 +:+ s3)).
  by rewrite IH.
Qed.

Lemma string_app_empty_r (s : string) : s +:+ "" = s.
Proof.
  induction s as [|c s IH]; [done|].
  change (String c (s +:+ "") = String c s). by rewrite IH.
Qed.

Lemma length_spaces (n : nat) : String.length (spaces n) = n.
Proof. induction n as [|n IH]; [done|]. simpl. by rewrite IH. Qed.

Lemma length_ljust (width : nat) (s : string) :
  String.length (ljust width s) = width `max` String.length s.
Proof. unfold ljust. rewrite string_length_app, length_spaces. lia. Qed.

Lemma substring_prefix (s rest : string) :
  String.substring 0 (String.length s) (s +:+ rest) = s.
Proof.
  induction s as [|c s IH]; [by destruct rest|]. simpl. by rewrite IH.
Qed.

Lemma substring_app (before s rest : string) :
  String.substring (String.length before) (String.length s)
            (before +:+ s +:+ rest) = s.
Proof.
  induction before as [|c before IH]; [exact (substring_prefix s rest)|].
  exact IH.
Qed.

Lemma substring_at (before s rest line : string) (n : nat) :
  line = before +:+ s +:+ rest → n = String.length before →
  String.substring n (String.length s) line = s.
Proof. intros -> ->. apply substring_app. Qed.

(** X23: the line printed for a table row.  When the name, the shapes and
    the status fit their widths (30, 15, 15, 25), the fields start at
    offsets 0, 33, 51, 69 and 97 of the line, whose length is 97 plus that
    of the details. *)
Theorem row_text_aligned (name shape1 shape2 status details : string) :
  String.length name ≤ 30 → String.length shape1 ≤ 15 →
  String.length shape2 ≤ 15 → String.length status ≤ 25 →
  String.length (row_text name shape1 shape2 status details)
    = 97 + String.length details
  ∧ String.substring 0 (String.length name)
              (row_text name shape1 shape2 status details) = name
  ∧ String.substring 33 (String.length shape1)
              (row_text name shape1 shape2 status details) = shape1
  ∧ String.substring 51 (String.length shape2)
              (row_text name shape1 shape2 status details) = shape2
  ∧ String.substring 69 (String.length status)
              (row_text name shape1 shape2 status details) = status
  ∧ String.substring 97 (String.length details)
              (row_text name shape1 shape2 status details) = details.
Proof.
  intros Hname Hshape1 Hshape2 Hstatus.
  pose proof (length_ljust 30 name) as H30.
  pose proof (length_ljust 15 shape1) as H15.
  pose proof (length_ljust 15 shape2) as H15'.
  pose proof (length_ljust 25 status) as H25.
  split_and!.
  - unfold row_text. rewrite !string_length_app. simpl. lia.
  - eapply (substring_at "" name); [|done].
    unfold row_text, ljust. rewrite !string_app_assoc. reflexivity.
  - eapply (substring_at (ljust 30 name +:+ " | ") shape1).
    + unfold row_text, ljust. rewrite !string_app_assoc. reflexivity.
    + rewrite !string_length_app. simpl. lia.
  - eapply (substring_at (ljust 30 name +:+ " | " +:+ ljust 15 shape1
                          +:+ " | ") shape2).
    + unfold row_text, ljust. rewrite !string_app_assoc. reflexivity.
    + rewrite !string_length_app. simpl. lia.
  - eapply (substring_at (ljust 30 name +:+ " | " +:+ ljust 15 shape1
                          +:+ " | " +:+ ljust 15 shape2 +:+ " | ") status).
    + unfold row_text, ljust. rewrite !string_app_assoc. reflexivity.
    + rewrite !string_length_app. simpl. lia.
  - eapply (substring_at (ljust 30 name +:+ " | " +:+ ljust 15 shape1
                          +:+ " | " +:+ ljust 15 shape2 +:+ " | "
                          +:+ ljust 25 status +:+ " | ") details "").
    + unfold row_text, ljust. rewrite !string_app_assoc.
      by rewrite string_app_empty_r.
    + rewrite !string_length_app. simpl. lia.
Qed.

(** * The further properties on the samples *)

Section more_samples_checked.
#[local] Existing Instance sample_polars.
#[local] Existing Instance sample_os.

Ltac sample_wf :=
  split; [apply (bool_decide_unpack _); by vm_compute|repeat constructor].

Ltac sample_decide := apply (bool_decide_unpack _); by vm_compute.

Lemma compare_type_mismatch_witness :
  compare true small_v1 small_retyped =
    Ok (mkCompareResult "Column type mismatch" 0
          (TypeDiffs (type_diff small_v1 small_retyped))
          (shape small_v1) (shape small_retyped),
        None)
  ∧ type_diff small_v1 small_retyped ≠ []
  ∧ ∀ c t1 t2,
      (c, (t1, t2)) ∈ type_diff small_v1 small_retyped ↔
      ∃ j s1 s2, small_v1 !! j = Some s1 ∧ small_retyped !! j = Some s2
                 ∧ dtype s1 ≠ dtype s2 ∧ c = name s1
                 ∧ t1 = str_dtype (dtype s1) ∧ t2 = str_dtype (dtype s2).
Proof.
  apply (compare_type_mismatch true small_v1 small_retyped).
  - reflexivity.
  - reflexivity.
  - by vm_compute.
Defined.

Lemma compare_outcome_invariants_witness :
  (is_Some (Some wide_diffs) ↔ status wide_result = "Data mismatch")
  ∧ (status wide_result = "Perfect match" ↔ (match_rate wide_result == 1)%Q)
  ∧ (status wide_result ∈ ["Shape mismatch"; "Column names mismatch";
                           "Column type mismatch"] →
     (match_rate wide_result == 0)%Q)
  ∧ status wide_result ∈ ["Shape mismatch"; "Column names mismatch";
                          "Column type mismatch"; "Perfect match";
                          "Data mismatch >10.0%"; "Data mismatch"]
  ∧ shape1 wide_result = shape wide_v1 ∧ shape2 wide_result = shape wide_v2.
Proof.
  apply (compare_outcome_invariants false wide_v1 wide_v2 wide_result
           (Some wide_diffs)).
  by vm_compute.
Defined.

Lemma differences_complete_witness :
  mkCellDifference 0 "a" "Int64" (Some "0") (Some "7") ∈ wide_diffs.
Proof.
  apply (differences_complete wide_v1 wide_v2 wide_mask wide_diffs 0 1
           (int_col "a" (some_range 0 20))
           (int_col "a" (Some 7%Z :: some_range 1 19))
           (Some 0%Z) (Some 7%Z)).
  - sample_wf.
  - sample_wf.
  - reflexivity.
  - by vm_compute.
  - reflexivity.
  - reflexivity.
  - reflexivity.
  - reflexivity.
  - reflexivity.
  - by vm_compute.
Defined.

Lemma differences_unique_and_bounded_witness :
  NoDup ((λ d, (row_index d, column_name d)) <$> wide_diffs)
  ∧ length wide_diffs ≤ series_sum wide_mask * width wide_v1.
Proof.
  apply (differences_unique_and_bounded wide_v1 wide_v2 wide_mask wide_diffs).
  - sample_wf.
  - sample_wf.
  - reflexivity.
  - reflexivity.
  - by vm_compute.
Defined.

Lemma compare_differences_bounded_witness :
  10 * length wide_diffs ≤ height wide_v1 * width wide_v1.
Proof.
  apply (compare_differences_bounded true wide_v1 wide_v2 wide_result
           wide_diffs).
  - sample_wf.
  - sample_wf.
  - by vm_compute.
Defined.

Lemma hash_flags_at_most_fieldwise_witness :
  (∀ i, wide_mask !! i = Some (Some true) → wide_mask !! i = Some (Some true))
  ∧ series_sum wide_mask ≤ series_sum wide_mask.
Proof.
  apply (hash_flags_at_most_fieldwise wide_v1 wide_v2 wide_mask wide_mask).
  - sample_wf.
  - sample_wf.
  - reflexivity.
  - reflexivity.
  - by vm_compute.
  - by vm_compute.
Defined.

Lemma compare_strategies_agree_witness :
  compare true small_v1 small_v2 = compare false small_v1 small_v2.
Proof.
  apply (compare_strategies_agree small_v1 small_v2).
  - sample_wf.
  - sample_wf.
  - apply Forall_forall. sample_decide.
  - intros i Hi. destruct i as [|[|[|i]]].
    + reflexivity.
    + reflexivity.
    + by vm_compute.
    + vm_compute in Hi. lia.
Defined.

Lemma compare_reserved_column_name_witness :
  compare false indexed_wide_v1 indexed_wide_v2 = Raise DuplicateError.
Proof.
  apply (compare_reserved_column_name false indexed_wide_v1 indexed_wide_v2
           wide_mask).
  - by vm_compute.
  - by vm_compute.
  - by vm_compute.
  - by vm_compute.
  - exists "Row Index". split; sample_decide.
Defined.

Lemma fieldwise_raises_on_suffixed_name_witness :
  (mismatch_mask false suffixed suffixed = Raise DuplicateError
   ↔ ∃ c, c ∈ columns suffixed ∧ v2 c ∈ columns suffixed)
  ∧ ((∃ c, c ∈ columns suffixed ∧ v2 c ∈ columns suffixed) →
     row_comparison_executes suffixed suffixed →
     compare false suffixed suffixed = Raise DuplicateError).
Proof.
  apply (fieldwise_raises_on_suffixed_name suffixed suffixed).
  - sample_wf.
  - sample_wf.
  - reflexivity.
  - reflexivity.
  - discriminate.
Defined.

Lemma compare_returns_witness :
  ∃ r d, compare false wide_v1 wide_v2 = Ok (r, d).
Proof.
  apply (compare_returns false wide_v1 wide_v2).
  - sample_wf.
  - sample_wf.
  - apply Forall_forall. sample_decide.
  - apply Forall_forall. sample_decide.
Defined.

Lemma compare_symmetric_witness :
  ∃ r',
    compare false wide_v2 wide_v1 =
      Ok (r', fmap (M:=list) swap_versions <$> Some wide_diffs)
    ∧ status r' = status wide_result
    ∧ match_rate r' = match_rate wide_result
    ∧ shape1 r' = shape2 wide_result ∧ shape2 r' = shape1 wide_result.
Proof.
  apply (compare_symmetric false wide_v1 wide_v2 wide_result
           (Some wide_diffs)).
  - sample_wf.
  - sample_wf.
  - by vm_compute.
Defined.

Lemma compare_same_sheet_witness :
  ∃ det,
    compare false small_v1 small_v1 =
      Ok (mkCompareResult "Perfect match" 1 det
            (shape small_v1) (shape small_v1), None).
Proof.
  apply (compare_same_sheet false small_v1).
  - sample_wf.
  - right. apply Forall_forall. sample_decide.
Defined.

Lemma run_item_pairs_by_name_witness :
  run_item true "data" "case1" =
  process_pair true "data/case1/new/book.xlsx" "data/case1/old/book.xlsx"
               (path_join "data" "case1").
Proof.
  apply (run_item_pairs_by_name true "data" "case1" "new" "old"
           "data/case1/new/book.xlsx" "data/case1/old/book.xlsx" [] []).
  - reflexivity.
  - apply perm_swap.
  - reflexivity.
  - reflexivity.
  - by vm_compute.
  - reflexivity.
  - reflexivity.
Defined.

Lemma run_completes_witness :
  run true "archive" =
  mkIO ([Print (nl +:+ rule);
         Print (row_text "Target" "Shape V1" "Shape V2" "Status" "Details");
         Print rule]
        ++ mjoin (effects <$> (run_item true "archive" <$> listdir "archive"))
        ++ [Print (rule +:+ nl +:+ "Comparison Complete." +:+ nl)])
       (inr ()).
Proof.
  apply (run_completes true "archive").
  repeat constructor; by vm_compute.
Defined.

Lemma run_stops_at_exception_witness :
  run false "data" =
  mkIO ([Print (nl +:+ rule);
         Print (row_text "Target" "Shape V1" "Shape V2" "Status" "Details");
         Print rule]
        ++ mjoin (effects <$> (run_item false "data"
                                 <$> ["notes.txt"; "case2"; "case3"; "case5"]))
        ++ effects (run_item false "data" "case1"))
       (inl AttributeError).
Proof.
  apply (run_stops_at_exception false "data"
           ["notes.txt"; "case2"; "case3"; "case5"] ["case4"] "case1"
           AttributeError).
  - reflexivity.
  - repeat constructor; by vm_compute.
  - by vm_compute.
Defined.

Lemma row_text_aligned_witness :
  String.length (row_text "book.xlsx [Small]" "(3, 2)" "(3, 2)"
                          "Perfect match" "1 rows differ.")
    = 97 + String.length "1 rows differ."
  ∧ String.substring 0 (String.length "book.xlsx [Small]")
      (row_text "book.xlsx [Small]" "(3, 2)" "(3, 2)"
                "Perfect match" "1 rows differ.") = "book.xlsx [Small]"
  ∧ String.substring 33 (String.length "(3, 2)")
      (row_text "book.xlsx [Small]" "(3, 2)" "(3, 2)"
                "Perfect match" "1 rows differ.") = "(3, 2)"
  ∧ String.substring 51 (String.length "(3, 2)")
      (row_text "book.xlsx [Small]" "(3, 2)" "(3, 2)"
                "Perfect match" "1 rows differ.") = "(3, 2)"
  ∧ String.substring 69 (String.length "Perfect match")
      (row_text "book.xlsx [Small]" "(3, 2)" "(3, 2)"
                "Perfect match" "1 rows differ.") = "Perfect match"
  ∧ String.substring 97 (String.length "1 rows differ.")
      (row_text "book.xlsx [Small]" "(3, 2)" "(3, 2)"
                "Perfect match" "1 rows differ.") = "1 rows differ.".
Proof.
  apply (row_text_aligned "book.xlsx [Small]" "(3, 2)" "(3, 2)"
           "Perfect match" "1 rows differ."); simpl; lia.
Defined.


End more_samples_checked.

(** * The frame of differences on Float64 cells *)

Section float_samples_checked.
#[local] Existing Instance float_polars.


End float_samples_checked.
